(** * SpiroGraph: kinematics engine, trace store and view transform

    A shallow embedding of [src/components/SpirographRenderer.tsx] (and of
    the view handlers of the App component) together with the properties
    the specification states about them.

    Number model.  Every TypeScript [number] is read as a real number: the
    arithmetic of the source is taken exactly, [Math.cos], [Math.sin],
    [Math.sqrt] and [Math.exp] are the real functions, and the literals
    [0.002], [0.005], [0.0001], [0.1], [1.2] denote the corresponding
    decimal fractions.  Infinities, NaN and the sign of zero are outside
    this model, and so is rounding, with one exception: where the size of
    a canvas, an integer, is cut from a product that sits on an integer,
    the rounding errors of the product are explicit (see [rounded]). *)

From Stdlib Require Import Reals Lra Lia List ZArith Bool String Sorted.
Import ListNotations.
Open Scope R_scope.

(** The TypeScript type [number].  The source calls the stator radius [R];
    with this name for the type the radius keeps its name. *)
Abbreviation number := R (only parsing).

(** ** The parts of the JavaScript runtime the source relies on *)

Module JS.

(** [a || b] on numbers: [a] unless it is falsy, and the only falsy real
    is zero. *)
Definition or (a b : number) : number := if Req_dec_T a 0 then b else a.

(** Truthiness of an optional number ([undefined] and [0] are falsy). *)
Definition truthy (a : option number) : bool :=
  match a with
  | None => false
  | Some v => if Req_dec_T v 0 then false else true
  end.

(** [a < b] as a boolean test. *)
Definition lt (a b : number) : bool := if Rlt_dec a b then true else false.

(** [a === b] on numbers. *)
Definition eq (a b : number) : bool := if Req_dec_T a b then true else false.

(** [Math.ceil], [Math.round] (halves go up) as integers. *)
Definition ceil (a : number) : Z := Zceil a.
Definition round (a : number) : Z := Zfloor (a + 1 / 2).

(** Assigning a number to an integer attribute such as [canvas.width]
    drops its fraction. *)
Definition truncate (a : number) : Z :=
  if Rlt_dec a 0 then Zceil a else Zfloor a.

(** [Math.hypot] of two arguments. *)
Definition hypot (a b : number) : number := sqrt (a * a + b * b).

(** [Math.atan2 y x], by quadrant. *)
Definition atan2 (y x : number) : number :=
  if Rlt_dec 0 x then atan (y / x)
  else if Rlt_dec x 0 then
    (if Rle_dec 0 y then atan (y / x) + PI else atan (y / x) - PI)
  else if Rlt_dec 0 y then PI / 2
  else if Rlt_dec y 0 then - (PI / 2)
  else 0.

(** [a / b] never throws; with a zero divisor it is an infinity or NaN.
    [quotient a b] is the quotient when it is a finite number. *)
Definition quotient (a b : number) : option number :=
  if Req_dec_T b 0 then None else Some (a / b).

(** [Number.MAX_VALUE], the largest finite double. *)
Definition MAX_VALUE : number := (2 - / 2 ^ 52) * 2 ^ 1023.

(** A [for (i = 0; i < n; i++) body] loop over a state. *)
Fixpoint repeat {A : Type} (n : nat) (body : A -> A) (s : A) : A :=
  match n with
  | O => s
  | S m => repeat m body (body s)
  end.

End JS.

(** ** Data model *)

(** A trace point [{x, y}] in world space. *)
Module Point.
Record t : Type := mk { x : number; y : number }.
End Point.

(** [SpiroConfig] of [types.ts]. *)
Record SpiroConfig : Type := mkConfig {
  outerRadius : number;
  innerRadius : number;
  penOffset : number;
  penColor : string;
  speed : number;
  opacity : number;
  lineWidth : number;
  showGears : bool;
  statorAspect : number;
  rotorAspect : number;
  numerator : option number;
  denominator : option number
}.

(** What [getGeometry] returns. *)
Record Geometry : Type := mkGeometry {
  g_px : number; g_py : number;
  g_cx : number; g_cy : number;
  g_phi : number;
  g_contactX : number; g_contactY : number
}.

(** What [calculateExactStep] and [calculatePhysicsStep] return: the
    geometry and [newU]. *)
Record StepState : Type := mkStep {
  px : number; py : number;
  cx : number; cy : number;
  newU : number;
  phi : number;
  contactX : number; contactY : number
}.

(** The mutable refs of the renderer: [pointsRef], [angleRef],
    [rotorParamRef], [rotorRotationRef]. *)
Record Refs : Type := mkRefs {
  pointsRef : list Point.t;
  angleRef : number;
  rotorParamRef : number;
  rotorRotationRef : number
}.

(** The refs as [useRef] initialises them. *)
Definition initialRefs : Refs :=
  {| pointsRef := []; angleRef := 0; rotorParamRef := 0; rotorRotationRef := 0 |}.

(** ** Math engine helpers *)

Definition getGeometry (t u R r d sAspect rAspect : number) : Geometry :=
  let sx := R * cos t in
  let sy := R * sAspect * sin t in
  let stx := - R * sin t in
  let sty := R * sAspect * cos t in
  let alpha := JS.atan2 stx (- sty) in
  let rtx := - r * sin u in
  let rty := r * rAspect * cos u in
  let beta := JS.atan2 (rtx * -1) rty in
  let phi := alpha - beta + PI in
  let rcx := r * cos u in
  let rcy := r * rAspect * sin u in
  let cosPhi := cos phi in
  let sinPhi := sin phi in
  let rotRcx := rcx * cosPhi - rcy * sinPhi in
  let rotRcy := rcx * sinPhi + rcy * cosPhi in
  let cx := sx - rotRcx in
  let cy := sy - rotRcy in
  let px := cx + d * cosPhi in
  let py := cy + d * sinPhi in
  {| g_px := px; g_py := py; g_cx := cx; g_cy := cy; g_phi := phi;
     g_contactX := sx; g_contactY := sy |}.

Definition calculateExactStep (t R r d : number) : StepState :=
  let cx := (R - r) * cos t in
  let cy := (R - r) * sin t in
  let phi := t * (1 - R / r) in
  let px := cx + d * cos phi in
  let py := cy + d * sin phi in
  let contactX := R * cos t in
  let contactY := R * sin t in
  {| px := px; py := py; cx := cx; cy := cy; newU := 0; phi := phi;
     contactX := contactX; contactY := contactY |}.

Definition getEllipseMetric (angle radius aspect : number) : number :=
  let sin := sin angle in
  let cos := cos angle in
  let dx := - radius * sin in
  let dy := radius * aspect * cos in
  sqrt (dx * dx + dy * dy).

(** The denominator of [getDerivative]: [rotorSpeed || 0.0001]. *)
Definition rotorDenominator (u r rAspect : number) : number :=
  JS.or (getEllipseMetric u r rAspect) 0.0001.

Definition getDerivative (t u R sAspect r rAspect : number) : number :=
  let statorSpeed := getEllipseMetric t R sAspect in
  statorSpeed / rotorDenominator u r rAspect.

(** The four RK4 stage derivatives of [calculatePhysicsStep]. *)
Definition rk4_k1 (t dt currentU R r sAspect rAspect : number) : number :=
  getDerivative t currentU R sAspect r rAspect.
Definition rk4_k2 (t dt currentU R r sAspect rAspect : number) : number :=
  getDerivative (t + dt / 2)
    (currentU + (dt * rk4_k1 t dt currentU R r sAspect rAspect) / 2)
    R sAspect r rAspect.
Definition rk4_k3 (t dt currentU R r sAspect rAspect : number) : number :=
  getDerivative (t + dt / 2)
    (currentU + (dt * rk4_k2 t dt currentU R r sAspect rAspect) / 2)
    R sAspect r rAspect.
Definition rk4_k4 (t dt currentU R r sAspect rAspect : number) : number :=
  getDerivative (t + dt)
    (currentU + dt * rk4_k3 t dt currentU R r sAspect rAspect)
    R sAspect r rAspect.

Definition calculatePhysicsStep (t dt currentU R r d sAspect rAspect : number)
  : StepState :=
  let k1 := rk4_k1 t dt currentU R r sAspect rAspect in
  let k2 := rk4_k2 t dt currentU R r sAspect rAspect in
  let k3 := rk4_k3 t dt currentU R r sAspect rAspect in
  let k4 := rk4_k4 t dt currentU R r sAspect rAspect in
  let newU := currentU + (dt / 6) * (k1 + 2 * k2 + 2 * k3 + k4) in
  let geom := getGeometry (t + dt) newU R r d sAspect rAspect in
  {| px := g_px geom; py := g_py geom; cx := g_cx geom; cy := g_cy geom;
     newU := newU; phi := g_phi geom;
     contactX := g_contactX geom; contactY := g_contactY geom |}.

(** ** The simulation part of [animate] *)

(** [const dt = 0.002] *)
Definition dt : number := 0.002.

(** [Math.abs(sAspect - 1.0) < 0.005 && Math.abs(rAspect - 1.0) < 0.005].
    The aspects are required numbers of the config, on which [?? 1.0] is
    the identity. *)
Definition isCircular (config : SpiroConfig) : bool :=
  JS.lt (Rabs (statorAspect config - 1.0)) 0.005
  && JS.lt (Rabs (rotorAspect config - 1.0)) 0.005.

(** The [state] computed by one iteration of the stepping loop. *)
Definition stepState (config : SpiroConfig) (refs : Refs) : StepState :=
  let R := outerRadius config in
  let r := innerRadius config in
  let d := penOffset config in
  if isCircular config then
    calculateExactStep (angleRef refs + dt) R r d
  else
    calculatePhysicsStep (angleRef refs) dt (rotorParamRef refs)
      R r d (statorAspect config) (rotorAspect config).

(** One iteration of the stepping loop: the refs after it. *)
Definition subStep (config : SpiroConfig) (refs : Refs) : Refs :=
  let state := stepState config refs in
  let point := {| Point.x := px state; Point.y := py state |} in
  if isCircular config then
    {| pointsRef := pointsRef refs ++ [point];
       angleRef := angleRef refs + dt;
       rotorParamRef := rotorParamRef refs;
       rotorRotationRef := rotorRotationRef refs |}
  else
    {| pointsRef := pointsRef refs ++ [point];
       angleRef := angleRef refs + dt;
       rotorParamRef := newU state;
       rotorRotationRef := phi state |}.

(** [const steps = Math.ceil(speed * 5)]; the loop runs [steps] times, and
    not at all when [steps] is not positive. *)
Definition steps (config : SpiroConfig) : nat :=
  Z.to_nat (JS.ceil (speed config * 5)).

(** The simulation block of one animation tick. *)
Definition simulate (config : SpiroConfig) (isPlaying : bool) (refs : Refs)
  : Refs :=
  if isPlaying then
    let refs' := JS.repeat (steps config) (subStep config) refs in
    if isCircular config then
      let state := calculateExactStep (angleRef refs')
                     (outerRadius config) (innerRadius config)
                     (penOffset config) in
      {| pointsRef := pointsRef refs';
         angleRef := angleRef refs';
         rotorParamRef := rotorParamRef refs';
         rotorRotationRef := phi state |}
    else refs'
  else refs.

(** What [animate] looks at before it simulates and draws: whether the
    two canvases are mounted, the size of the container when it is
    mounted, and whether [getContext('2d')] gives a context for each
    canvas. *)
Record Surface : Type := mkSurface {
  traceCanvas : bool;
  gearsCanvas : bool;
  containerSize : option (number * number);
  traceCtx : bool;
  gearsCtx : bool
}.

(** One call of [animate], as far as the refs go: it returns early
    without a canvas, a container or a context, and on a container of
    width or height zero; otherwise it runs the simulation block. *)
Definition animate (surface : Surface) (config : SpiroConfig)
    (isPlaying : bool) (refs : Refs) : Refs :=
  if negb (traceCanvas surface) || negb (gearsCanvas surface) then refs
  else
    match containerSize surface with
    | None => refs
    | Some (width, height) =>
        if negb (traceCtx surface) || negb (gearsCtx surface) then refs
        else if JS.eq width 0 || JS.eq height 0 then refs
        else simulate config isPlaying refs
    end.

(** The clear effect: runs when [shouldClear] is set. *)
Definition clear (shouldClear : bool) (refs : Refs) : Refs :=
  if shouldClear then
    {| pointsRef := []; angleRef := 0; rotorParamRef := 0;
       rotorRotationRef := 0 |}
  else refs.

(** The point an exact-mode run appends at its [i]-th sub-step (counted
    from 0) when it starts at stator angle [t0]. *)
Definition exactPoint (config : SpiroConfig) (t0 : number) (i : nat) : Point.t :=
  let state := calculateExactStep (t0 + INR (S i) * dt) (outerRadius config)
                 (innerRadius config) (penOffset config) in
  {| Point.x := px state; Point.y := py state |}.

(** ** View transform and gesture handlers *)

(** The view transform [{x, y, k}]. *)
Module Transform.
Record t : Type := mk { x : number; y : number; k : number }.
End Transform.

(** The bounds the handlers clamp the scale to. *)
Definition kMin : number := 0.1.
Definition kMax : number := 20.

(** The scale of a transform lies within the bounds. *)
Definition inBounds (tr : Transform.t) : Prop :=
  kMin <= Transform.k tr <= kMax.

(** What [getBoundingClientRect] gives for the container. *)
Record Rect : Type := mkRect {
  left : number; top : number; width : number; height : number
}.

Record WheelEvent : Type := mkWheel {
  w_clientX : number; w_clientY : number; deltaY : number
}.

Record PointerEvent : Type := mkPointer {
  pointerId : Z; clientX : number; clientY : number
}.

(** The function [handleWheel] passes to [onTransformChange]. *)
Definition wheelUpdater (rect : Rect) (mouseX mouseY scaleFactor : number)
    (prev : Transform.t) : Transform.t :=
  let newK := Rmax 0.1 (Rmin 20 (Transform.k prev * scaleFactor)) in
  let W := width rect in
  let H := height rect in
  let worldX := (mouseX - (W / 2 + Transform.x prev)) / Transform.k prev in
  let worldY := (mouseY - (H / 2 + Transform.y prev)) / Transform.k prev in
  let newX := mouseX - W / 2 - worldX * newK in
  let newY := mouseY - H / 2 - worldY * newK in
  {| Transform.x := newX; Transform.y := newY; Transform.k := newK |}.

(** [handleWheel]; [container] is [containerRef.current] with its
    bounding rectangle. *)
Definition handleWheel (container : option Rect) (e : WheelEvent)
    (prev : Transform.t) : Transform.t :=
  match container with
  | None => prev
  | Some rect =>
      let mouseX := w_clientX e - left rect in
      let mouseY := w_clientY e - top rect in
      let sensitivity := 0.001 in
      let delta := - deltaY e in
      let scaleFactor := exp (delta * sensitivity) in
      wheelUpdater rect mouseX mouseY scaleFactor prev
  end.

(** The function the pinch branch of [handlePointerMove] passes to
    [onTransformChange]. *)
Definition pinchUpdater (container : option Rect)
    (midX midY scaleFactor : number) (prev : Transform.t) : Transform.t :=
  let newK := Rmax 0.1 (Rmin 20 (Transform.k prev * scaleFactor)) in
  match container with
  | None =>
      {| Transform.x := Transform.x prev; Transform.y := Transform.y prev;
         Transform.k := newK |}
  | Some rect =>
      let mouseX := midX - left rect in
      let mouseY := midY - top rect in
      let W := width rect in
      let H := height rect in
      let worldX := (mouseX - (W / 2 + Transform.x prev)) / Transform.k prev in
      let worldY := (mouseY - (H / 2 + Transform.y prev)) / Transform.k prev in
      let newX := mouseX - W / 2 - worldX * newK in
      let newY := mouseY - H / 2 - worldY * newK in
      {| Transform.x := newX; Transform.y := newY; Transform.k := newK |}
  end.

(** [pointersRef] is a [Map] from pointer ids to positions, kept in
    insertion order; [prevPinchDistRef] is a nullable number. *)
Record Gesture : Type := mkGesture {
  pointers : list (Z * Point.t);
  prevPinchDist : option number
}.

Module PointerMap.
Fixpoint set (id : Z) (v : Point.t) (m : list (Z * Point.t))
  : list (Z * Point.t) :=
  match m with
  | [] => [(id, v)]
  | (i, w) :: m' =>
      if Z.eqb i id then (i, v) :: m' else (i, w) :: set id v m'
  end.
Definition delete (id : Z) (m : list (Z * Point.t)) : list (Z * Point.t) :=
  filter (fun p => negb (Z.eqb (fst p) id)) m.
Definition get (id : Z) (m : list (Z * Point.t)) : option Point.t :=
  option_map snd (find (fun p => Z.eqb (fst p) id) m).
Definition has (id : Z) (m : list (Z * Point.t)) : bool :=
  match get id m with Some _ => true | None => false end.
End PointerMap.

Definition handlePointerDown (e : PointerEvent) (g : Gesture) : Gesture :=
  {| pointers := PointerMap.set (pointerId e)
                   {| Point.x := clientX e; Point.y := clientY e |}
                   (pointers g);
     prevPinchDist := None |}.

Definition handlePointerUp (e : PointerEvent) (g : Gesture) : Gesture :=
  {| pointers := PointerMap.delete (pointerId e) (pointers g);
     prevPinchDist := None |}.

Definition handlePointerMove (container : option Rect) (e : PointerEvent)
    (g : Gesture) (tr : Transform.t) : Gesture * Transform.t :=
  match PointerMap.get (pointerId e) (pointers g) with
  | None => (g, tr)
  | Some prev =>
      let here := {| Point.x := clientX e; Point.y := clientY e |} in
      match List.length (pointers g) with
      | 1%nat =>
          let dx := clientX e - Point.x prev in
          let dy := clientY e - Point.y prev in
          ({| pointers := PointerMap.set (pointerId e) here (pointers g);
              prevPinchDist := prevPinchDist g |},
           {| Transform.x := Transform.x tr + dx;
              Transform.y := Transform.y tr + dy;
              Transform.k := Transform.k tr |})
      | 2%nat =>
          match find (fun p => negb (Z.eqb (fst p) (pointerId e)))
                  (pointers g) with
          | None => (g, tr)
          | Some otherPoint =>
              let p1 := here in
              let p2 := snd otherPoint in
              let dist := JS.hypot (Point.x p2 - Point.x p1)
                            (Point.y p2 - Point.y p1) in
              let tr' :=
                match prevPinchDist g with
                | None => tr
                | Some prevDist =>
                    let scaleFactor := dist / prevDist in
                    let midX := (Point.x p1 + Point.x p2) / 2 in
                    let midY := (Point.y p1 + Point.y p2) / 2 in
                    if JS.lt 0.005 (Rabs (scaleFactor - 1)) then
                      pinchUpdater container midX midY scaleFactor tr
                    else tr
                end in
              ({| pointers := PointerMap.set (pointerId e) here (pointers g);
                  prevPinchDist := Some dist |},
               tr')
          end
      | _ => (g, tr)
      end
  end.

(** With the two pointers [a] at [pa] and [b] at [pb] down, the position
    of the pointer the event [e] does not move: the [otherPoint] of the
    pinch branch. *)
Definition otherPointer (a : Z) (pa pb : Point.t) (e : PointerEvent)
  : Point.t :=
  if Z.eqb (pointerId e) a then pb else pa.

(** The distance [Math.hypot] measures between a moving pointer at the
    position of [e] and the other pointer at [other]. *)
Definition pinchDist (other : Point.t) (e : PointerEvent) : number :=
  JS.hypot (Point.x other - clientX e) (Point.y other - clientY e).

(** [calculateOptimalScale] of the App component. *)
Definition calculateOptimalScale (cfg : SpiroConfig) (width height : number)
  : number :=
  let R := outerRadius cfg in
  let r := innerRadius cfg in
  let d := penOffset cfg in
  let sAspect := JS.or (statorAspect cfg) 1 in
  let rAspect := JS.or (rotorAspect cfg) 1 in
  let maxR := R * Rmax 1 sAspect in
  let maxr := r * Rmax 1 rAspect in
  let centerDist := Rabs (R - r) in
  let traceExtent := centerDist + d in
  let gearExtent := if showGears cfg then centerDist + maxr else 0 in
  let statorExtent := maxR in
  let maxExtent := Rmax (Rmax traceExtent gearExtent) statorExtent in
  let minDim := Rmin width height in
  Rmax 0.1 (Rmin 5 ((minDim / 2 * 0.9) / JS.or maxExtent 1)).

(** The Zoom In, Reset View and Zoom Out buttons of the App component. *)
Definition zoomInButton (prev : Transform.t) : Transform.t :=
  {| Transform.x := Transform.x prev; Transform.y := Transform.y prev;
     Transform.k := Transform.k prev * 1.2 |}.

Definition zoomOutButton (prev : Transform.t) : Transform.t :=
  {| Transform.x := Transform.x prev; Transform.y := Transform.y prev;
     Transform.k := Transform.k prev / 1.2 |}.

Definition resetViewButton (config : SpiroConfig)
    (innerWidth innerHeight : number) : Transform.t :=
  {| Transform.x := 0; Transform.y := 0;
     Transform.k := calculateOptimalScale config innerWidth innerHeight |}.

(** [handleZoomIn] and [handleZoomOut] of the longer revision of the App
    component, which bound the scale. *)
Definition handleZoomIn (prev : Transform.t) : Transform.t :=
  {| Transform.x := Transform.x prev; Transform.y := Transform.y prev;
     Transform.k := Rmin 20 (Transform.k prev * 1.2) |}.

Definition handleZoomOut (prev : Transform.t) : Transform.t :=
  {| Transform.x := Transform.x prev; Transform.y := Transform.y prev;
     Transform.k := Rmax 0.1 (Transform.k prev / 1.2) |}.

(** The operations that write the view transform. *)
Inductive ViewOp : Type :=
| OpWheel (container : option Rect) (e : WheelEvent)
| OpPointerDown (e : PointerEvent)
| OpPointerUp (e : PointerEvent)
| OpPointerMove (container : option Rect) (e : PointerEvent)
| OpZoomIn
| OpZoomOut
| OpReset (config : SpiroConfig) (innerWidth innerHeight : number).

(** The view state: gesture bookkeeping and the transform.  [buttons]
    gives the two zoom button handlers, so that both revisions of the App
    component can be run. *)
Definition viewStep (buttons : (Transform.t -> Transform.t) *
                               (Transform.t -> Transform.t))
    (op : ViewOp) (s : Gesture * Transform.t) : Gesture * Transform.t :=
  let (g, tr) := s in
  match op with
  | OpWheel container e => (g, handleWheel container e tr)
  | OpPointerDown e => (handlePointerDown e g, tr)
  | OpPointerUp e => (handlePointerUp e g, tr)
  | OpPointerMove container e => handlePointerMove container e g tr
  | OpZoomIn => (g, fst buttons tr)
  | OpZoomOut => (g, snd buttons tr)
  | OpReset config w h => (g, resetViewButton config w h)
  end.

Definition viewRun (buttons : (Transform.t -> Transform.t) *
                              (Transform.t -> Transform.t))
    (ops : list ViewOp) (s : Gesture * Transform.t) : Gesture * Transform.t :=
  fold_left (fun s op => viewStep buttons op s) ops s.

(** The world coordinate drawn at a screen coordinate: [animate] draws
    world [w] at [size / 2 + offset + w * k]. *)
Definition toWorld (size offset k screen : number) : number :=
  (screen - (size / 2 + offset)) / k.

(** ** Export: the rotor/stator ratio of the annotated image *)

Definition calculateEllipseCircumference (radius aspect : number) : number :=
  let a := radius in
  let b := radius * aspect in
  if JS.eq aspect 1 then 2 * PI * radius
  else
    let h := (a - b) ^ 2 / (a + b) ^ 2 in
    PI * (a + b) * (1 + (3 * h) / (10 + sqrt (4 - 3 * h))).

(** The state of the search loop: [bestN], [bestD], [minError]. *)
Record Best : Type := mkBest { bestN : Z; bestD : Z; minError : number }.

(** The body of [for (let d = 1; d <= 1000; d++)]. *)
Definition searchBody (val : number) (st : Best) (d : Z) : Best :=
  let n := JS.round (val * IZR d) in
  let error := Rabs (val - IZR n / IZR d) in
  if JS.lt error (minError st) then
    {| bestN := n; bestD := d; minError := error |}
  else st.

Definition searchFrom (val : number) (ds : list Z) (st : Best) : Best :=
  fold_left (searchBody val) ds st.

Definition denominators : list Z := map Z.of_nat (seq 1 1000).

Definition ratioSearch (val : number) : Best :=
  searchFrom val denominators
    {| bestN := 0; bestD := 1; minError := JS.MAX_VALUE |}.

(** The value the search approximates. *)
Definition circumferenceRatio (config : SpiroConfig) : number :=
  let outerC := calculateEllipseCircumference (outerRadius config)
                  (statorAspect config) in
  let innerC := calculateEllipseCircumference (innerRadius config)
                  (rotorAspect config) in
  innerC / outerC.

(** The test [config.numerator && config.denominator]. *)
Definition hintPresent (config : SpiroConfig) : bool :=
  JS.truthy (numerator config) && JS.truthy (denominator config).

(** The error [Math.abs(val - n/d)] of a fraction. *)
Definition ratioError (val : number) (n d : Z) : number :=
  Rabs (val - IZR n / IZR d).

(** What the loop maintains: the recorded error is the error of the
    recorded fraction, whose denominator is in range. *)
Definition consistent (val : number) (st : Best) : Prop :=
  (1 <= bestD st <= 1000)%Z /\
  bestN st = JS.round (val * IZR (bestD st)) /\
  minError st = ratioError val (bestN st) (bestD st).

(** The numerator and denominator printed in [ratioText]. *)
Definition ratioText (config : SpiroConfig) : number * number :=
  match numerator config, denominator config with
  | Some n, Some d =>
      if JS.truthy (Some n) && JS.truthy (Some d) then (n, d)
      else
        let b := ratioSearch (circumferenceRatio config) in
        (IZR (bestN b), IZR (bestD b))
  | _, _ =>
      let b := ratioSearch (circumferenceRatio config) in
      (IZR (bestN b), IZR (bestD b))
  end.

(** [applyRatioValues] of the controls, the one place that stores a hint
    typed by the user: [None] is the early return. *)
Definition applyRatioValues (config : SpiroConfig) (num den : number)
  : option SpiroConfig :=
  if Rle_dec num 0 then None
  else if Rle_dec den 0 then None
  else
    let outerCircumference :=
      calculateEllipseCircumference (outerRadius config)
        (statorAspect config) in
    let targetRatio := num / den in
    let targetInnerCircumference := outerCircumference * targetRatio in
    let unitInnerCircumference :=
      calculateEllipseCircumference 1 (rotorAspect config) in
    let newInnerRadius := targetInnerCircumference / unitInnerCircumference in
    let clampedRadius := Rmax 10 (Rmin 400 newInnerRadius) in
    Some {| outerRadius := outerRadius config;
            innerRadius := clampedRadius;
            penOffset := penOffset config;
            penColor := penColor config;
            speed := speed config;
            opacity := opacity config;
            lineWidth := lineWidth config;
            showGears := showGears config;
            statorAspect := statorAspect config;
            rotorAspect := rotorAspect config;
            numerator := Some num;
            denominator := Some den |}.

(** ** The states the renderer can be in *)

(** The refs start as [useRef] initialises them and are written only by
    the simulation block of [animate] and by the clear effect, each of
    which runs to completion before anything else reads the refs. *)
Inductive reachable : Refs -> Prop :=
| reach_initial : reachable initialRefs
| reach_animate (config : SpiroConfig) (isPlaying : bool) (refs : Refs) :
    reachable refs -> reachable (simulate config isPlaying refs)
| reach_clear (shouldClear : bool) (refs : Refs) :
    reachable refs -> reachable (clear shouldClear refs).

(** ** The specification's formulas *)

Module Spec.

(** Rotation of a vector by an angle. *)
Definition rotate (phi : number) (v : number * number) : number * number :=
  (fst v * cos phi - snd v * sin phi, fst v * sin phi + snd v * cos phi).

(** Exact mode: rotor center, rotor rotation, pen position and stator
    contact point of the hypotrochoid at stator angle [t]. *)
Definition center (R r t : number) : number * number :=
  ((R - r) * cos t, (R - r) * sin t).
Definition rotation (R r t : number) : number := t * (1 - R / r).
Definition pen (R r d t : number) : number * number :=
  (fst (center R r t) + d * cos (rotation R r t),
   snd (center R r t) + d * sin (rotation R r t)).
Definition contact (R t : number) : number * number :=
  (R * cos t, R * sin t).

(** The points of an exact-mode trace of [N] sub-steps from [t = 0]. *)
Definition exactTrace (R r d : number) (N : nat) : list Point.t :=
  map (fun i => {| Point.x := fst (pen R r d (INR (S i) * dt));
                   Point.y := snd (pen R r d (INR (S i) * dt)) |})
      (seq 0 N).

(** Numeric mode: the speed of an ellipse is the magnitude of the
    tangent vector of [(radius cos a, radius aspect sin a)]. *)
Definition speed (radius aspect angle : number) : number :=
  sqrt ((- radius * sin angle) ^ 2 + (radius * aspect * cos angle) ^ 2).

Definition derivative (R sAspect r rAspect t u : number) : number :=
  speed R sAspect t / speed r rAspect u.

(** One Runge-Kutta step of fourth order for [du/dt = f t u]. *)
Definition rk4 (f : number -> number -> number) (t u h : number) : number :=
  let k1 := f t u in
  let k2 := f (t + h / 2) (u + h * k1 / 2) in
  let k3 := f (t + h / 2) (u + h * k2 / 2) in
  let k4 := f (t + h) (u + h * k3) in
  u + (h / 6) * (k1 + 2 * k2 + 2 * k3 + k4).

(** Orientation of the stator tangent at [t] and of the rotor tangent
    at [u]. *)
Definition alpha (R sAspect t : number) : number :=
  JS.atan2 (- R * sin t) (- (R * sAspect * cos t)).
Definition beta (r rAspect u : number) : number :=
  JS.atan2 (- r * sin u * -1) (r * rAspect * cos u).

(** The contact point on the stator ellipse, and the vector from the
    rotor center to the contact point in the rotor's own frame. *)
Definition statorContact (R sAspect t : number) : number * number :=
  (R * cos t, R * sAspect * sin t).
Definition rotorContact (r rAspect u : number) : number * number :=
  (r * cos u, r * rAspect * sin u).

(** [clamp v lo hi] *)
Definition clamp (v lo hi : number) : number := Rmax lo (Rmin hi v).

(** Ramanujan's approximation of the circumference of an ellipse with
    semi-axes [a] and [b], the one in terms of
    [h = (a - b)^2 / (a + b)^2], and the circumference of a gear given by
    its radius and aspect. *)
Definition ramanujan (a b : number) : number :=
  let h := (a - b) ^ 2 / (a + b) ^ 2 in
  PI * (a + b) * (1 + 3 * h / (10 + sqrt (4 - 3 * h))).
Definition circumference (radius aspect : number) : number :=
  ramanujan radius (radius * aspect).

End Spec.

(** ** Sample configurations *)

(** A circular configuration: [DEFAULT_CONFIG] of [constants.ts]. *)
Definition defaultConfig : SpiroConfig :=
  {| outerRadius := 150; innerRadius := 52; penOffset := 70;
     penColor := "#22c55e"; speed := 1; opacity := 1; lineWidth := 1.5;
     showGears := true; statorAspect := 1; rotorAspect := 1;
     numerator := Some 2; denominator := Some 3 |}.

(** The same gears with an elliptical stator. *)
Definition ellipticConfig : SpiroConfig :=
  {| outerRadius := 150; innerRadius := 52; penOffset := 70;
     penColor := "#22c55e"; speed := 1; opacity := 1; lineWidth := 1.5;
     showGears := true; statorAspect := 0.6; rotorAspect := 1;
     numerator := Some 2; denominator := Some 3 |}.

(** The default gears after the radius was edited by hand, which drops
    the stored ratio. *)
Definition editedConfig : SpiroConfig :=
  {| outerRadius := 150; innerRadius := 52; penOffset := 70;
     penColor := "#22c55e"; speed := 1; opacity := 1; lineWidth := 1.5;
     showGears := true; statorAspect := 1; rotorAspect := 1;
     numerator := None; denominator := None |}.

(** The gears with the elliptical stator after the radius was edited by
    hand. *)
Definition editedEllipticConfig : SpiroConfig :=
  {| outerRadius := 150; innerRadius := 52; penOffset := 70;
     penColor := "#22c55e"; speed := 1; opacity := 1; lineWidth := 1.5;
     showGears := true; statorAspect := 0.6; rotorAspect := 1;
     numerator := None; denominator := None |}.

(** ** Drawing the trace *)

(** [for (let i = i0; i < points.length; i += stride) lineTo(points[i])]:
    the vertices the loop adds to the path.  [fuel] bounds the number of
    iterations; [points.length] iterations are enough for a positive
    stride. *)
Fixpoint strideLoop (fuel i stride : nat) (points : list Point.t)
  : list Point.t :=
  match fuel with
  | O => []
  | S fuel' =>
      match nth_error points i with
      | Some p => p :: strideLoop fuel' (i + stride) stride points
      | None => []
      end
  end.

(** The polyline [animate] strokes for the trace at scale [k]: nothing for
    an empty trace, otherwise [moveTo(points[0])], every [stride]-th point
    from index 1, and with a stride above 1 the last point once more. *)
Definition livePath (k : number) (points : list Point.t) : list Point.t :=
  match points with
  | [] => []
  | p0 :: _ =>
      let stride := if JS.lt k 0.2 then 5%nat else 1%nat in
      p0 :: strideLoop (List.length points) 1 stride points
         ++ (if (1 <? stride)%nat then [last points p0] else [])
  end.

(** The polyline the export strokes: every point. *)
Definition exportPath (points : list Point.t) : list Point.t :=
  match points with
  | [] => []
  | p0 :: _ => p0 :: strideLoop (List.length points) 1 1 points
  end.

(** ** Dragging in [components/SpirographRenderer.tsx] *)

(** [isDraggingRef] and [lastPointerRef]. *)
Record Drag : Type := mkDrag {
  isDragging : bool;
  lastPointer : Point.t
}.

Definition initialDrag : Drag :=
  {| isDragging := false;
     lastPointer := {| Point.x := 0; Point.y := 0 |} |}.

Definition dragPointerDown (e : PointerEvent) (st : Drag) : Drag :=
  {| isDragging := true;
     lastPointer := {| Point.x := clientX e; Point.y := clientY e |} |}.

Definition dragPointerMove (e : PointerEvent) (st : Drag) (prev : Transform.t)
  : Drag * Transform.t :=
  if isDragging st then
    let dx := clientX e - Point.x (lastPointer st) in
    let dy := clientY e - Point.y (lastPointer st) in
    ({| isDragging := isDragging st;
        lastPointer := {| Point.x := clientX e; Point.y := clientY e |} |},
     {| Transform.x := Transform.x prev + dx;
        Transform.y := Transform.y prev + dy;
        Transform.k := Transform.k prev |})
  else (st, prev).

Definition dragPointerUp (e : PointerEvent) (st : Drag) : Drag :=
  {| isDragging := false; lastPointer := lastPointer st |}.

(** A run of pointer moves. *)
Definition dragMoves (es : list PointerEvent) (s : Drag * Transform.t)
  : Drag * Transform.t :=
  fold_left (fun s e => dragPointerMove e (fst s) (snd s)) es s.

(** A run of pointer moves through the pointer map of the later revision. *)
Definition pointerMoves (container : option Rect) (es : list PointerEvent)
    (s : Gesture * Transform.t) : Gesture * Transform.t :=
  fold_left (fun s e => handlePointerMove container e (fst s) (snd s)) es s.

(** ** Line width of the App component *)

Definition calculateResponsiveLineWidth (k width height : number) : number :=
  let minDim := Rmin width height in
  let targetVisualWidth := Rmax 1.1 (minDim / 450) in
  let computedLineWidth := targetVisualWidth / JS.or k 1 in
  Rmax 0.1 (Rmin 30 computedLineWidth).

(** ** Pinch gestures *)

(** A run of moves of the two pointers [a] at [pa] and [b] at [pb], each
    of which changes the distance between them by a factor within 0.005
    of 1, starting from the recorded distance [prev]. *)
Fixpoint slowPinch (a : Z) (pa pb : Point.t) (prev : number)
    (es : list PointerEvent) : Prop :=
  match es with
  | [] => True
  | e :: es' =>
      let here := {| Point.x := clientX e; Point.y := clientY e |} in
      let dist := pinchDist (otherPointer a pa pb e) e in
      Rabs (dist / prev - 1) <= 0.005 /\
      (if Z.eqb (pointerId e) a then slowPinch a here pb dist es'
       else slowPinch a pa here dist es')
  end.

(** ** The ratio search *)

(** [bestN = 0, bestD = 1, minError = Number.MAX_VALUE]: the state the
    search loop starts from. *)
Definition initialBest : Best :=
  {| bestN := 0; bestD := 1; minError := JS.MAX_VALUE |}.

(** ** The controls *)

(** A key of [SpiroConfig] with a value of its type, as [updateConfig]
    receives them. *)
Inductive ConfigUpdate : Type :=
| SetOuterRadius (v : number)
| SetInnerRadius (v : number)
| SetPenOffset (v : number)
| SetPenColor (v : string)
| SetSpeed (v : number)
| SetOpacity (v : number)
| SetLineWidth (v : number)
| SetShowGears (v : bool)
| SetStatorAspect (v : number)
| SetRotorAspect (v : number)
| SetNumerator (v : option number)
| SetDenominator (v : option number).

(** [updateConfig key value]: the new config is the previous one with the
    key overwritten, and with the ratio hint removed when the key is one of
    the two radii. *)
Definition updateConfig (u : ConfigUpdate) (prev : SpiroConfig) : SpiroConfig :=
  let set outerRadius' innerRadius' penOffset' penColor' speed' opacity'
          lineWidth' showGears' statorAspect' rotorAspect' numerator'
          denominator' :=
    {| outerRadius := outerRadius'; innerRadius := innerRadius';
       penOffset := penOffset'; penColor := penColor'; speed := speed';
       opacity := opacity'; lineWidth := lineWidth'; showGears := showGears';
       statorAspect := statorAspect'; rotorAspect := rotorAspect';
       numerator := numerator'; denominator := denominator' |} in
  match u with
  | SetOuterRadius v =>
      set v (innerRadius prev) (penOffset prev) (penColor prev) (speed prev)
        (opacity prev) (lineWidth prev) (showGears prev) (statorAspect prev)
        (rotorAspect prev) None None
  | SetInnerRadius v =>
      set (outerRadius prev) v (penOffset prev) (penColor prev) (speed prev)
        (opacity prev) (lineWidth prev) (showGears prev) (statorAspect prev)
        (rotorAspect prev) None None
  | SetPenOffset v =>
      set (outerRadius prev) (innerRadius prev) v (penColor prev) (speed prev)
        (opacity prev) (lineWidth prev) (showGears prev) (statorAspect prev)
        (rotorAspect prev) (numerator prev) (denominator prev)
  | SetPenColor v =>
      set (outerRadius prev) (innerRadius prev) (penOffset prev) v (speed prev)
        (opacity prev) (lineWidth prev) (showGears prev) (statorAspect prev)
        (rotorAspect prev) (numerator prev) (denominator prev)
  | SetSpeed v =>
      set (outerRadius prev) (innerRadius prev) (penOffset prev) (penColor prev)
        v (opacity prev) (lineWidth prev) (showGears prev) (statorAspect prev)
        (rotorAspect prev) (numerator prev) (denominator prev)
  | SetOpacity v =>
      set (outerRadius prev) (innerRadius prev) (penOffset prev) (penColor prev)
        (speed prev) v (lineWidth prev) (showGears prev) (statorAspect prev)
        (rotorAspect prev) (numerator prev) (denominator prev)
  | SetLineWidth v =>
      set (outerRadius prev) (innerRadius prev) (penOffset prev) (penColor prev)
        (speed prev) (opacity prev) v (showGears prev) (statorAspect prev)
        (rotorAspect prev) (numerator prev) (denominator prev)
  | SetShowGears v =>
      set (outerRadius prev) (innerRadius prev) (penOffset prev) (penColor prev)
        (speed prev) (opacity prev) (lineWidth prev) v (statorAspect prev)
        (rotorAspect prev) (numerator prev) (denominator prev)
  | SetStatorAspect v =>
      set (outerRadius prev) (innerRadius prev) (penOffset prev) (penColor prev)
        (speed prev) (opacity prev) (lineWidth prev) (showGears prev) v
        (rotorAspect prev) (numerator prev) (denominator prev)
  | SetRotorAspect v =>
      set (outerRadius prev) (innerRadius prev) (penOffset prev) (penColor prev)
        (speed prev) (opacity prev) (lineWidth prev) (showGears prev)
        (statorAspect prev) v (numerator prev) (denominator prev)
  | SetNumerator v =>
      set (outerRadius prev) (innerRadius prev) (penOffset prev) (penColor prev)
        (speed prev) (opacity prev) (lineWidth prev) (showGears prev)
        (statorAspect prev) (rotorAspect prev) v (denominator prev)
  | SetDenominator v =>
      set (outerRadius prev) (innerRadius prev) (penOffset prev) (penColor prev)
        (speed prev) (opacity prev) (lineWidth prev) (showGears prev)
        (statorAspect prev) (rotorAspect prev) (numerator prev) v
  end.

(** The update edits one of the two radii. *)
Definition editsRadius (u : ConfigUpdate) : bool :=
  match u with
  | SetOuterRadius _ | SetInnerRadius _ => true
  | _ => false
  end.

(** The update writes the hint itself. *)
Definition editsHint (u : ConfigUpdate) : bool :=
  match u with
  | SetNumerator _ | SetDenominator _ => true
  | _ => false
  end.

(** [getRandomInt min max] for the value [rand] that [Math.random]
    returns. *)
Definition getRandomInt (rand min max : number) : number :=
  IZR (Zfloor (rand * (max - min + 1))) + min.

(** ** Random configurations of the App component *)

Inductive Theme : Type := dark | light.

(** [PRESET_COLORS] of [constants.ts]. *)
Definition PRESET_COLORS : list string :=
  [ "#dc2626"; "#ea580c"; "#eab308"; "#84cc16"; "#65a30d"; "#16a34a";
    "#2e7d32"; "#10b981"; "#0d9488"; "#06b6d4"; "#3b82f6"; "#6366f1";
    "#a855f7"; "#8b5cf6"; "#d946ef"; "#ec4899"; "#f43f5e"; "#78350f";
    "#000000"; "#6b7280"; "#ffffff" ]%string.

(** [array[i]] for an integer index: [undefined] outside the array. *)
Definition arrayGet {A : Type} (l : list A) (i : Z) : option A :=
  if (i <? 0)%Z then None else nth_error l (Z.to_nat i).

(** [Number(v.toFixed(2))] for a non-negative [v]: the nearest multiple of
    0.01, the larger one at a tie. *)
Definition toFixed2 (v : number) : number := IZR (JS.round (v * 100)) / 100.

(** [randomEccentricity] for the value [rand] that [Math.random] returns. *)
Definition randomEccentricity (rand : number) : number :=
  let val := 0.6 + rand * 0.8 in
  if JS.lt (Rabs (val - 1.0)) 0.1 then 0.6 else toFixed2 val.

(** The [do ... while (n === d)] loop over the successive pairs of values
    of [Math.random]; [None] when the pairs run out before the loop ends. *)
Fixpoint pickRatio (draws : list (number * number)) : option (Z * Z) :=
  match draws with
  | [] => None
  | (a, b) :: rest =>
      let n := (Zfloor (a * 99) + 2)%Z in
      let d := (Zfloor (b * 99) + 2)%Z in
      if Z.eqb n d then pickRatio rest else Some (n, d)
  end.

(** [generateRandomConfig]: [draws] are the pairs of random values the
    ratio loop consumes, the other arguments the random values of the
    outer radius, the pen offset, the color and the two eccentricities.
    [None] when the ratio loop does not end within [draws] or the color
    index falls outside the available colors. *)
Definition generateRandomConfig (currentTheme : Theme)
    (draws : list (number * number))
    (rOuter rOffset rColor rStator rRotor : number) : option SpiroConfig :=
  match pickRatio draws with
  | None => None
  | Some (n, d) =>
      let ratio := IZR n / IZR d in
      let outerRadius := IZR (Zfloor (60 + rOuter * 50)) in
      let innerRadius := IZR (Zfloor (outerRadius * ratio)) in
      let penOffset := IZR (Zfloor (innerRadius * (0.4 + rOffset * 0.8))) in
      let forbiddenColor :=
        match currentTheme with
        | dark => "#000000"%string
        | light => "#ffffff"%string
        end in
      let availableColors :=
        filter (fun c => negb (String.eqb c forbiddenColor)) PRESET_COLORS in
      match arrayGet availableColors
              (Zfloor (rColor * INR (List.length availableColors))) with
      | None => None
      | Some randomColor =>
          Some {| outerRadius := outerRadius;
                  innerRadius := innerRadius;
                  penOffset := penOffset;
                  penColor := randomColor;
                  speed := 1;
                  opacity := opacity defaultConfig;
                  lineWidth := lineWidth defaultConfig;
                  showGears := true;
                  statorAspect := randomEccentricity rStator;
                  rotorAspect := randomEccentricity rRotor;
                  numerator := Some (IZR n);
                  denominator := Some (IZR d) |}
      end
  end.

(** ** Canvas transforms *)











(** The size of the canvas of the high-resolution export,
    [tempCanvas.width = width * scaleFactor], is an integer attribute, and
    the product sits on an integer whenever [scaleFactor] is
    [targetWidth / width], so that its rounding decides the size.  A
    division or multiplication of doubles returns the real result times
    [1 + e] for an error [e] of magnitude at most [unitRoundoff], and the
    real result itself, [e = 0], when that is a double. *)
Definition unitRoundoff : number := / 2 ^ 53.

Definition admissible (e : number) : Prop := Rabs e <= unitRoundoff.

Definition rounded (x e : number) : number := x * (1 + e).

(** [scaleFactor] with the error [e] of the division. *)
Definition exportScaleFactorRounded (width e : number) : number :=
  let targetWidth := 3000 in
  Rmax 2 (rounded (targetWidth / width) e).

(** [tempCanvas.width] with the errors [e1] of the division and [e2] of
    the multiplication. *)
Definition hiResCanvasWidth (width e1 e2 : number) : number :=
  let scaleFactor := exportScaleFactorRounded width e1 in
  IZR (JS.truncate (rounded (width * scaleFactor) e2)).


(** ** Layout of the exported image *)

Definition footerFontSize (width : number) : number := Rmax 12 (width / 70).

Definition footerPaddingBottom (width : number) : number :=
  footerFontSize width * 0.8.

(** The widest of the measured lines. *)
Definition maxLineWidth (lineWidths : list number) : number :=
  fold_left (fun maxWidth w => if JS.lt maxWidth w then w else maxWidth)
    lineWidths 0.

Record Box : Type := mkBox {
  boxX : number; boxY : number; boxWidth : number; boxHeight : number
}.

(** The panel of the annotated export, from the measured widths of its
    lines. *)
Definition statsBox (width height : number) (lineWidths : list number) : Box :=
  let lineHeight := 18 in
  let padding := 12 in
  let maxWidth := maxLineWidth lineWidths in
  let boxWidth := maxWidth + padding * 2 in
  let boxHeight := INR (List.length lineWidths) * lineHeight + padding * 2 in
  let margin := 20 in
  let footerSpace := footerFontSize width + footerPaddingBottom width + 10 in
  {| boxX := margin;
     boxY := height - boxHeight - margin - footerSpace;
     boxWidth := boxWidth;
     boxHeight := boxHeight |}.

(** Where line [i] of the panel is drawn, with [textBaseline = 'top']. *)
Definition statsLineX (box : Box) : number := boxX box + 12.
Definition statsLineY (box : Box) (i : nat) : number :=
  boxY box + 12 + INR i * 18.

(** The footer is drawn with [textBaseline = 'bottom'] at this height. *)
Definition footerBaseline (width height : number) : number :=
  height - footerPaddingBottom width.

(** The badge behind the footer in the later revision, from the measured
    width of the footer text. *)
Definition footerBox (width height fTextWidth : number) : Box :=
  let fPadding := footerFontSize width * 0.5 in
  let fBoxWidth := fTextWidth + fPadding * 2 in
  let fBoxHeight := footerFontSize width + fPadding * 1.5 in
  {| boxX := width / 2 - fBoxWidth / 2;
     boxY := height - footerPaddingBottom width - footerFontSize width
             - fPadding * 0.75;
     boxWidth := fBoxWidth;
     boxHeight := fBoxHeight |}.

(** ** The gear overlay *)

(** The state [animate] draws the gears from: the closed form at the
    current angle for circles, the rebuilt geometry otherwise. *)
Definition overlayState (config : SpiroConfig) (refs : Refs) : StepState :=
  if isCircular config then
    calculateExactStep (angleRef refs) (outerRadius config)
      (innerRadius config) (penOffset config)
  else
    let g := getGeometry (angleRef refs) (rotorParamRef refs)
               (outerRadius config) (innerRadius config) (penOffset config)
               (statorAspect config) (rotorAspect config) in
    {| px := g_px g; py := g_py g; cx := g_cx g; cy := g_cy g;
       newU := rotorParamRef refs; phi := g_phi g;
       contactX := g_contactX g; contactY := g_contactY g |}.

(** The state the annotated export draws the gears from: the state at
    [t = 0]. *)
Definition exportInitialState (config : SpiroConfig) : StepState :=
  overlayState config initialRefs.

(** * Properties *)

(** ** Arithmetic of the runtime helpers *)

Lemma lt_true (a b : number) : a < b -> JS.lt a b = true.
Proof. intro H. unfold JS.lt. destruct (Rlt_dec a b); [reflexivity | contradiction]. Qed.

Lemma lt_false (a b : number) : b <= a -> JS.lt a b = false.
Proof. intro H. unfold JS.lt. destruct (Rlt_dec a b); [lra | reflexivity]. Qed.

Lemma or_nonzero (a b : number) : a <> 0 -> JS.or a b = a.
Proof. intro H. unfold JS.or. destruct (Req_dec_T a 0); [contradiction | reflexivity]. Qed.

Lemma or_zero (a b : number) : a = 0 -> JS.or a b = b.
Proof. intro H. unfold JS.or. destruct (Req_dec_T a 0); [reflexivity | contradiction]. Qed.

Lemma isCircular_true (config : SpiroConfig) :
  Rabs (statorAspect config - 1) < 0.005 ->
  Rabs (rotorAspect config - 1) < 0.005 ->
  isCircular config = true.
Proof.
  intros Hs Hr. unfold isCircular.
  replace 1.0 with 1 by lra.
  rewrite (lt_true _ _ Hs), (lt_true _ _ Hr). reflexivity.
Qed.

Lemma isCircular_false (config : SpiroConfig) :
  0.005 <= Rabs (statorAspect config - 1) \/
  0.005 <= Rabs (rotorAspect config - 1) ->
  isCircular config = false.
Proof.
  intros H. unfold isCircular.
  replace 1.0 with 1 by lra.
  destruct H as [H | H]; rewrite (lt_false _ _ H).
  - reflexivity.
  - apply andb_false_r.
Qed.

(** ** Exact mode *)

Lemma subStep_angle (config : SpiroConfig) (refs : Refs) :
  angleRef (subStep config refs) = angleRef refs + dt.
Proof. unfold subStep. destruct (isCircular config); reflexivity. Qed.

Lemma subStep_points (config : SpiroConfig) (refs : Refs) :
  pointsRef (subStep config refs) =
  pointsRef refs ++ [{| Point.x := px (stepState config refs);
                        Point.y := py (stepState config refs) |}].
Proof. unfold subStep. destruct (isCircular config); reflexivity. Qed.

Lemma stepState_exact (config : SpiroConfig) (refs : Refs) :
  isCircular config = true ->
  stepState config refs =
  calculateExactStep (angleRef refs + dt) (outerRadius config)
    (innerRadius config) (penOffset config).
Proof. intro H. unfold stepState. rewrite H. reflexivity. Qed.

Lemma stepState_numeric (config : SpiroConfig) (refs : Refs) :
  isCircular config = false ->
  stepState config refs =
  calculatePhysicsStep (angleRef refs) dt (rotorParamRef refs)
    (outerRadius config) (innerRadius config) (penOffset config)
    (statorAspect config) (rotorAspect config).
Proof. intro H. unfold stepState. rewrite H. reflexivity. Qed.

(** C1.  When both aspects are within 0.005 of 1, a sub-step advances the
    stator angle by [dt] and appends the pen position of the closed-form
    hypotrochoid at the advanced angle [t]: rotor center
    [((R-r) cos t, (R-r) sin t)], rotor rotation [phi = t (1 - R/r)], pen
    [center + d (cos phi, sin phi)], contact point [(R cos t, R sin t)]. *)
Theorem exact_substep_closed_form (config : SpiroConfig) (refs : Refs) :
  Rabs (statorAspect config - 1) < 0.005 ->
  Rabs (rotorAspect config - 1) < 0.005 ->
  let R := outerRadius config in
  let r := innerRadius config in
  let d := penOffset config in
  let t := angleRef refs + dt in
  let state := stepState config refs in
  isCircular config = true /\
  angleRef (subStep config refs) = t /\
  pointsRef (subStep config refs) =
    pointsRef refs ++ [{| Point.x := px state; Point.y := py state |}] /\
  (cx state, cy state) = ((R - r) * cos t, (R - r) * sin t) /\
  phi state = t * (1 - R / r) /\
  (px state, py state) =
    (cx state + d * cos (phi state), cy state + d * sin (phi state)) /\
  (contactX state, contactY state) = (R * cos t, R * sin t) /\
  (cx state, cy state) = Spec.center R r t /\
  phi state = Spec.rotation R r t /\
  (px state, py state) = Spec.pen R r d t /\
  (contactX state, contactY state) = Spec.contact R t.
Proof.
  intros Hs Hr R r d t state.
  pose proof (isCircular_true config Hs Hr) as Hc.
  split; [exact Hc |].
  split; [apply subStep_angle |].
  split; [apply subStep_points |].
  subst state. rewrite (stepState_exact config refs Hc).
  repeat split.
Qed.

Lemma Rabs_zero_small : Rabs (1 - 1) < 0.005.
Proof. replace (1 - 1) with 0 by lra. rewrite Rabs_R0. lra. Qed.

Lemma exact_substep_closed_form_witness :
  angleRef (subStep defaultConfig initialRefs) = 0 + dt /\
  phi (stepState defaultConfig initialRefs) = (0 + dt) * (1 - 150 / 52).
Proof.
  pose proof (exact_substep_closed_form defaultConfig initialRefs
                Rabs_zero_small Rabs_zero_small) as H.
  cbv zeta in H.
  destruct H as (_ & Ha & _ & _ & Hp & _).
  split; [exact Ha | exact Hp].
Defined.

(** ** Numeric mode *)

Lemma getEllipseMetric_speed (angle radius aspect : number) :
  getEllipseMetric angle radius aspect = Spec.speed radius aspect angle.
Proof.
  unfold getEllipseMetric, Spec.speed. f_equal. ring.
Qed.

Lemma getEllipseMetric_nonneg (angle radius aspect : number) :
  0 <= getEllipseMetric angle radius aspect.
Proof. unfold getEllipseMetric. apply sqrt_pos. Qed.

Lemma getEllipseMetric_pos (angle radius aspect : number) :
  0 < radius -> 0 < aspect -> 0 < getEllipseMetric angle radius aspect.
Proof.
  intros Hr Ha. unfold getEllipseMetric. apply sqrt_lt_R0.
  pose proof (sin2_cos2 angle) as H. unfold Rsqr in H.
  assert (Hra : 0 < radius * aspect) by (apply Rmult_lt_0_compat; assumption).
  assert (Hs : 0 <= (radius * sin angle) * (radius * sin angle))
    by (apply Rle_0_sqr).
  assert (Hcn : 0 <= (radius * aspect * cos angle) * (radius * aspect * cos angle))
    by (apply Rle_0_sqr).
  replace (- radius * sin angle * (- radius * sin angle))
    with ((radius * sin angle) * (radius * sin angle)) by ring.
  destruct (Req_dec (cos angle) 0) as [Hc | Hc].
  - assert (H1 : sin angle * sin angle = 1) by (rewrite Hc in H; lra).
    replace ((radius * sin angle) * (radius * sin angle))
      with (radius * radius * (sin angle * sin angle)) by ring.
    rewrite H1.
    assert (0 < radius * radius) by (apply Rmult_lt_0_compat; assumption).
    lra.
  - assert (Hne : radius * aspect * cos angle <> 0).
    { apply Rmult_integral_contrapositive_currified; [lra | exact Hc]. }
    pose proof (Rsqr_pos_lt _ Hne) as Hpos. unfold Rsqr in Hpos.
    lra.
Qed.

Lemma rotorDenominator_nonzero (u r rAspect : number) :
  rotorDenominator u r rAspect <> 0.
Proof.
  unfold rotorDenominator, JS.or.
  destruct (Req_dec_T (getEllipseMetric u r rAspect) 0); [lra | assumption].
Qed.

Lemma rotorDenominator_pos (u r rAspect : number) :
  0 < rotorDenominator u r rAspect.
Proof.
  pose proof (getEllipseMetric_nonneg u r rAspect) as H.
  unfold rotorDenominator, JS.or.
  destruct (Req_dec_T (getEllipseMetric u r rAspect) 0); lra.
Qed.

Lemma getDerivative_pos (t u R sAspect r rAspect : number) :
  0 < R -> 0 < sAspect -> 0 < getDerivative t u R sAspect r rAspect.
Proof.
  intros HR Hs. unfold getDerivative.
  apply Rdiv_lt_0_compat.
  - apply getEllipseMetric_pos; assumption.
  - apply rotorDenominator_pos.
Qed.

Lemma getDerivative_spec (t u R sAspect r rAspect : number) :
  0 < r -> 0 < rAspect ->
  getDerivative t u R sAspect r rAspect = Spec.derivative R sAspect r rAspect t u.
Proof.
  intros Hr Ha. unfold getDerivative, Spec.derivative, rotorDenominator.
  pose proof (getEllipseMetric_pos u r rAspect Hr Ha) as Hp.
  rewrite or_nonzero by lra.
  rewrite !getEllipseMetric_speed. reflexivity.
Qed.

Lemma newU_rk4 (t h currentU R r d sAspect rAspect : number) :
  0 < r -> 0 < rAspect ->
  newU (calculatePhysicsStep t h currentU R r d sAspect rAspect) =
  Spec.rk4 (Spec.derivative R sAspect r rAspect) t currentU h.
Proof.
  intros Hr Ha. unfold calculatePhysicsStep, Spec.rk4. cbn [newU].
  unfold rk4_k4, rk4_k3, rk4_k2, rk4_k1.
  rewrite !getDerivative_spec by assumption.
  replace (h * Spec.derivative R sAspect r rAspect t currentU / 2)
    with ((h * Spec.derivative R sAspect r rAspect t currentU) / 2) by reflexivity.
  reflexivity.
Qed.

(** C2.  When an aspect is at least 0.005 away from 1, a sub-step of a
    configuration with positive rotor radius and aspect evaluates
    [du/dt = statorSpeed t / rotorSpeed u] at the four Runge-Kutta stage
    points, advances [u] by [(dt/6)(k1 + 2 k2 + 2 k3 + k4)], advances [t] by
    [dt], and rebuilds the geometry at [(t + dt, newU)]: rotation
    [phi = alpha - beta + pi], rotor center = stator contact point minus
    the rotor's center-to-contact vector rotated by [phi], pen = center +
    [d (cos phi, sin phi)]. *)
Theorem numeric_substep_rk4 (config : SpiroConfig) (refs : Refs) :
  0 < innerRadius config -> 0 < rotorAspect config ->
  0.005 <= Rabs (statorAspect config - 1) \/
  0.005 <= Rabs (rotorAspect config - 1) ->
  let R := outerRadius config in
  let r := innerRadius config in
  let d := penOffset config in
  let sAspect := statorAspect config in
  let rAspect := rotorAspect config in
  let t := angleRef refs in
  let u := rotorParamRef refs in
  let f := fun t u => Spec.speed R sAspect t / Spec.speed r rAspect u in
  let k1 := f t u in
  let k2 := f (t + dt / 2) (u + dt * k1 / 2) in
  let k3 := f (t + dt / 2) (u + dt * k2 / 2) in
  let k4 := f (t + dt) (u + dt * k3) in
  let state := stepState config refs in
  let refs' := subStep config refs in
  isCircular config = false /\
  newU state = u + (dt / 6) * (k1 + 2 * k2 + 2 * k3 + k4) /\
  newU state = Spec.rk4 (Spec.derivative R sAspect r rAspect) t u dt /\
  angleRef refs' = t + dt /\
  rotorParamRef refs' = newU state /\
  rotorRotationRef refs' = phi state /\
  pointsRef refs' =
    pointsRef refs ++ [{| Point.x := px state; Point.y := py state |}] /\
  phi state =
    Spec.alpha R sAspect (t + dt) - Spec.beta r rAspect (newU state) + PI /\
  (contactX state, contactY state) = Spec.statorContact R sAspect (t + dt) /\
  (cx state, cy state) =
    (contactX state
       - fst (Spec.rotate (phi state) (Spec.rotorContact r rAspect (newU state))),
     contactY state
       - snd (Spec.rotate (phi state) (Spec.rotorContact r rAspect (newU state)))) /\
  (px state, py state) =
    (cx state + d * cos (phi state), cy state + d * sin (phi state)).
Proof.
  intros Hr Ha Hn R r d sAspect rAspect t u f k1 k2 k3 k4 state refs'.
  pose proof (isCircular_false config Hn) as Hc.
  assert (Hst : state = calculatePhysicsStep t dt u R r d sAspect rAspect)
    by (apply stepState_numeric; exact Hc).
  assert (Hu : newU state = Spec.rk4 (Spec.derivative R sAspect r rAspect) t u dt)
    by (rewrite Hst; apply newU_rk4; assumption).
  split; [exact Hc |].
  split; [rewrite Hu; reflexivity |].
  split; [exact Hu |].
  split; [apply subStep_angle |].
  assert (Hsub : refs' =
            {| pointsRef := pointsRef refs ++
                 [{| Point.x := px state; Point.y := py state |}];
               angleRef := angleRef refs + dt;
               rotorParamRef := newU state;
               rotorRotationRef := phi state |})
    by (subst refs' state; unfold subStep; rewrite Hc; reflexivity).
  rewrite Hsub. cbn [rotorParamRef rotorRotationRef pointsRef].
  do 3 (split; [reflexivity |]).
  rewrite Hst. repeat split.
Qed.

Lemma ellipticConfig_numeric :
  0.005 <= Rabs (statorAspect ellipticConfig - 1) \/
  0.005 <= Rabs (rotorAspect ellipticConfig - 1).
Proof.
  left. cbn [statorAspect ellipticConfig].
  unfold Rabs. destruct (Rcase_abs (0.6 - 1)); lra.
Qed.

Lemma ellipticConfig_rotor :
  0 < innerRadius ellipticConfig /\ 0 < rotorAspect ellipticConfig.
Proof. cbn [innerRadius rotorAspect ellipticConfig]. split; lra. Qed.

Lemma numeric_substep_rk4_witness :
  angleRef (subStep ellipticConfig initialRefs) = 0 + dt /\
  rotorParamRef (subStep ellipticConfig initialRefs) =
    newU (stepState ellipticConfig initialRefs).
Proof.
  pose proof (numeric_substep_rk4 ellipticConfig initialRefs
                (proj1 ellipticConfig_rotor) (proj2 ellipticConfig_rotor)
                ellipticConfig_numeric) as H.
  cbv zeta in H.
  destruct H as (_ & _ & _ & Ha & Hu & _).
  split; [exact Ha | exact Hu].
Defined.

(** C7.  The derivative of numeric mode is defined for every [t] and [u]:
    its denominator is never zero, a rotor speed of exactly zero being
    replaced by 0.0001, so the quotient is always a finite number. *)
Theorem getDerivative_total (t u R sAspect r rAspect : number) :
  rotorDenominator u r rAspect <> 0 /\
  (getEllipseMetric u r rAspect = 0 ->
   rotorDenominator u r rAspect = 0.0001 /\
   getDerivative t u R sAspect r rAspect = getEllipseMetric t R sAspect / 0.0001) /\
  (getEllipseMetric u r rAspect <> 0 ->
   rotorDenominator u r rAspect = getEllipseMetric u r rAspect) /\
  JS.quotient (getEllipseMetric t R sAspect) (rotorDenominator u r rAspect) =
    Some (getDerivative t u R sAspect r rAspect) /\
  getDerivative t u R sAspect r rAspect * rotorDenominator u r rAspect =
    getEllipseMetric t R sAspect.
Proof.
  pose proof (rotorDenominator_nonzero u r rAspect) as Hd.
  split; [exact Hd |].
  split.
  { intro H0. unfold getDerivative, rotorDenominator.
    rewrite (or_zero _ _ H0). split; reflexivity. }
  split.
  { intro Hn. unfold rotorDenominator. apply or_nonzero; exact Hn. }
  split.
  - unfold JS.quotient.
    destruct (Req_dec_T (rotorDenominator u r rAspect) 0); [contradiction |].
    reflexivity.
  - unfold getDerivative. field. exact Hd.
Qed.

Lemma getEllipseMetric_zero_radius : getEllipseMetric 0 0 1 = 0.
Proof.
  unfold getEllipseMetric.
  replace (- 0 * sin 0 * (- 0 * sin 0) + 0 * 1 * cos 0 * (0 * 1 * cos 0))
    with 0 by ring.
  apply sqrt_0.
Qed.

Lemma getDerivative_total_witness :
  rotorDenominator 0 0 1 = 0.0001 /\
  getDerivative 0 0 150 1 0 1 = getEllipseMetric 0 150 1 / 0.0001.
Proof.
  exact (proj1 (proj2 (getDerivative_total 0 0 150 1 0 1))
           getEllipseMetric_zero_radius).
Defined.

(** C9.  In numeric mode, with positive radii and aspects, the four stage
    derivatives of a sub-step are strictly positive and the sub-step
    strictly increases the rotor parameter. *)
Theorem rk4_substep_increases_u (config : SpiroConfig) (refs : Refs) :
  isCircular config = false ->
  0 < outerRadius config -> 0 < innerRadius config ->
  0 < statorAspect config -> 0 < rotorAspect config ->
  let R := outerRadius config in
  let r := innerRadius config in
  let sAspect := statorAspect config in
  let rAspect := rotorAspect config in
  let t := angleRef refs in
  let currentU := rotorParamRef refs in
  0 < rk4_k1 t dt currentU R r sAspect rAspect /\
  0 < rk4_k2 t dt currentU R r sAspect rAspect /\
  0 < rk4_k3 t dt currentU R r sAspect rAspect /\
  0 < rk4_k4 t dt currentU R r sAspect rAspect /\
  currentU < newU (stepState config refs) /\
  rotorParamRef refs < rotorParamRef (subStep config refs).
Proof.
  intros Hc HR Hr Hs Ha R r sAspect rAspect t currentU.
  assert (H1 : 0 < rk4_k1 t dt currentU R r sAspect rAspect)
    by (apply getDerivative_pos; assumption).
  assert (H2 : 0 < rk4_k2 t dt currentU R r sAspect rAspect)
    by (apply getDerivative_pos; assumption).
  assert (H3 : 0 < rk4_k3 t dt currentU R r sAspect rAspect)
    by (apply getDerivative_pos; assumption).
  assert (H4 : 0 < rk4_k4 t dt currentU R r sAspect rAspect)
    by (apply getDerivative_pos; assumption).
  assert (Hu : currentU < newU (stepState config refs)).
  { rewrite (stepState_numeric config refs Hc).
    unfold calculatePhysicsStep. cbn [newU].
    fold R r sAspect rAspect t currentU.
    assert (0 < dt / 6) by (unfold dt; lra).
    assert (0 < dt / 6 * (rk4_k1 t dt currentU R r sAspect rAspect
                          + 2 * rk4_k2 t dt currentU R r sAspect rAspect
                          + 2 * rk4_k3 t dt currentU R r sAspect rAspect
                          + rk4_k4 t dt currentU R r sAspect rAspect))
      by (apply Rmult_lt_0_compat; lra).
    lra. }
  repeat (split; [assumption |]).
  unfold subStep. rewrite Hc. cbn [rotorParamRef]. exact Hu.
Qed.

Lemma ellipticConfig_positive :
  0 < outerRadius ellipticConfig /\ 0 < innerRadius ellipticConfig /\
  0 < statorAspect ellipticConfig /\ 0 < rotorAspect ellipticConfig.
Proof.
  cbn [outerRadius innerRadius statorAspect rotorAspect ellipticConfig].
  repeat split; lra.
Qed.

Lemma rk4_substep_increases_u_witness :
  rotorParamRef initialRefs < rotorParamRef (subStep ellipticConfig initialRefs).
Proof.
  pose proof ellipticConfig_positive as (HR & Hr & Hs & Ha).
  pose proof (rk4_substep_increases_u ellipticConfig initialRefs
                (isCircular_false _ ellipticConfig_numeric) HR Hr Hs Ha) as H.
  cbv zeta in H.
  exact (proj2 (proj2 (proj2 (proj2 (proj2 H))))).
Defined.

(** ** Runs of sub-steps *)

Lemma repeat_subStep_angle (config : SpiroConfig) (n : nat) (refs : Refs) :
  angleRef (JS.repeat n (subStep config) refs) = angleRef refs + INR n * dt.
Proof.
  revert refs. induction n as [| n IH]; intro refs.
  - cbn [JS.repeat INR]. lra.
  - cbn [JS.repeat]. rewrite IH, subStep_angle, S_INR. lra.
Qed.

Lemma repeat_subStep_length (config : SpiroConfig) (n : nat) (refs : Refs) :
  List.length (pointsRef (JS.repeat n (subStep config) refs)) =
  (List.length (pointsRef refs) + n)%nat.
Proof.
  revert refs. induction n as [| n IH]; intro refs.
  - cbn [JS.repeat]. lia.
  - cbn [JS.repeat]. rewrite IH, subStep_points, length_app. cbn [List.length]. lia.
Qed.

Lemma subStep_exact_rotorParam (config : SpiroConfig) (refs : Refs) :
  isCircular config = true ->
  rotorParamRef (subStep config refs) = rotorParamRef refs.
Proof. intro Hc. unfold subStep. rewrite Hc. reflexivity. Qed.

Lemma subStep_exact_rotation (config : SpiroConfig) (refs : Refs) :
  isCircular config = true ->
  rotorRotationRef (subStep config refs) = rotorRotationRef refs.
Proof. intro Hc. unfold subStep. rewrite Hc. reflexivity. Qed.

Lemma repeat_exact_rotorParam (config : SpiroConfig) (n : nat) (refs : Refs) :
  isCircular config = true ->
  rotorParamRef (JS.repeat n (subStep config) refs) = rotorParamRef refs.
Proof.
  intro Hc. revert refs. induction n as [| n IH]; intro refs.
  - reflexivity.
  - cbn [JS.repeat]. rewrite IH. apply subStep_exact_rotorParam; exact Hc.
Qed.

Lemma simulate_exact_rotorParam (config : SpiroConfig) (isPlaying : bool)
    (refs : Refs) :
  isCircular config = true ->
  rotorParamRef (simulate config isPlaying refs) = rotorParamRef refs.
Proof.
  intro Hc. unfold simulate. destruct isPlaying; [| reflexivity].
  rewrite Hc. cbn [rotorParamRef]. apply repeat_exact_rotorParam; exact Hc.
Qed.

Lemma repeat_exact_points (config : SpiroConfig) (n : nat) (refs : Refs) :
  isCircular config = true ->
  pointsRef (JS.repeat n (subStep config) refs) =
  pointsRef refs ++ map (exactPoint config (angleRef refs)) (seq 0 n).
Proof.
  intro Hc. revert refs. induction n as [| n IH]; intro refs.
  - cbn [JS.repeat seq map]. rewrite app_nil_r. reflexivity.
  - cbn [JS.repeat]. rewrite IH, subStep_points, subStep_angle.
    rewrite (stepState_exact config refs Hc).
    rewrite <- app_assoc. f_equal.
    cbn [seq map app]. f_equal.
    + unfold exactPoint. cbn [INR]. rewrite Rmult_1_l. reflexivity.
    + rewrite <- seq_shift, map_map. apply map_ext. intro i.
      unfold exactPoint. rewrite (S_INR (S i)).
      replace (angleRef refs + dt + INR (S i) * dt)
        with (angleRef refs + (INR (S i) + 1) * dt) by ring.
      reflexivity.
Qed.

(** C10.  In exact mode neither a sub-step nor a whole tick writes the
    rotor parameter: a sub-step changes only the stator angle and the
    trace, a tick moreover the rotor rotation.  So after any number [n] of
    exact sub-steps, a sub-step under a non-circular configuration
    integrates from the unchanged [u], at a stator angle advanced by
    [n dt]. *)
Theorem exact_mode_keeps_rotorParam (config : SpiroConfig) (refs : Refs) :
  isCircular config = true ->
  rotorParamRef (subStep config refs) = rotorParamRef refs /\
  rotorRotationRef (subStep config refs) = rotorRotationRef refs /\
  (forall n, rotorParamRef (JS.repeat n (subStep config) refs) =
             rotorParamRef refs) /\
  (forall isPlaying, rotorParamRef (simulate config isPlaying refs) =
                     rotorParamRef refs) /\
  rotorRotationRef (simulate config true refs) =
    angleRef (simulate config true refs) *
    (1 - outerRadius config / innerRadius config) /\
  (forall n, rotorParamRef (JS.repeat n (subStep config) (clear true refs)) = 0) /\
  (forall (config' : SpiroConfig) (n : nat),
      isCircular config' = false ->
      stepState config' (JS.repeat n (subStep config) refs) =
      calculatePhysicsStep (angleRef refs + INR n * dt) dt (rotorParamRef refs)
        (outerRadius config') (innerRadius config') (penOffset config')
        (statorAspect config') (rotorAspect config')).
Proof.
  intro Hc.
  split; [apply subStep_exact_rotorParam; exact Hc |].
  split; [apply subStep_exact_rotation; exact Hc |].
  split; [intro n; apply repeat_exact_rotorParam; exact Hc |].
  split; [intro p; apply simulate_exact_rotorParam; exact Hc |].
  split; [unfold simulate; rewrite Hc; reflexivity |].
  split; [intro n; rewrite repeat_exact_rotorParam by exact Hc; reflexivity |].
  intros config' n Hn.
  rewrite (stepState_numeric _ _ Hn).
  rewrite repeat_subStep_angle, repeat_exact_rotorParam by exact Hc.
  reflexivity.
Qed.

Lemma exact_mode_keeps_rotorParam_witness :
  rotorParamRef (JS.repeat 1000 (subStep defaultConfig) initialRefs) = 0 /\
  stepState ellipticConfig (JS.repeat 1000 (subStep defaultConfig) initialRefs) =
  calculatePhysicsStep (0 + INR 1000 * dt) dt 0 150 52 70 0.6 1.
Proof.
  pose proof (exact_mode_keeps_rotorParam defaultConfig initialRefs
                (isCircular_true defaultConfig Rabs_zero_small Rabs_zero_small))
    as (_ & _ & Hu & _ & _ & _ & Hresume).
  split.
  - exact (Hu 1000%nat).
  - exact (Hresume ellipticConfig 1000%nat
             (isCircular_false _ ellipticConfig_numeric)).
Defined.

(** C3.  With both aspects equal to 1, the trace of [N] sub-steps from the
    cleared state is the same whatever the refs held before the clear: it
    is the list of the [N] closed-form pen positions at [dt, 2 dt, ...,
    N dt], a function of the configuration and [N] alone. *)
Theorem exact_run_deterministic (config : SpiroConfig) (N : nat)
    (refs1 refs2 : Refs) :
  statorAspect config = 1 -> rotorAspect config = 1 ->
  pointsRef (JS.repeat N (subStep config) (clear true refs1)) =
  pointsRef (JS.repeat N (subStep config) (clear true refs2)) /\
  pointsRef (JS.repeat N (subStep config) (clear true refs1)) =
  Spec.exactTrace (outerRadius config) (innerRadius config)
    (penOffset config) N.
Proof.
  intros Hs Hr.
  assert (Hc : isCircular config = true).
  { apply isCircular_true; [rewrite Hs | rewrite Hr]; exact Rabs_zero_small. }
  split; [reflexivity |].
  rewrite (repeat_exact_points config N _ Hc).
  cbn [clear pointsRef angleRef app].
  unfold Spec.exactTrace. apply map_ext. intro i.
  unfold exactPoint. rewrite Rplus_0_l. reflexivity.
Qed.

Lemma exact_run_deterministic_witness :
  pointsRef (JS.repeat 1000 (subStep defaultConfig)
               (clear true (subStep ellipticConfig initialRefs))) =
  pointsRef (JS.repeat 1000 (subStep defaultConfig) (clear true initialRefs)).
Proof.
  exact (proj1 (exact_run_deterministic defaultConfig 1000
                  (subStep ellipticConfig initialRefs) initialRefs
                  eq_refl eq_refl)).
Defined.

(** ** Clear *)

(** An empty trace goes with a zero state in every state the renderer
    reaches: each sub-step appends a point, and a tick without sub-steps
    only recomputes the rotation of the angle it found. *)
Lemma empty_trace_zero_state (refs : Refs) :
  reachable refs ->
  pointsRef refs = [] ->
  angleRef refs = 0 /\ rotorParamRef refs = 0 /\ rotorRotationRef refs = 0.
Proof.
  intro Hreach. induction Hreach as [| config isPlaying refs Hreach IH
                                      | shouldClear refs Hreach IH].
  - intros _. repeat split.
  - unfold simulate. destruct isPlaying; [| exact IH].
    assert (Hn : pointsRef (JS.repeat (steps config) (subStep config) refs) = [] ->
                 steps config = 0%nat /\ pointsRef refs = []).
    { intro He. pose proof (repeat_subStep_length config (steps config) refs) as Hl.
      rewrite He in Hl. cbn [List.length] in Hl.
      split; [lia |]. apply length_zero_iff_nil. lia. }
    destruct (isCircular config) eqn:Hc.
    + cbn [pointsRef angleRef rotorParamRef rotorRotationRef].
      intro He. destruct (Hn He) as [H0 Hp]. rewrite H0. cbn [JS.repeat].
      destruct (IH Hp) as (Ha & Hu & _).
      repeat split; try assumption.
      unfold calculateExactStep. cbn [phi]. rewrite Ha. ring.
    + intro He. destruct (Hn He) as [H0 Hp]. rewrite H0. cbn [JS.repeat].
      exact (IH Hp).
  - destruct shouldClear; [| exact IH].
    intros _. repeat split.
Qed.

(** The stator angle counts the points of the trace: no reachable state
    pairs a cleared trace with a stale angle, or a zero angle with a stale
    trace. *)
Lemma angle_counts_points (refs : Refs) :
  reachable refs ->
  angleRef refs = INR (List.length (pointsRef refs)) * dt.
Proof.
  intro Hreach. induction Hreach as [| config isPlaying refs Hreach IH
                                      | shouldClear refs Hreach IH].
  - cbn. ring.
  - assert (Hrun : angleRef (JS.repeat (steps config) (subStep config) refs) =
                   INR (List.length
                          (pointsRef (JS.repeat (steps config) (subStep config) refs)))
                   * dt).
    { rewrite repeat_subStep_angle, repeat_subStep_length, plus_INR, IH. ring. }
    unfold simulate. destruct isPlaying; [| exact IH].
    destruct (isCircular config); [| exact Hrun].
    cbn [angleRef pointsRef]. exact Hrun.
  - destruct shouldClear; [| exact IH]. cbn. ring.
Qed.

(** C5.  The clear effect empties the trace and resets the state to
    [(t, u, phi) = (0, 0, 0)] in one step of the renderer, so that in every
    reachable state the trace is empty exactly when the stator angle is
    zero; it is idempotent, and on a reachable state whose trace is empty
    it changes nothing. *)
Theorem clear_resets_and_is_idempotent (refs : Refs) :
  (pointsRef (clear true refs) = [] /\
   angleRef (clear true refs) = 0 /\
   rotorParamRef (clear true refs) = 0 /\
   rotorRotationRef (clear true refs) = 0) /\
  clear true (clear true refs) = clear true refs /\
  (reachable refs -> pointsRef refs = [] -> clear true refs = refs) /\
  (reachable refs -> (pointsRef refs = [] <-> angleRef refs = 0)) /\
  reachable (clear true initialRefs).
Proof.
  split; [repeat split |].
  split; [reflexivity |].
  split.
  { intros Hreach He.
    destruct (empty_trace_zero_state refs Hreach He) as (Ha & Hu & Hp).
    destruct refs as [pts a u p]. cbn in *. subst. reflexivity. }
  split.
  { intro Hreach. pose proof (angle_counts_points refs Hreach) as Hang.
    split.
    - intro He. rewrite Hang, He. cbn. ring.
    - intro H0. rewrite H0 in Hang.
      destruct (pointsRef refs) as [| p pts]; [reflexivity | exfalso].
      assert (Hpos : 0 < INR (List.length (p :: pts)))
        by (apply lt_0_INR; cbn; lia).
      assert (0 < INR (List.length (p :: pts)) * dt)
        by (apply Rmult_lt_0_compat; [exact Hpos | unfold dt; lra]).
      lra. }
  apply reach_clear, reach_initial.
Qed.

Lemma clear_resets_and_is_idempotent_witness :
  clear true (simulate defaultConfig false initialRefs) =
  simulate defaultConfig false initialRefs.
Proof.
  apply (proj1 (proj2 (proj2 (clear_resets_and_is_idempotent
                                (simulate defaultConfig false initialRefs))))).
  - apply reach_animate, reach_initial.
  - reflexivity.
Defined.

(** ** View transform *)

Lemma clamp_bounds (v : number) : kMin <= Rmax 0.1 (Rmin 20 v) <= kMax.
Proof.
  unfold kMin, kMax. split.
  - apply Rmax_l.
  - apply Rmax_lub; [lra | apply Rmin_l].
Qed.

Lemma clamp_nonzero (v : number) : Rmax 0.1 (Rmin 20 v) <> 0.
Proof. pose proof (clamp_bounds v) as H. unfold kMin in H. lra. Qed.

Lemma anchor_kept (size offset k newK screen : number) :
  k <> 0 -> newK <> 0 ->
  toWorld size (screen - size / 2 - (screen - (size / 2 + offset)) / k * newK)
    newK screen =
  toWorld size offset k screen.
Proof. intros Hk Hn. unfold toWorld. field. split; assumption. Qed.

(** A move of one of two pointers that are down: what the pinch branch
    of [handlePointerMove] does. *)
Lemma two_pointer_move (container : option Rect) (e : PointerEvent)
    (a b : Z) (pa pb : Point.t) (dist : option number) (tr : Transform.t) :
  a <> b -> pointerId e = a \/ pointerId e = b ->
  handlePointerMove container e
    {| pointers := [(a, pa); (b, pb)]; prevPinchDist := dist |} tr =
  ({| pointers :=
        if Z.eqb (pointerId e) a
        then [(a, {| Point.x := clientX e; Point.y := clientY e |}); (b, pb)]
        else [(a, pa); (b, {| Point.x := clientX e; Point.y := clientY e |})];
      prevPinchDist := Some (pinchDist (otherPointer a pa pb e) e) |},
   match dist with
   | None => tr
   | Some prevDist =>
       if JS.lt 0.005
            (Rabs (pinchDist (otherPointer a pa pb e) e / prevDist - 1)) then
         pinchUpdater container
           ((clientX e + Point.x (otherPointer a pa pb e)) / 2)
           ((clientY e + Point.y (otherPointer a pa pb e)) / 2)
           (pinchDist (otherPointer a pa pb e) e / prevDist) tr
       else tr
   end).
Proof.
  intros Hab Hid.
  assert (Hab' : Z.eqb a b = false) by (apply Z.eqb_neq; exact Hab).
  assert (Hba : Z.eqb b a = false) by (apply Z.eqb_neq; congruence).
  unfold handlePointerMove, PointerMap.get, otherPointer.
  cbn [pointers find fst snd].
  destruct Hid as [Hid | Hid]; rewrite Hid.
  - rewrite Z.eqb_refl.
    cbn [option_map snd List.length negb].
    rewrite Hba. cbn [negb snd prevPinchDist Point.x Point.y].
    unfold PointerMap.set. rewrite Z.eqb_refl. reflexivity.
  - rewrite Hab', Hba, Z.eqb_refl.
    cbn [option_map snd List.length negb prevPinchDist Point.x Point.y].
    unfold PointerMap.set. rewrite Hab', Z.eqb_refl. reflexivity.
Qed.

(** C4.  For a transform with [k > 0], any anchor and any scale factor [s],
    the wheel zoom and the pinch zoom set [k' = clamp (k s) kMin kMax] and
    move the offset so that the world coordinate under the anchor is the
    same before and after, clamped or not.  [handleWheel] applies the
    wheel zoom at the mouse position with [s = exp (- deltaY / 1000)].
    With two pointers down and a recorded distance, a move of either
    pointer makes [handlePointerMove] apply the pinch zoom at the midpoint
    of the pointers with [s] the ratio of the new to the recorded
    distance, provided [s] differs from 1 by more than 0.005; a smaller
    change leaves the view as it is.  The recorded distance is not zero
    (a quotient by zero is not a real number).  Without a mounted
    container there is no view to anchor in: [handleWheel] does nothing,
    and the pinch only sets the clamped scale. *)
Theorem zoom_preserves_anchor (rect : Rect) (anchorX anchorY s : number)
    (prev : Transform.t) :
  0 < Transform.k prev ->
  let W := width rect in
  let H := height rect in
  let wheel := wheelUpdater rect anchorX anchorY s prev in
  let pinch := pinchUpdater (Some rect) (anchorX + left rect)
                 (anchorY + top rect) s prev in
  (Transform.k wheel = Spec.clamp (Transform.k prev * s) kMin kMax /\
   toWorld W (Transform.x wheel) (Transform.k wheel) anchorX =
     toWorld W (Transform.x prev) (Transform.k prev) anchorX /\
   toWorld H (Transform.y wheel) (Transform.k wheel) anchorY =
     toWorld H (Transform.y prev) (Transform.k prev) anchorY) /\
  (Transform.k pinch = Spec.clamp (Transform.k prev * s) kMin kMax /\
   toWorld W (Transform.x pinch) (Transform.k pinch) anchorX =
     toWorld W (Transform.x prev) (Transform.k prev) anchorX /\
   toWorld H (Transform.y pinch) (Transform.k pinch) anchorY =
     toWorld H (Transform.y prev) (Transform.k prev) anchorY) /\
  (forall e : WheelEvent,
      w_clientX e - left rect = anchorX ->
      w_clientY e - top rect = anchorY ->
      exp (- deltaY e * 0.001) = s ->
      handleWheel (Some rect) e prev = wheel /\
      handleWheel None e prev = prev) /\
  (forall (e : PointerEvent) (a b : Z) (pa pb : Point.t) (d0 : number),
      a <> b -> pointerId e = a \/ pointerId e = b -> d0 <> 0 ->
      let other := otherPointer a pa pb e in
      let g := {| pointers := [(a, pa); (b, pb)]; prevPinchDist := Some d0 |} in
      (clientX e + Point.x other) / 2 - left rect = anchorX ->
      (clientY e + Point.y other) / 2 - top rect = anchorY ->
      pinchDist other e / d0 = s ->
      (0.005 < Rabs (s - 1) ->
       snd (handlePointerMove (Some rect) e g prev) = pinch /\
       snd (handlePointerMove None e g prev) =
         {| Transform.x := Transform.x prev; Transform.y := Transform.y prev;
            Transform.k := Spec.clamp (Transform.k prev * s) kMin kMax |}) /\
      (Rabs (s - 1) <= 0.005 ->
       snd (handlePointerMove (Some rect) e g prev) = prev /\
       snd (handlePointerMove None e g prev) = prev)).
Proof.
  intros Hk W H wheel pinch.
  assert (Hk0 : Transform.k prev <> 0) by lra.
  pose proof (clamp_nonzero (Transform.k prev * s)) as Hn.
  split; [| split; [| split]].
  - subst wheel. unfold wheelUpdater.
    cbn [Transform.x Transform.y Transform.k].
    split; [reflexivity |].
    split; apply anchor_kept; assumption.
  - subst pinch. unfold pinchUpdater.
    cbn [Transform.x Transform.y Transform.k].
    replace (anchorX + left rect - left rect) with anchorX by ring.
    replace (anchorY + top rect - top rect) with anchorY by ring.
    split; [reflexivity |].
    split; apply anchor_kept; assumption.
  - intros e Hx Hy Hs. split; [| reflexivity]. unfold handleWheel.
    rewrite Hx, Hy, Hs. reflexivity.
  - intros e a b pa pb d0 Hab Hid Hd0 other g Hx Hy Hs.
    assert (Hmx : (clientX e + Point.x other) / 2 = anchorX + left rect) by lra.
    assert (Hmy : (clientY e + Point.y other) / 2 = anchorY + top rect) by lra.
    subst g.
    rewrite !(two_pointer_move _ e a b pa pb (Some d0) prev Hab Hid).
    fold other. rewrite Hs, Hmx, Hmy. cbn [snd].
    split.
    + intro Hbig. rewrite lt_true by exact Hbig. split; reflexivity.
    + intro Hsmall. rewrite lt_false by exact Hsmall. split; reflexivity.
Qed.

Lemma zoom_preserves_anchor_witness :
  let rect := {| left := 0; top := 0; width := 800; height := 600 |} in
  let prev := {| Transform.x := 0; Transform.y := 0; Transform.k := 10 |} in
  let g := {| pointers := [(1%Z, {| Point.x := 0; Point.y := 0 |});
                           (2%Z, {| Point.x := 200; Point.y := 150 |})];
              prevPinchDist := Some 250 |} in
  let e := {| pointerId := 2; clientX := 400; clientY := 300 |} in
  let next := snd (handlePointerMove (Some rect) e g prev) in
  Transform.k next = Spec.clamp (10 * 2) kMin kMax /\
  toWorld 800 (Transform.x next) (Transform.k next) 200 = toWorld 800 0 10 200.
Proof.
  intros rect prev g e next.
  assert (Hk : 0 < Transform.k prev) by (cbn [Transform.k prev]; lra).
  pose proof (zoom_preserves_anchor rect 200 150 2 prev Hk) as H.
  cbv zeta in H. destruct H as (_ & (Hc & Hx & _) & _ & Hmove).
  assert (Hab : (1 <> 2)%Z) by discriminate.
  assert (Hd0 : 250 <> 0) by lra.
  assert (Hdist : pinchDist {| Point.x := 0; Point.y := 0 |} e = 500).
  { unfold pinchDist, JS.hypot. cbn [Point.x Point.y e clientX clientY].
    replace ((0 - 400) * (0 - 400) + (0 - 300) * (0 - 300)) with (500 * 500)
      by lra.
    apply sqrt_square. lra. }
  pose proof (Hmove e 1%Z 2%Z {| Point.x := 0; Point.y := 0 |}
                {| Point.x := 200; Point.y := 150 |} 250 Hab
                (or_intror eq_refl) Hd0) as Hm.
  change (otherPointer 1 {| Point.x := 0; Point.y := 0 |}
            {| Point.x := 200; Point.y := 150 |} e)
    with {| Point.x := 0; Point.y := 0 |} in Hm.
  rewrite Hdist in Hm.
  assert (Hbig : 0.005 < Rabs (2 - 1)).
  { unfold Rabs. destruct (Rcase_abs _); lra. }
  destruct Hm as [Hzoom _].
  - cbn [Point.x clientX e left rect]. lra.
  - cbn [Point.y clientY e top rect]. lra.
  - lra.
  - destruct (Hzoom Hbig) as [Heq _].
    subst next. fold g in Heq. fold rect in Heq. rewrite Heq.
    split; [exact Hc | exact Hx].
Defined.

(** ** Bounds of the scale *)

Lemma calculateOptimalScale_bounds (cfg : SpiroConfig) (w h : number) :
  kMin <= calculateOptimalScale cfg w h <= kMax.
Proof.
  unfold calculateOptimalScale, kMin, kMax. split.
  - apply Rmax_l.
  - apply Rmax_lub; [lra |].
    eapply Rle_trans; [apply Rmin_l | lra].
Qed.

Lemma handleWheel_bounds (container : option Rect) (e : WheelEvent)
    (tr : Transform.t) :
  inBounds tr -> inBounds (handleWheel container e tr).
Proof.
  intro H. unfold handleWheel. destruct container as [rect |]; [| exact H].
  unfold inBounds, wheelUpdater. cbn [Transform.k]. apply clamp_bounds.
Qed.

Lemma pinchUpdater_bounds (container : option Rect) (midX midY s : number)
    (tr : Transform.t) :
  inBounds (pinchUpdater container midX midY s tr).
Proof.
  unfold inBounds, pinchUpdater.
  destruct container; cbn [Transform.k]; apply clamp_bounds.
Qed.

Lemma handlePointerMove_bounds (container : option Rect) (e : PointerEvent)
    (g : Gesture) (tr : Transform.t) :
  inBounds tr -> inBounds (snd (handlePointerMove container e g tr)).
Proof.
  intro H. unfold handlePointerMove.
  destruct (PointerMap.get (pointerId e) (pointers g)); [| exact H].
  destruct (List.length (pointers g)) as [| [| [| n]]]; try exact H.
  destruct (find _ (pointers g)); [| exact H].
  cbn [snd]. destruct (prevPinchDist g); [| exact H].
  destruct (JS.lt _ _); [apply pinchUpdater_bounds | exact H].
Qed.

Lemma handleZoomIn_bounds (tr : Transform.t) :
  inBounds tr -> inBounds (handleZoomIn tr).
Proof.
  unfold inBounds, handleZoomIn, kMin, kMax. cbn [Transform.k]. intros [Hl Hu].
  split.
  - apply Rmin_glb; lra.
  - apply Rmin_l.
Qed.

Lemma handleZoomOut_bounds (tr : Transform.t) :
  inBounds tr -> inBounds (handleZoomOut tr).
Proof.
  unfold inBounds, handleZoomOut, kMin, kMax. cbn [Transform.k]. intros [Hl Hu].
  split.
  - apply Rmax_l.
  - apply Rmax_lub; lra.
Qed.

(** Every operation other than the two zoom buttons keeps the scale
    within the bounds, whatever the buttons are. *)
Lemma viewStep_bounds buttons (op : ViewOp) (s : Gesture * Transform.t) :
  (forall tr, inBounds tr -> inBounds (fst buttons tr)) ->
  (forall tr, inBounds tr -> inBounds (snd buttons tr)) ->
  inBounds (snd s) -> inBounds (snd (viewStep buttons op s)).
Proof.
  intros Hin Hout H. destruct s as [g tr]. cbn [snd] in H.
  destruct op; cbn [viewStep snd].
  - apply handleWheel_bounds; exact H.
  - exact H.
  - exact H.
  - apply handlePointerMove_bounds; exact H.
  - apply Hin; exact H.
  - apply Hout; exact H.
  - apply calculateOptimalScale_bounds.
Qed.

(** With the bounded button handlers of the longer App revision the scale
    stays within the bounds along every sequence of operations. *)
Lemma viewRun_bounds_revised (ops : list ViewOp) (s : Gesture * Transform.t) :
  inBounds (snd s) ->
  inBounds (snd (viewRun (handleZoomIn, handleZoomOut) ops s)).
Proof.
  revert s. induction ops as [| op ops IH]; intros s H.
  - exact H.
  - cbn [viewRun fold_left]. apply IH.
    apply viewStep_bounds; cbn [fst snd]; auto using handleZoomIn_bounds, handleZoomOut_bounds.
Qed.

Lemma zoomIn_presses (n : nat) (g : Gesture) (tr : Transform.t) :
  Transform.k (snd (viewRun (zoomInButton, zoomOutButton)
                      (List.repeat OpZoomIn n) (g, tr))) =
  Transform.k tr * 1.2 ^ n.
Proof.
  revert tr. induction n as [| n IH]; intro tr.
  - cbn [List.repeat viewRun fold_left snd pow]. ring.
  - cbn [List.repeat viewRun fold_left viewStep fst].
    change (fold_left _ (List.repeat OpZoomIn n) (g, zoomInButton tr))
      with (viewRun (zoomInButton, zoomOutButton) (List.repeat OpZoomIn n)
              (g, zoomInButton tr)).
    rewrite IH. unfold zoomInButton. cbn [Transform.k pow]. ring.
Qed.

(** C8.  The Zoom In and Zoom Out buttons multiply and divide the scale by
    1.2 without clamping: from the initial transform [k = 1], seventeen
    presses of Zoom In end above [kMax] and thirteen presses of Zoom Out
    end below [kMin]; indeed presses of Zoom In exceed any bound. *)
Theorem zoom_buttons_leave_bounds :
  let start := ({| pointers := []; prevPinchDist := None |},
                {| Transform.x := 0; Transform.y := 0; Transform.k := 1 |}) in
  let buttons := (zoomInButton, zoomOutButton) in
  inBounds (snd start) /\
  kMax < Transform.k (snd (viewRun buttons (List.repeat OpZoomIn 17) start)) /\
  Transform.k (snd (viewRun buttons (List.repeat OpZoomOut 13) start)) < kMin /\
  (forall bound : number, exists n : nat,
      bound < Transform.k (snd (viewRun buttons (List.repeat OpZoomIn n) start))).
Proof.
  intros start buttons. unfold inBounds, kMin, kMax.
  split; [cbn [start snd Transform.k]; split; lra |].
  split.
  { cbn [viewRun List.repeat fold_left viewStep start buttons fst snd
         zoomInButton zoomOutButton Transform.k]. lra. }
  split.
  { cbn [viewRun List.repeat fold_left viewStep start buttons fst snd
         zoomInButton zoomOutButton Transform.k]. lra. }
  intro bound.
  assert (Hx : Rabs 1.2 > 1) by (rewrite Rabs_pos_eq; lra).
  destruct (Pow_x_infinity 1.2 Hx (bound + 1)) as [N HN].
  exists N. subst start buttons. rewrite zoomIn_presses. cbn [Transform.k].
  pose proof (HN N (Nat.le_refl N)) as H.
  rewrite Rabs_pos_eq in H; [lra |].
  apply pow_le. lra.
Qed.

(** ** The ratio search of the annotated export *)

Lemma round_bound (x : number) :
  IZR (JS.round x) - 1 / 2 <= x < IZR (JS.round x) + 1 / 2.
Proof.
  unfold JS.round. pose proof (Zfloor_bound (x + 1 / 2)) as H. lra.
Qed.

(** [Math.round] gives an integer nearest to its argument. *)
Lemma round_nearest (x : number) (n : Z) :
  Rabs (x - IZR (JS.round x)) <= Rabs (x - IZR n).
Proof.
  pose proof (round_bound x) as Hb.
  assert (Hm : Rabs (x - IZR (JS.round x)) <= 1 / 2).
  { apply Rabs_le. lra. }
  destruct (Z.lt_trichotomy n (JS.round x)) as [Hlt | [Heq | Hgt]].
  - assert (IZR n <= IZR (JS.round x) - 1).
    { rewrite <- minus_IZR. apply IZR_le. lia. }
    eapply Rle_trans; [exact Hm |].
    eapply Rle_trans; [| apply Rle_abs]. lra.
  - rewrite Heq. lra.
  - assert (IZR (JS.round x) + 1 <= IZR n).
    { rewrite <- plus_IZR. apply IZR_le. lia. }
    eapply Rle_trans; [exact Hm |].
    rewrite Rabs_minus_sym.
    eapply Rle_trans; [| apply Rle_abs]. lra.
Qed.

Lemma ratioError_scaled (val : number) (n d : Z) :
  (0 < d)%Z -> ratioError val n d = Rabs (val * IZR d - IZR n) / IZR d.
Proof.
  intro Hd. assert (Hp : 0 < IZR d) by (apply IZR_lt; exact Hd).
  unfold ratioError.
  replace (val - IZR n / IZR d) with ((val * IZR d - IZR n) * / IZR d)
    by (field; lra).
  rewrite Rabs_mult, (Rabs_pos_eq (/ IZR d)).
  - reflexivity.
  - left. apply Rinv_0_lt_compat. exact Hp.
Qed.

(** For each denominator the loop tries a best numerator. *)
Lemma round_best_numerator (val : number) (n d : Z) :
  (0 < d)%Z ->
  ratioError val (JS.round (val * IZR d)) d <= ratioError val n d.
Proof.
  intro Hd. assert (Hp : 0 < IZR d) by (apply IZR_lt; exact Hd).
  rewrite !ratioError_scaled by exact Hd.
  apply Rmult_le_compat_r.
  - left. apply Rinv_0_lt_compat. exact Hp.
  - apply round_nearest.
Qed.

Lemma searchBody_le (val : number) (st : Best) (d : Z) :
  minError (searchBody val st d) <= minError st /\
  minError (searchBody val st d) <=
    ratioError val (JS.round (val * IZR d)) d.
Proof.
  unfold searchBody, JS.lt. fold (ratioError val (JS.round (val * IZR d)) d).
  destruct (Rlt_dec _ _); cbn [minError]; lra.
Qed.

Lemma searchBody_consistent (val : number) (st : Best) (d : Z) :
  (1 <= d <= 1000)%Z -> consistent val st ->
  consistent val (searchBody val st d).
Proof.
  intros Hd Hst. unfold searchBody, JS.lt.
  destruct (Rlt_dec _ _); [| exact Hst].
  unfold consistent. cbn [bestN bestD minError]. repeat split; lia.
Qed.

Lemma searchFrom_cons (val : number) (d : Z) (ds : list Z) (st : Best) :
  searchFrom val (d :: ds) st = searchFrom val ds (searchBody val st d).
Proof. reflexivity. Qed.

Lemma searchFrom_le (val : number) (ds : list Z) (st : Best) :
  minError (searchFrom val ds st) <= minError st /\
  forall d, In d ds ->
    minError (searchFrom val ds st) <=
    ratioError val (JS.round (val * IZR d)) d.
Proof.
  revert st. induction ds as [| d0 ds IH]; intro st.
  - split; [cbn; lra | intros d []].
  - rewrite searchFrom_cons.
    destruct (IH (searchBody val st d0)) as [H1 H2].
    destruct (searchBody_le val st d0) as [H3 H4].
    split; [lra |].
    intros d [Hd | Hd].
    + subst d. lra.
    + apply H2; exact Hd.
Qed.

Lemma searchFrom_consistent (val : number) (ds : list Z) (st : Best) :
  (forall d, In d ds -> (1 <= d <= 1000)%Z) ->
  consistent val st -> consistent val (searchFrom val ds st).
Proof.
  revert st. induction ds as [| d0 ds IH]; intros st Hds Hst.
  - exact Hst.
  - rewrite searchFrom_cons.
    apply IH.
    + intros d Hd. apply Hds. right. exact Hd.
    + apply searchBody_consistent; [apply Hds; left; reflexivity | exact Hst].
Qed.

Lemma denominators_range (d : Z) :
  In d denominators <-> (1 <= d <= 1000)%Z.
Proof.
  unfold denominators. rewrite in_map_iff. split.
  - intros (i & Hi & Hin). apply in_seq in Hin. lia.
  - intro Hd. exists (Z.to_nat d). split; [lia |]. apply in_seq. lia.
Qed.

Lemma MAX_VALUE_large : 1 <= JS.MAX_VALUE.
Proof.
  unfold JS.MAX_VALUE.
  assert (H1 : 1 <= 2 ^ 52) by (apply pow_R1_Rle; lra).
  assert (H2 : 1 <= 2 ^ 1023) by (apply pow_R1_Rle; lra).
  generalize dependent (2 ^ 1023). generalize dependent (2 ^ 52).
  intros a Ha b Hb.
  assert (H3 : / a <= 1).
  { rewrite <- Rinv_1. apply Rinv_le_contravar; lra. }
  assert (H4 : 1 <= 2 - / a) by lra.
  replace 1 with (1 * 1) by ring.
  apply Rmult_le_compat; lra.
Qed.

(** The first iteration always records the fraction with denominator 1. *)
Lemma first_iteration (val : number) :
  consistent val
    (searchBody val {| bestN := 0; bestD := 1; minError := JS.MAX_VALUE |} 1).
Proof.
  unfold searchBody. cbn [minError].
  rewrite lt_true.
  - unfold consistent. cbn [bestN bestD minError]. repeat split; lia.
  - pose proof (round_bound (val * 1)) as Hb.
    pose proof MAX_VALUE_large as HM.
    replace (val - IZR (JS.round (val * 1)) / 1)
      with (val * 1 - IZR (JS.round (val * 1))) by (field).
    assert (Rabs (val * 1 - IZR (JS.round (val * 1))) <= 1 / 2)
      by (apply Rabs_le; lra).
    lra.
Qed.

Lemma denominators_head :
  denominators = 1%Z :: map Z.of_nat (seq 2 999).
Proof. reflexivity. Qed.

Lemma ratioSearch_consistent (val : number) : consistent val (ratioSearch val).
Proof.
  unfold ratioSearch. rewrite denominators_head, searchFrom_cons.
  apply searchFrom_consistent; [| apply first_iteration].
  intros d Hd. apply denominators_range. rewrite denominators_head.
  right. exact Hd.
Qed.

(** The fraction the search returns is at least as close to [val] as any
    fraction with a denominator from 1 to 1000. *)
Lemma ratioSearch_minimal (val : number) (n d : Z) :
  (1 <= d <= 1000)%Z ->
  ratioError val (bestN (ratioSearch val)) (bestD (ratioSearch val)) <=
  ratioError val n d.
Proof.
  intro Hd.
  destruct (ratioSearch_consistent val) as (_ & _ & He).
  rewrite <- He.
  eapply Rle_trans.
  - apply (proj2 (searchFrom_le val denominators _) d).
    apply denominators_range; exact Hd.
  - apply round_best_numerator. lia.
Qed.

Lemma hintPresent_values (config : SpiroConfig) :
  hintPresent config = true ->
  exists n d, numerator config = Some n /\ denominator config = Some d /\
              n <> 0 /\ d <> 0.
Proof.
  unfold hintPresent, JS.truthy. intro H.
  destruct (numerator config) as [n |]; [| discriminate].
  destruct (denominator config) as [d |];
    [| destruct (Req_dec_T n 0); discriminate].
  exists n, d.
  destruct (Req_dec_T n 0); [discriminate |].
  destruct (Req_dec_T d 0); [discriminate |].
  repeat split; assumption.
Qed.

Lemma ratioText_hint (config : SpiroConfig) (n d : number) :
  numerator config = Some n -> denominator config = Some d ->
  hintPresent config = true -> ratioText config = (n, d).
Proof.
  unfold hintPresent, ratioText. intros Hn Hd H.
  rewrite Hn, Hd in *. rewrite H. reflexivity.
Qed.

Lemma ratioText_search (config : SpiroConfig) :
  hintPresent config = false ->
  ratioText config =
  (IZR (bestN (ratioSearch (circumferenceRatio config))),
   IZR (bestD (ratioSearch (circumferenceRatio config)))).
Proof.
  unfold hintPresent, ratioText. intro H.
  destruct (numerator config) as [n |]; [| reflexivity].
  destruct (denominator config) as [d |]; [| reflexivity].
  rewrite H. reflexivity.
Qed.

(** A hint stored by the controls is present: [applyRatioValues] stores
    only positive values. *)
Lemma applyRatioValues_present (config config' : SpiroConfig) (num den : number) :
  applyRatioValues config num den = Some config' ->
  hintPresent config' = true /\ ratioText config' = (num, den).
Proof.
  unfold applyRatioValues. intro H.
  destruct (Rle_dec num 0); [discriminate |].
  destruct (Rle_dec den 0); [discriminate |].
  injection H as <-.
  assert (Hp : hintPresent
                 {| outerRadius := outerRadius config;
                    innerRadius := Rmax 10 (Rmin 400
                      (calculateEllipseCircumference (outerRadius config)
                         (statorAspect config) * (num / den) /
                       calculateEllipseCircumference 1 (rotorAspect config)));
                    penOffset := penOffset config;
                    penColor := penColor config;
                    speed := speed config;
                    opacity := opacity config;
                    lineWidth := lineWidth config;
                    showGears := showGears config;
                    statorAspect := statorAspect config;
                    rotorAspect := rotorAspect config;
                    numerator := Some num;
                    denominator := Some den |} = true).
  { unfold hintPresent, JS.truthy. cbn [numerator denominator].
    destruct (Req_dec_T num 0); [lra |].
    destruct (Req_dec_T den 0); [lra |]. reflexivity. }
  split; [exact Hp |].
  apply ratioText_hint; [reflexivity | reflexivity | exact Hp].
Qed.

Lemma circumference_formula (radius aspect : number) :
  aspect <> 1 ->
  calculateEllipseCircumference radius aspect =
  PI * (radius + radius * aspect) *
  (1 + 3 * ((radius - radius * aspect) ^ 2 / (radius + radius * aspect) ^ 2) /
       (10 + sqrt (4 - 3 * ((radius - radius * aspect) ^ 2 /
                            (radius + radius * aspect) ^ 2)))).
Proof.
  intro Ha. unfold calculateEllipseCircumference, JS.eq.
  destruct (Req_dec_T aspect 1); [contradiction | reflexivity].
Qed.

Lemma circumference_circle (radius : number) :
  calculateEllipseCircumference radius 1 = 2 * PI * radius.
Proof.
  unfold calculateEllipseCircumference, JS.eq.
  destruct (Req_dec_T 1 1); [reflexivity | contradiction].
Qed.

(** The shortcut for [aspect === 1] is the value Ramanujan's formula
    gives there, so the code computes the approximation throughout. *)
Lemma circumference_ramanujan (radius aspect : number) :
  radius <> 0 ->
  calculateEllipseCircumference radius aspect =
  Spec.circumference radius aspect.
Proof.
  intro Hr. unfold Spec.circumference, Spec.ramanujan.
  destruct (Req_dec aspect 1) as [-> | Hne].
  - rewrite circumference_circle.
    replace (radius - radius * 1) with 0 by ring.
    replace (0 ^ 2 / (radius + radius * 1) ^ 2) with 0
      by (unfold Rdiv; ring).
    replace (3 * 0 / (10 + sqrt (4 - 3 * 0))) with 0 by (unfold Rdiv; ring).
    ring.
  - rewrite circumference_formula by exact Hne. reflexivity.
Qed.

Lemma circular_ratio (config : SpiroConfig) :
  outerRadius config = 150 -> innerRadius config = 52 ->
  statorAspect config = 1 -> rotorAspect config = 1 ->
  circumferenceRatio config = 26 / 75.
Proof.
  intros HR Hr Hs Ha. unfold circumferenceRatio, calculateEllipseCircumference.
  rewrite HR, Hr, Hs, Ha. unfold JS.eq.
  destruct (Req_dec_T 1 1); [| contradiction].
  pose proof PI_RGT_0. field. lra.
Qed.

(** With the stator of aspect 0.6 the ratio of the circumferences is not
    the ratio of the radii, 0.3467. *)
Lemma elliptic_ratio (config : SpiroConfig) :
  outerRadius config = 150 -> innerRadius config = 52 ->
  statorAspect config = 0.6 -> rotorAspect config = 1 ->
  0.4266 < circumferenceRatio config < 0.4267.
Proof.
  intros HR Hr Hs Ha. unfold circumferenceRatio.
  rewrite HR, Hr, Hs, Ha.
  rewrite circumference_circle, circumference_formula by lra.
  replace 0.6 with (3 / 5) by lra.
  replace ((150 - 150 * (3 / 5)) ^ 2 / (150 + 150 * (3 / 5)) ^ 2) with (1 / 16)
    by (field; lra).
  assert (Hsq : sqrt (4 - 3 * (1 / 16)) * sqrt (4 - 3 * (1 / 16)) =
                4 - 3 * (1 / 16)) by (apply sqrt_sqrt; lra).
  pose proof (sqrt_pos (4 - 3 * (1 / 16))) as Hpos.
  set (s := sqrt (4 - 3 * (1 / 16))) in *.
  assert (Hs1 : 1.9 < s < 2) by (split; nra).
  pose proof PI_RGT_0 as Hpi.
  replace (2 * PI * 52 /
           (PI * (150 + 150 * (3 / 5)) * (1 + 3 * (1 / 16) / (10 + s))))
    with (104 * (10 + s) / (240 * (10 + s) + 45))
    by (field; repeat split; lra).
  assert (HD : 0 < 240 * (10 + s) + 45) by lra.
  split; apply Rmult_lt_reg_r with (r := 240 * (10 + s) + 45);
    try exact HD; unfold Rdiv; rewrite Rmult_assoc, Rinv_l by lra; lra.
Qed.

(** The search tries the denominator 1000, so the fraction it returns is
    within [1 / 2000] of [val]. *)
Lemma ratioSearch_within (val : number) :
  ratioError val (bestN (ratioSearch val)) (bestD (ratioSearch val)) <= / 2000.
Proof.
  eapply Rle_trans.
  - apply (ratioSearch_minimal val (JS.round (val * IZR 1000)) 1000). lia.
  - rewrite ratioError_scaled by lia.
    pose proof (round_bound (val * 1000)) as Hb.
    assert (Hm : Rabs (val * 1000 - IZR (JS.round (val * 1000))) <= 1 / 2)
      by (apply Rabs_le; lra).
    apply Rmult_le_reg_r with (r := 1000); [lra |].
    replace (Rabs (val * 1000 - IZR (JS.round (val * 1000))) / 1000 * 1000)
      with (Rabs (val * 1000 - IZR (JS.round (val * 1000)))) by (field; lra).
    lra.
Qed.

(** C6.  In the annotated export a stored hint, when present, is what is
    printed.  Otherwise the printed pair [(n, d)] has [d] in 1..1000 and
    minimises [|val - n/d|] over all denominators [d] in 1..1000 and all
    integers [n], hence lies within [1/2000] of [val], where [val] is the
    ratio of the inner to the outer circumference, each of them
    Ramanujan's approximation for the semi-axes [radius] and
    [radius * aspect].  For circular gears with [R = 150], [r = 52] the
    printed fraction is at least as good as (26, 75) and equal to it; with
    the same radii and a stator of aspect 0.6 the ratio is between 0.4266
    and 0.4267, not the ratio 0.3467 of the radii, and the printed
    fraction follows it. *)
Theorem ratio_display (config : SpiroConfig) :
  let val := circumferenceRatio config in
  (hintPresent config = true ->
   exists n d, numerator config = Some n /\ denominator config = Some d /\
               ratioText config = (n, d)) /\
  (hintPresent config = false ->
   exists bn bd : Z,
     ratioText config = (IZR bn, IZR bd) /\
     (1 <= bd <= 1000)%Z /\
     (forall n d : Z, (1 <= d <= 1000)%Z ->
        Rabs (val - IZR bn / IZR bd) <= Rabs (val - IZR n / IZR d)) /\
     Rabs (val - IZR bn / IZR bd) <= / 2000 /\
     (outerRadius config = 150 -> innerRadius config = 52 ->
      statorAspect config = 1 -> rotorAspect config = 1 ->
      Rabs (val - IZR bn / IZR bd) <= Rabs (val - 26 / 75) /\
      IZR bn / IZR bd = 26 / 75) /\
     (outerRadius config = 150 -> innerRadius config = 52 ->
      statorAspect config = 0.6 -> rotorAspect config = 1 ->
      0.426 < IZR bn / IZR bd < 0.4273)) /\
  (outerRadius config <> 0 -> innerRadius config <> 0 ->
   val = Spec.circumference (innerRadius config) (rotorAspect config) /
         Spec.circumference (outerRadius config) (statorAspect config)) /\
  (outerRadius config = 150 -> innerRadius config = 52 ->
   statorAspect config = 0.6 -> rotorAspect config = 1 ->
   0.4266 < val < 0.4267).
Proof.
  intro val. split; [| split; [| split]].
  - intro H. destruct (hintPresent_values config H) as (n & d & Hn & Hd & _).
    exists n, d. repeat split; try assumption.
    apply ratioText_hint; assumption.
  - intro H.
    exists (bestN (ratioSearch val)), (bestD (ratioSearch val)).
    split; [apply ratioText_search; exact H |].
    split; [apply (ratioSearch_consistent val) |].
    split; [intros n d Hd; apply (ratioSearch_minimal val n d Hd) |].
    pose proof (ratioSearch_within val) as Hw. unfold ratioError in Hw.
    split; [exact Hw |].
    set (q := IZR (bestN (ratioSearch val)) / IZR (bestD (ratioSearch val))) in *.
    split.
    + intros HR Hr Hs Ha.
      pose proof (ratioSearch_minimal val 26 75 ltac:(lia)) as Hm.
      unfold ratioError in Hm. fold q in Hm.
      assert (Hv : val = 26 / 75) by (apply circular_ratio; assumption).
      split; [exact Hm |].
      assert (Hz : Rabs (val - 26 / 75) = 0).
      { rewrite Hv. replace (26 / 75 - 26 / 75) with 0 by lra. apply Rabs_R0. }
      pose proof (Rabs_pos (val - q)) as Hp.
      destruct (Req_dec (val - q) 0) as [He | He].
      * lra.
      * apply Rabs_no_R0 in He. lra.
    + intros HR Hr Hs Ha.
      pose proof (elliptic_ratio config HR Hr Hs Ha) as Hv. fold val in Hv.
      generalize dependent q. intros q Hw.
      unfold Rabs in Hw. destruct (Rcase_abs (val - q)); split; lra.
  - intros HR Hr. subst val. unfold circumferenceRatio.
    rewrite !circumference_ramanujan by assumption. reflexivity.
  - apply elliptic_ratio.
Qed.

Lemma editedConfig_no_hint : hintPresent editedConfig = false.
Proof. reflexivity. Qed.

Lemma editedEllipticConfig_no_hint : hintPresent editedEllipticConfig = false.
Proof. reflexivity. Qed.

Lemma ratio_display_witness :
  (exists bn bd : Z,
     ratioText editedConfig = (IZR bn, IZR bd) /\
     IZR bn / IZR bd = 26 / 75) /\
  (exists bn bd : Z,
     ratioText editedEllipticConfig = (IZR bn, IZR bd) /\
     0.426 < IZR bn / IZR bd < 0.4273).
Proof.
  split.
  - destruct (proj1 (proj2 (ratio_display editedConfig)) editedConfig_no_hint)
      as (bn & bd & Ht & _ & _ & _ & Hc & _).
    exists bn, bd. split; [exact Ht |].
    exact (proj2 (Hc eq_refl eq_refl eq_refl eq_refl)).
  - destruct (proj1 (proj2 (ratio_display editedEllipticConfig))
                editedEllipticConfig_no_hint)
      as (bn & bd & Ht & _ & _ & _ & _ & He).
    exists bn, bd. split; [exact Ht |].
    exact (He eq_refl eq_refl eq_refl eq_refl).
Defined.

Lemma hypot_scale (x y : R) :
  x <> 0 -> sqrt (x * x + y * y) = Rabs x * sqrt (1 + (y / x)²).
Proof.
  intro Hx.
  replace (x * x + y * y) with (x² * (1 + (y / x)²)) by (unfold Rsqr; field; exact Hx).
  rewrite sqrt_mult_alt by apply Rle_0_sqr.
  rewrite sqrt_Rsqr_abs. reflexivity.
Qed.

Lemma sqrt_one_plus_sqr_pos (z : R) : 0 < sqrt (1 + z²).
Proof. apply sqrt_lt_R0. pose proof (Rle_0_sqr z). lra. Qed.

Lemma atan2_cos_sin (y x : R) :
  cos (JS.atan2 y x) * sqrt (x * x + y * y) = x /\
  sin (JS.atan2 y x) * sqrt (x * x + y * y) = y.
Proof.
  unfold JS.atan2.
  destruct (Rlt_dec 0 x) as [Hpos | Hnpos].
  - rewrite hypot_scale by lra. rewrite Rabs_pos_eq by lra.
    rewrite cos_atan, sin_atan.
    pose proof (sqrt_one_plus_sqr_pos (y / x)) as Hs.
    split; field; lra.
  - destruct (Rlt_dec x 0) as [Hneg | Hnneg].
    + rewrite hypot_scale by lra. rewrite Rabs_left by lra.
      pose proof (sqrt_one_plus_sqr_pos (y / x)) as Hs.
      destruct (Rle_dec 0 y).
      * rewrite neg_cos, neg_sin, cos_atan, sin_atan. split; field; lra.
      * replace (atan (y / x) - PI) with (- (- atan (y / x) + PI)) by ring.
        rewrite cos_neg, sin_neg, neg_cos, neg_sin, cos_neg, sin_neg.
        rewrite cos_atan, sin_atan. split; field; lra.
    + assert (Hx : x = 0) by lra. subst x.
      replace (0 * 0 + y * y) with (y * y) by ring.
      destruct (Rlt_dec 0 y).
      * rewrite cos_PI2, sin_PI2, sqrt_square by lra. split; ring.
      * destruct (Rlt_dec y 0).
        -- rewrite cos_neg, sin_neg, cos_PI2, sin_PI2.
           replace (y * y) with ((- y) * (- y)) by ring.
           rewrite sqrt_square by lra. split; ring.
        -- assert (Hy : y = 0) by lra. subst y.
           replace (0 * 0) with 0 by ring. rewrite sqrt_0. split; ring.
Qed.

(** ** Geometry of the rolling contact *)

Lemma getEllipseMetric_tangent (angle radius aspect : number) :
  getEllipseMetric angle radius aspect =
  sqrt ((- (radius * aspect * cos angle)) * (- (radius * aspect * cos angle))
        + (- radius * sin angle) * (- radius * sin angle)).
Proof. unfold getEllipseMetric. f_equal. ring. Qed.

Lemma getEllipseMetric_tangent' (angle radius aspect : number) :
  getEllipseMetric angle radius aspect =
  sqrt ((radius * aspect * cos angle) * (radius * aspect * cos angle)
        + (- radius * sin angle * -1) * (- radius * sin angle * -1)).
Proof. unfold getEllipseMetric. f_equal. ring. Qed.

(** Cosine and sine of the rotor rotation, scaled by the two speeds. *)
Lemma phi_cos_sin (t u R r d sAspect rAspect : number) :
  let S := getEllipseMetric t R sAspect in
  let T := getEllipseMetric u r rAspect in
  let stx := - R * sin t in
  let sty := R * sAspect * cos t in
  let rtx := - r * sin u in
  let rty := r * rAspect * cos u in
  let phi := g_phi (getGeometry t u R r d sAspect rAspect) in
  cos phi * (S * T) = sty * rty + stx * rtx /\
  sin phi * (S * T) = sty * rtx - stx * rty.
Proof.
  intros S T stx sty rtx rty phi.
  subst phi. unfold getGeometry. cbn [g_phi].
  fold stx sty rtx rty.
  destruct (atan2_cos_sin stx (- sty)) as [Hca Hsa].
  destruct (atan2_cos_sin (rtx * -1) rty) as [Hcb Hsb].
  assert (HS : sqrt (- sty * - sty + stx * stx) = S)
    by (subst S stx sty; symmetry; apply getEllipseMetric_tangent).
  assert (HT : sqrt (rty * rty + rtx * -1 * (rtx * -1)) = T)
    by (subst T rtx rty; symmetry; apply getEllipseMetric_tangent').
  rewrite HS in Hca, Hsa. rewrite HT in Hcb, Hsb.
  rewrite neg_cos, neg_sin, cos_minus, sin_minus.
  set (ca := cos (JS.atan2 stx (- sty))) in *.
  set (sa := sin (JS.atan2 stx (- sty))) in *.
  set (cb := cos (JS.atan2 (rtx * -1) rty)) in *.
  set (sb := sin (JS.atan2 (rtx * -1) rty)) in *.
  split.
  - replace (- (ca * cb + sa * sb) * (S * T))
      with (- ((ca * S) * (cb * T) + (sa * S) * (sb * T))) by ring.
    rewrite Hca, Hsa, Hcb, Hsb. ring.
  - replace (- (sa * cb - ca * sb) * (S * T))
      with (- ((sa * S) * (cb * T) - (ca * S) * (sb * T))) by ring.
    rewrite Hca, Hsa, Hcb, Hsb. ring.
Qed.

Lemma getEllipseMetric_sqr (angle radius aspect : number) :
  getEllipseMetric angle radius aspect * getEllipseMetric angle radius aspect =
  (- radius * sin angle) * (- radius * sin angle)
  + (radius * aspect * cos angle) * (radius * aspect * cos angle).
Proof.
  unfold getEllipseMetric. apply sqrt_sqrt.
  apply Rplus_le_le_0_compat; apply Rle_0_sqr.
Qed.

(** X1.  In the geometry rebuilt from [(t, u)] the pen is at distance [d]
    from the rotor center, and the contact point lies on the stator
    ellipse with semi-axes [R] and [R sAspect]. *)
Theorem getGeometry_pen_and_contact (t u R r d sAspect rAspect : number) :
  R <> 0 -> sAspect <> 0 ->
  let g := getGeometry t u R r d sAspect rAspect in
  (g_px g - g_cx g) ^ 2 + (g_py g - g_cy g) ^ 2 = d ^ 2 /\
  (g_contactX g / R) ^ 2 + (g_contactY g / (R * sAspect)) ^ 2 = 1.
Proof.
  intros HR Hs g. subst g. unfold getGeometry.
  cbn [g_px g_py g_cx g_cy g_contactX g_contactY].
  set (phi := JS.atan2 _ _ - JS.atan2 _ _ + PI).
  pose proof (sin2_cos2 phi) as Hp. pose proof (sin2_cos2 t) as Ht.
  unfold Rsqr in Hp, Ht.
  split.
  - replace ((R * cos t - (r * cos u * cos phi - r * rAspect * sin u * sin phi)
              + d * cos phi
              - (R * cos t - (r * cos u * cos phi - r * rAspect * sin u * sin phi))) ^ 2
             + (R * sAspect * sin t - (r * cos u * sin phi + r * rAspect * sin u * cos phi)
                + d * sin phi
                - (R * sAspect * sin t - (r * cos u * sin phi + r * rAspect * sin u * cos phi))) ^ 2)
      with (d ^ 2 * (sin phi * sin phi + cos phi * cos phi)) by ring.
    rewrite Hp. ring.
  - replace ((R * cos t / R) ^ 2 + (R * sAspect * sin t / (R * sAspect)) ^ 2)
      with (sin t * sin t + cos t * cos t) by (field; split; assumption).
    exact Ht.
Qed.

Lemma getGeometry_pen_and_contact_witness :
  let g := getGeometry 0 0 150 52 70 0.6 1 in
  (g_px g - g_cx g) ^ 2 + (g_py g - g_cy g) ^ 2 = 70 ^ 2.
Proof.
  assert (H1 : (150 : R) <> 0) by lra.
  assert (H2 : (0.6 : R) <> 0) by lra.
  exact (proj1 (getGeometry_pen_and_contact 0 0 150 52 70 0.6 1 H1 H2)).
Defined.

(** X2.  Rolling contact.  For positive radii and aspects the rotor point
    of parameter [u], turned by [phi] and carried to the rotor center, is
    the stator contact point, and there the velocity of the stator contact
    point in [t] is [du/dt] times the velocity of the rotor point in [u]
    turned by [phi]: the curves touch and roll without slipping. *)
Theorem getGeometry_rolls_without_slipping (t u R r d sAspect rAspect : number) :
  0 < R -> 0 < sAspect -> 0 < r -> 0 < rAspect ->
  let g := getGeometry t u R r d sAspect rAspect in
  let rotorPoint := Spec.rotate (g_phi g) (r * cos u, r * rAspect * sin u) in
  let rotorVelocity :=
    Spec.rotate (g_phi g) (- r * sin u, r * rAspect * cos u) in
  (g_cx g + fst rotorPoint, g_cy g + snd rotorPoint) =
    (g_contactX g, g_contactY g) /\
  - R * sin t = getDerivative t u R sAspect r rAspect * fst rotorVelocity /\
  R * sAspect * cos t = getDerivative t u R sAspect r rAspect * snd rotorVelocity.
Proof.
  intros HR Hs Hr Ha g rotorPoint rotorVelocity.
  split.
  { subst g rotorPoint. unfold getGeometry, Spec.rotate.
    cbn [g_cx g_cy g_phi g_contactX g_contactY fst snd]. f_equal; ring. }
  pose proof (phi_cos_sin t u R r d sAspect rAspect) as Hphi.
  cbv zeta in Hphi. fold g in Hphi. destruct Hphi as [Hc Hsn].
  pose proof (getEllipseMetric_pos t R sAspect HR Hs) as HS.
  pose proof (getEllipseMetric_pos u r rAspect Hr Ha) as HT.
  pose proof (getEllipseMetric_sqr u r rAspect) as HT2.
  unfold getDerivative, rotorDenominator. rewrite or_nonzero by lra.
  subst rotorVelocity. unfold Spec.rotate. cbn [fst snd].
  set (S := getEllipseMetric t R sAspect) in *.
  set (T := getEllipseMetric u r rAspect) in *.
  set (c := cos (g_phi g)) in *. set (s := sin (g_phi g)) in *.
  split.
  - apply Rmult_eq_reg_r with (r := T * T); [| nra].
    replace (S / T * (- r * sin u * c - r * rAspect * cos u * s) * (T * T))
      with (- r * sin u * (c * (S * T)) - r * rAspect * cos u * (s * (S * T)))
      by (field; lra).
    rewrite Hc, Hsn, HT2. ring.
  - apply Rmult_eq_reg_r with (r := T * T); [| nra].
    replace (S / T * (- r * sin u * s + r * rAspect * cos u * c) * (T * T))
      with (- r * sin u * (s * (S * T)) + r * rAspect * cos u * (c * (S * T)))
      by (field; lra).
    rewrite Hc, Hsn, HT2. ring.
Qed.

Lemma getGeometry_rolls_without_slipping_witness :
  let g := getGeometry 0 0 150 52 70 0.6 1 in
  (g_cx g + fst (Spec.rotate (g_phi g) (52 * cos 0, 52 * 1 * sin 0)),
   g_cy g + snd (Spec.rotate (g_phi g) (52 * cos 0, 52 * 1 * sin 0))) =
  (g_contactX g, g_contactY g).
Proof.
  assert (H1 : 0 < 150) by lra. assert (H2 : 0 < 0.6) by lra.
  assert (H3 : 0 < 52) by lra. assert (H4 : 0 < 1) by lra.
  exact (proj1 (getGeometry_rolls_without_slipping 0 0 150 52 70 0.6 1
                  H1 H2 H3 H4)).
Defined.

(** X3.  Exact mode describes a circle of radius [r] rolling inside a
    circle of radius [R]: the rotor center is at distance [|R - r|] from
    the origin, the contact point at distance [|R|], the contact point is
    the rotor center moved by [r (cos t, sin t)], and the pen is at
    distance [|d|] from the rotor center. *)
Theorem calculateExactStep_circles (t R r d : number) :
  let s := calculateExactStep t R r d in
  cx s ^ 2 + cy s ^ 2 = (R - r) ^ 2 /\
  contactX s ^ 2 + contactY s ^ 2 = R ^ 2 /\
  (contactX s, contactY s) = (cx s + r * cos t, cy s + r * sin t) /\
  (px s - cx s) ^ 2 + (py s - cy s) ^ 2 = d ^ 2.
Proof.
  intro s. subst s. unfold calculateExactStep.
  cbn [cx cy px py contactX contactY].
  pose proof (sin2_cos2 t) as Ht. unfold Rsqr in Ht.
  pose proof (sin2_cos2 (t * (1 - R / r))) as Hp. unfold Rsqr in Hp.
  set (p := t * (1 - R / r)) in *.
  split; [| split; [| split]].
  - replace (((R - r) * cos t) ^ 2 + ((R - r) * sin t) ^ 2)
      with ((R - r) ^ 2 * (sin t * sin t + cos t * cos t)) by ring.
    rewrite Ht. ring.
  - replace ((R * cos t) ^ 2 + (R * sin t) ^ 2)
      with (R ^ 2 * (sin t * sin t + cos t * cos t)) by ring.
    rewrite Ht. ring.
  - f_equal; ring.
  - replace (((R - r) * cos t + d * cos p - (R - r) * cos t) ^ 2
             + ((R - r) * sin t + d * sin p - (R - r) * sin t) ^ 2)
      with (d ^ 2 * (sin p * sin p + cos p * cos p)) by ring.
    rewrite Hp. ring.
Qed.

Lemma getEllipseMetric_circle (angle radius : number) :
  0 <= radius -> getEllipseMetric angle radius 1 = radius.
Proof.
  intro Hr. unfold getEllipseMetric.
  pose proof (sin2_cos2 angle) as H. unfold Rsqr in H.
  replace (- radius * sin angle * (- radius * sin angle)
           + radius * 1 * cos angle * (radius * 1 * cos angle))
    with (radius * radius * (sin angle * sin angle + cos angle * cos angle))
    by ring.
  rewrite H, Rmult_1_r. apply sqrt_square. exact Hr.
Qed.

Lemma getDerivative_circle (t u R r : number) :
  0 <= R -> 0 < r -> getDerivative t u R 1 r 1 = R / r.
Proof.
  intros HR Hr. unfold getDerivative, rotorDenominator.
  rewrite !getEllipseMetric_circle by lra.
  rewrite or_nonzero by lra. reflexivity.
Qed.

Lemma getGeometry_circle_phi (t u R r d : number) :
  0 < R -> 0 < r ->
  cos (g_phi (getGeometry t u R r d 1 1)) = cos (t - u) /\
  sin (g_phi (getGeometry t u R r d 1 1)) = sin (t - u).
Proof.
  intros HR Hr.
  pose proof (phi_cos_sin t u R r d 1 1) as H. cbv zeta in H.
  rewrite !getEllipseMetric_circle in H by lra.
  destruct H as [Hc Hs]. rewrite cos_minus, sin_minus.
  split.
  - apply Rmult_eq_reg_r with (r := R * r); [| nra].
    rewrite Hc. ring.
  - apply Rmult_eq_reg_r with (r := R * r); [| nra].
    rewrite Hs. ring.
Qed.

(** X4.  For true circles the numeric machinery reproduces exact mode:
    the derivative is the constant [R / r], so one Runge-Kutta step from
    [u = R t / r] lands on [u = R (t + h) / r], and the geometry rebuilt
    there has the rotor center, pen and contact point of the closed form
    at [t + h], with a rotation of the same cosine and sine. *)
Theorem numeric_step_matches_exact_on_circles (t h R r d : number) :
  0 < R -> 0 < r ->
  let n := calculatePhysicsStep t h (R * t / r) R r d 1 1 in
  let e := calculateExactStep (t + h) R r d in
  newU n = R * (t + h) / r /\
  (cx n, cy n) = (cx e, cy e) /\
  (px n, py n) = (px e, py e) /\
  (contactX n, contactY n) = (contactX e, contactY e) /\
  cos (phi n) = cos (phi e) /\ sin (phi n) = sin (phi e).
Proof.
  intros HR Hr n e.
  assert (Hu : newU n = R * (t + h) / r).
  { subst n. unfold calculatePhysicsStep. cbn [newU].
    unfold rk4_k4, rk4_k3, rk4_k2, rk4_k1.
    rewrite !getDerivative_circle by lra. field. lra. }
  split; [exact Hu |].
  assert (Hn : n = let g := getGeometry (t + h) (newU n) R r d 1 1 in
                   {| px := g_px g; py := g_py g; cx := g_cx g; cy := g_cy g;
                      newU := newU n; phi := g_phi g;
                      contactX := g_contactX g; contactY := g_contactY g |})
    by reflexivity.
  rewrite Hu in Hn. cbv zeta in Hn.
  destruct (getGeometry_circle_phi (t + h) (R * (t + h) / r) R r d HR Hr)
    as [Hc Hs].
  replace (t + h - R * (t + h) / r) with ((t + h) * (1 - R / r)) in Hc, Hs
    by (field; lra).
  rewrite Hn. subst e. unfold calculateExactStep.
  cbn [px py cx cy phi contactX contactY].
  set (T := t + h) in *. set (U := R * T / r) in *.
  set (p := T * (1 - R / r)) in *.
  assert (Hcx : g_cx (getGeometry T U R r d 1 1) = (R - r) * cos T).
  { unfold getGeometry at 1. cbn [g_cx].
    change (JS.atan2 (- R * sin T) (- (R * 1 * cos T))
            - JS.atan2 (- r * sin U * -1) (r * 1 * cos U) + PI)
      with (g_phi (getGeometry T U R r d 1 1)).
    rewrite Hc, Hs.
    replace (cos T) with (cos (U + p)) at 1 2
      by (f_equal; subst U p; field; lra).
    rewrite cos_plus. ring. }
  assert (Hcy : g_cy (getGeometry T U R r d 1 1) = (R - r) * sin T).
  { unfold getGeometry at 1. cbn [g_cy].
    change (JS.atan2 (- R * sin T) (- (R * 1 * cos T))
            - JS.atan2 (- r * sin U * -1) (r * 1 * cos U) + PI)
      with (g_phi (getGeometry T U R r d 1 1)).
    rewrite Hc, Hs.
    replace (sin T) with (sin (U + p)) at 1 2
      by (f_equal; subst U p; field; lra).
    rewrite sin_plus. ring. }
  assert (Hpx : g_px (getGeometry T U R r d 1 1) =
                g_cx (getGeometry T U R r d 1 1)
                + d * cos (g_phi (getGeometry T U R r d 1 1)))
    by reflexivity.
  assert (Hpy : g_py (getGeometry T U R r d 1 1) =
                g_cy (getGeometry T U R r d 1 1)
                + d * sin (g_phi (getGeometry T U R r d 1 1)))
    by reflexivity.
  split; [rewrite Hcx, Hcy; reflexivity |].
  split; [rewrite Hpx, Hpy, Hcx, Hcy, Hc, Hs; reflexivity |].
  split; [unfold getGeometry; cbn [g_contactX g_contactY]; f_equal; ring |].
  split; assumption.
Qed.

Lemma numeric_step_matches_exact_on_circles_witness :
  newU (calculatePhysicsStep 0 dt (150 * 0 / 52) 150 52 70 1 1) =
  150 * (0 + dt) / 52.
Proof.
  assert (H1 : 0 < 150) by lra. assert (H2 : 0 < 52) by lra.
  exact (proj1 (numeric_step_matches_exact_on_circles 0 dt 150 52 70 H1 H2)).
Defined.

(** ** Speed bounds *)

Lemma sqrt_between (lo hi v : number) :
  0 <= lo -> 0 <= hi -> lo * lo <= v <= hi * hi -> lo <= sqrt v <= hi.
Proof.
  intros Hlo Hhi [H1 H2]. split.
  - rewrite <- (sqrt_square lo Hlo). apply sqrt_le_1_alt. exact H1.
  - rewrite <- (sqrt_square hi Hhi). apply sqrt_le_1_alt. exact H2.
Qed.

Lemma getEllipseMetric_bounds (angle radius aspect : number) :
  0 <= radius -> 0 <= aspect ->
  radius * Rmin 1 aspect <= getEllipseMetric angle radius aspect
    <= radius * Rmax 1 aspect.
Proof.
  intros Hr Ha. unfold getEllipseMetric.
  pose proof (sin2_cos2 angle) as H. unfold Rsqr in H.
  set (s2 := sin angle * sin angle) in *.
  set (c2 := cos angle * cos angle) in *.
  assert (Hs : 0 <= s2) by (apply Rle_0_sqr).
  assert (Hc : 0 <= c2) by (apply Rle_0_sqr).
  assert (Hr2 : 0 <= radius * radius) by (apply Rle_0_sqr).
  replace (- radius * sin angle * (- radius * sin angle)
           + radius * aspect * cos angle * (radius * aspect * cos angle))
    with (radius * radius * (s2 + aspect * aspect * c2))
    by (subst s2 c2; ring).
  apply sqrt_between.
  - apply Rmult_le_pos; [exact Hr |]. apply Rmin_glb; lra.
  - apply Rmult_le_pos; [exact Hr |].
    eapply Rle_trans; [| apply Rmax_l]. lra.
  - unfold Rmin, Rmax. destruct (Rle_dec 1 aspect) as [H1 | H1].
    + assert (1 <= aspect * aspect) by nra.
      split.
      * replace (radius * 1 * (radius * 1)) with (radius * radius * 1) by ring.
        apply Rmult_le_compat_l; [exact Hr2 | nra].
      * replace (radius * aspect * (radius * aspect))
          with (radius * radius * (aspect * aspect)) by ring.
        apply Rmult_le_compat_l; [exact Hr2 | nra].
    + assert (aspect * aspect <= 1) by nra.
      split.
      * replace (radius * aspect * (radius * aspect))
          with (radius * radius * (aspect * aspect)) by ring.
        apply Rmult_le_compat_l; [exact Hr2 | nra].
      * replace (radius * 1 * (radius * 1)) with (radius * radius * 1) by ring.
        apply Rmult_le_compat_l; [exact Hr2 | nra].
Qed.

Lemma getDerivative_bounds (t u R sAspect r rAspect : number) :
  0 < R -> 0 < sAspect -> 0 < r -> 0 < rAspect ->
  R * Rmin 1 sAspect / (r * Rmax 1 rAspect)
    <= getDerivative t u R sAspect r rAspect
    <= R * Rmax 1 sAspect / (r * Rmin 1 rAspect).
Proof.
  intros HR Hs Hr Ha.
  pose proof (getEllipseMetric_bounds t R sAspect) as [HS1 HS2]; try lra.
  pose proof (getEllipseMetric_bounds u r rAspect) as [HT1 HT2]; try lra.
  pose proof (getEllipseMetric_pos u r rAspect Hr Ha) as HT.
  assert (Hmin : 0 < Rmin 1 rAspect) by (apply Rmin_glb_lt; lra).
  assert (Hmax : 0 < Rmax 1 rAspect)
    by (eapply Rlt_le_trans; [| apply Rmax_l]; lra).
  assert (HminS : 0 < Rmin 1 sAspect) by (apply Rmin_glb_lt; lra).
  assert (Hlo : 0 < r * Rmin 1 rAspect) by (apply Rmult_lt_0_compat; lra).
  assert (Hhi : 0 < r * Rmax 1 rAspect) by (apply Rmult_lt_0_compat; lra).
  assert (HloS : 0 < R * Rmin 1 sAspect) by (apply Rmult_lt_0_compat; lra).
  unfold getDerivative, rotorDenominator. rewrite or_nonzero by lra.
  set (S := getEllipseMetric t R sAspect) in *.
  set (T := getEllipseMetric u r rAspect) in *.
  split.
  - apply Rle_trans with (S / (r * Rmax 1 rAspect)).
    + unfold Rdiv. apply Rmult_le_compat_r; [left; apply Rinv_0_lt_compat; lra | lra].
    + unfold Rdiv. apply Rmult_le_compat_l; [lra |].
      apply Rinv_le_contravar; lra.
  - apply Rle_trans with (S / (r * Rmin 1 rAspect)).
    + unfold Rdiv. apply Rmult_le_compat_l; [lra |].
      apply Rinv_le_contravar; lra.
    + unfold Rdiv. apply Rmult_le_compat_r; [left; apply Rinv_0_lt_compat; lra | lra].
Qed.

(** X5.  With positive radii and aspects the speed of an ellipse lies
    between [radius min(1, aspect)] and [radius max(1, aspect)], so the
    derivative lies between [lo = R min(1,sAspect) / (r max(1,rAspect))]
    and [hi = R max(1,sAspect) / (r min(1,rAspect))], and a Runge-Kutta
    step of positive size [h] advances [u] by at least [h lo] and at most
    [h hi]. *)
Theorem physics_step_advance_bounded (t h currentU R r d sAspect rAspect : number) :
  0 < R -> 0 < sAspect -> 0 < r -> 0 < rAspect -> 0 < h ->
  let lo := R * Rmin 1 sAspect / (r * Rmax 1 rAspect) in
  let hi := R * Rmax 1 sAspect / (r * Rmin 1 rAspect) in
  let step := calculatePhysicsStep t h currentU R r d sAspect rAspect in
  0 < lo /\
  (forall t' u', lo <= getDerivative t' u' R sAspect r rAspect <= hi) /\
  currentU + h * lo <= newU step <= currentU + h * hi.
Proof.
  intros HR Hs Hr Ha Hh lo hi step.
  assert (Hb : forall t' u', lo <= getDerivative t' u' R sAspect r rAspect <= hi)
    by (intros; apply getDerivative_bounds; assumption).
  split.
  { subst lo. apply Rdiv_lt_0_compat.
    - apply Rmult_lt_0_compat; [lra | apply Rmin_glb_lt; lra].
    - apply Rmult_lt_0_compat; [lra |].
      eapply Rlt_le_trans; [| apply Rmax_l]. lra. }
  split; [exact Hb |].
  subst step. unfold calculatePhysicsStep. cbn [newU].
  pose proof (Hb t currentU) as H1. fold (rk4_k1 t h currentU R r sAspect rAspect) in H1.
  assert (H2 : lo <= rk4_k2 t h currentU R r sAspect rAspect <= hi) by apply Hb.
  assert (H3 : lo <= rk4_k3 t h currentU R r sAspect rAspect <= hi) by apply Hb.
  assert (H4 : lo <= rk4_k4 t h currentU R r sAspect rAspect <= hi) by apply Hb.
  set (k1 := rk4_k1 t h currentU R r sAspect rAspect) in *.
  set (k2 := rk4_k2 t h currentU R r sAspect rAspect) in *.
  set (k3 := rk4_k3 t h currentU R r sAspect rAspect) in *.
  set (k4 := rk4_k4 t h currentU R r sAspect rAspect) in *.
  clearbody k1 k2 k3 k4 lo hi.
  split; nra.
Qed.

Lemma physics_step_advance_bounded_witness :
  0 + dt * (150 * Rmin 1 0.6 / (52 * Rmax 1 1))
    <= newU (calculatePhysicsStep 0 dt 0 150 52 70 0.6 1).
Proof.
  assert (H1 : 0 < 150) by lra. assert (H2 : 0 < 0.6) by lra.
  assert (H3 : 0 < 52) by lra. assert (H4 : 0 < 1) by lra.
  assert (H5 : 0 < dt) by (unfold dt; lra).
  pose proof (physics_step_advance_bounded 0 dt 0 150 52 70 0.6 1
                H1 H2 H3 H4 H5) as H.
  cbv zeta in H. exact (proj1 (proj2 (proj2 H))).
Defined.

(** ** Ticks *)

Lemma repeat_subStep_prefix (config : SpiroConfig) (n : nat) (refs : Refs) :
  exists added,
    pointsRef (JS.repeat n (subStep config) refs) = pointsRef refs ++ added /\
    List.length added = n.
Proof.
  revert refs. induction n as [| n IH]; intro refs.
  - exists []. cbn [JS.repeat]. rewrite app_nil_r. split; reflexivity.
  - cbn [JS.repeat]. destruct (IH (subStep config refs)) as (added & Hp & Hl).
    rewrite subStep_points, <- app_assoc in Hp.
    eexists. split; [exact Hp |]. cbn [app List.length]. rewrite Hl. reflexivity.
Qed.

Lemma simulate_points_angle (config : SpiroConfig) (refs : Refs) :
  pointsRef (simulate config true refs) =
    pointsRef (JS.repeat (steps config) (subStep config) refs) /\
  angleRef (simulate config true refs) =
    angleRef (JS.repeat (steps config) (subStep config) refs).
Proof. unfold simulate. destruct (isCircular config); split; reflexivity. Qed.

(** X6.  A call of [animate] that finds both canvases, both contexts and
    a container of non-zero size, and is playing, appends exactly
    [ceil (speed * 5)] points behind the points already in the trace,
    which it leaves as they are, and advances the stator angle by [dt] per
    point: for a positive speed the number of points is the integer [n]
    with [n - 1 < 5 speed <= n], which for the speeds of the slider,
    between 0.1 and 20, is between 1 and 100, and exactly 100 at speed 20;
    for a speed that is not positive it is zero.  A call that misses a
    canvas, the container or a context, or finds a container of width or
    height zero, changes nothing, and neither does a call while paused. *)
Theorem tick_appends_steps (surface : Surface) (config : SpiroConfig)
    (refs : Refs) :
  let count := Z.to_nat (Zceil (speed config * 5)) in
  (forall width height,
     traceCanvas surface = true -> gearsCanvas surface = true ->
     containerSize surface = Some (width, height) ->
     traceCtx surface = true -> gearsCtx surface = true ->
     width <> 0 -> height <> 0 ->
     (exists added,
        pointsRef (animate surface config true refs) = pointsRef refs ++ added /\
        List.length added = count) /\
     angleRef (animate surface config true refs) =
       angleRef refs + INR count * dt) /\
  (traceCanvas surface = false \/ gearsCanvas surface = false \/
   containerSize surface = None \/
   traceCtx surface = false \/ gearsCtx surface = false \/
   (exists width height,
      containerSize surface = Some (width, height) /\
      (width = 0 \/ height = 0)) ->
   forall isPlaying, animate surface config isPlaying refs = refs) /\
  animate surface config false refs = refs /\
  (speed config <= 0 -> count = 0%nat) /\
  (0 < speed config -> INR count - 1 < speed config * 5 <= INR count) /\
  (0.1 <= speed config <= 20 -> (1 <= count <= 100)%nat) /\
  (speed config = 20 -> count = 100%nat).
Proof.
  intro count.
  assert (Hcount : count = steps config) by reflexivity.
  pose proof (Zceil_bound (speed config * 5)) as Hb.
  split.
  { intros width height Ht Hg Hc Htc Hgc Hw Hh.
    assert (Hrun : animate surface config true refs = simulate config true refs).
    { unfold animate. rewrite Ht, Hg, Hc, Htc, Hgc. cbn [negb orb].
      unfold JS.eq. destruct (Req_dec_T width 0); [contradiction |].
      destruct (Req_dec_T height 0); [contradiction | reflexivity]. }
    rewrite Hrun, Hcount.
    destruct (simulate_points_angle config refs) as [Hp Ha].
    split; [rewrite Hp; apply repeat_subStep_prefix |].
    rewrite Ha. apply repeat_subStep_angle. }
  split.
  { intros Hmiss isPlaying. unfold animate.
    destruct (traceCanvas surface); [| reflexivity].
    destruct (gearsCanvas surface); [| reflexivity].
    cbn [negb orb].
    destruct (containerSize surface) as [[width height] |]; [| reflexivity].
    destruct (traceCtx surface); [| reflexivity].
    destruct (gearsCtx surface); [| reflexivity].
    cbn [negb orb].
    destruct Hmiss as [H | [H | [H | [H | [H | H]]]]]; try discriminate.
    destruct H as (w & h & Heq & Hz). injection Heq as <- <-.
    unfold JS.eq.
    destruct (Req_dec_T width 0); [reflexivity |].
    destruct (Req_dec_T height 0); [reflexivity |].
    destruct Hz; contradiction. }
  split.
  { unfold animate.
    destruct (negb (traceCanvas surface) || negb (gearsCanvas surface));
      [reflexivity |].
    destruct (containerSize surface) as [[width height] |]; [| reflexivity].
    destruct (negb (traceCtx surface) || negb (gearsCtx surface));
      [reflexivity |].
    destruct (JS.eq width 0 || JS.eq height 0); reflexivity. }
  subst count.
  split.
  { intro Hs.
    assert (IZR (Zceil (speed config * 5)) < 1) by lra.
    assert (Zceil (speed config * 5) < 1)%Z by (apply lt_IZR; exact H).
    lia. }
  split.
  { intro Hs.
    assert (H0 : 0 < IZR (Zceil (speed config * 5))) by lra.
    apply lt_IZR in H0.
    rewrite INR_IZR_INZ, Z2Nat.id by lia. lra. }
  split.
  { intros [Hl Hu].
    assert (H0 : 0 < IZR (Zceil (speed config * 5))) by lra.
    assert (H1 : IZR (Zceil (speed config * 5)) < 101) by lra.
    apply lt_IZR in H0, H1. lia. }
  intro H20.
  assert (H0 : 99 < IZR (Zceil (speed config * 5))) by lra.
  assert (H1 : IZR (Zceil (speed config * 5)) < 101) by lra.
  apply lt_IZR in H0, H1. lia.
Qed.

Lemma tick_appends_steps_witness :
  let surface := {| traceCanvas := true; gearsCanvas := true;
                    containerSize := Some (800, 600);
                    traceCtx := true; gearsCtx := true |} in
  List.length (pointsRef (animate surface defaultConfig true initialRefs)) = 5%nat.
Proof.
  intro surface.
  assert (Hw : 800 <> 0) by lra.
  assert (Hh : 600 <> 0) by lra.
  destruct (proj1 (tick_appends_steps surface defaultConfig initialRefs)
              800 600 eq_refl eq_refl eq_refl eq_refl eq_refl Hw Hh)
    as [(added & Hp & Hl) _].
  rewrite Hp, length_app, Hl.
  cbn [pointsRef initialRefs List.length speed defaultConfig Nat.add].
  rewrite (Zceil_eq 5 (1 * 5)) by (split; lra). reflexivity.
Defined.

(** ** The stroked polyline *)

Lemma skipn_nth_error {A : Type} (l : list A) (i : nat) (p : A) :
  nth_error l i = Some p -> skipn i l = p :: skipn (S i) l.
Proof.
  revert l. induction i as [| i IH]; intros [| q l] H; try discriminate.
  - cbn in H. injection H as ->. reflexivity.
  - cbn [nth_error] in H. cbn [skipn]. rewrite (IH l H). reflexivity.
Qed.

Lemma strideLoop_all (fuel i : nat) (points : list Point.t) :
  (List.length points <= i + fuel)%nat ->
  strideLoop fuel i 1 points = skipn i points.
Proof.
  revert i. induction fuel as [| fuel IH]; intros i Hlen.
  - cbn [strideLoop]. symmetry. apply skipn_all2. lia.
  - cbn [strideLoop]. destruct (nth_error points i) as [p |] eqn:Hn.
    + rewrite IH by lia. rewrite (skipn_nth_error points i p Hn).
      replace (i + 1)%nat with (S i) by lia. reflexivity.
    + apply nth_error_None in Hn. symmetry. apply skipn_all2. exact Hn.
Qed.

Lemma strideLoop_In (fuel i stride : nat) (points : list Point.t) (p : Point.t) :
  In p (strideLoop fuel i stride points) -> In p points.
Proof.
  revert i. induction fuel as [| fuel IH]; intros i H.
  - destruct H.
  - cbn [strideLoop] in H. destruct (nth_error points i) as [q |] eqn:Hn.
    + destruct H as [H | H].
      * subst q. eapply nth_error_In; exact Hn.
      * eapply IH; exact H.
    + destruct H.
Qed.

Lemma strideLoop_nth (fuel i stride : nat) (points : list Point.t) (j : nat) :
  (j < fuel)%nat -> (i + stride * j < List.length points)%nat ->
  nth_error (strideLoop fuel i stride points) j =
  nth_error points (i + stride * j).
Proof.
  revert i j. induction fuel as [| fuel IH]; intros i j Hj Hlen; [lia |].
  cbn [strideLoop].
  destruct (nth_error points i) as [p |] eqn:Hn.
  - destruct j as [| j].
    + cbn [nth_error]. rewrite Nat.mul_0_r, Nat.add_0_r. symmetry. exact Hn.
    + cbn [nth_error]. rewrite IH by lia. f_equal. lia.
  - apply nth_error_None in Hn. lia.
Qed.

Lemma strideLoop_length (fuel i stride : nat) (points : list Point.t) :
  (0 < stride)%nat ->
  (stride * List.length (strideLoop fuel i stride points)
   <= (List.length points - i) + (stride - 1))%nat.
Proof.
  intro Hs. revert i. induction fuel as [| fuel IH]; intro i.
  - cbn [strideLoop List.length]. lia.
  - cbn [strideLoop]. destruct (nth_error points i) as [p |] eqn:Hn.
    + assert (i < List.length points)%nat
        by (apply nth_error_Some; rewrite Hn; discriminate).
      cbn [List.length]. specialize (IH (i + stride)%nat).
      rewrite Nat.mul_succ_r.
      destruct (List.length (strideLoop fuel (i + stride) stride points))
        as [| n].
      * lia.
      * rewrite Nat.mul_succ_r in IH. lia.
    + cbn [List.length]. lia.
Qed.

Lemma last_cons_default {A : Type} (a : A) (l : list A) (d1 d2 : A) :
  last (a :: l) d1 = last (a :: l) d2.
Proof.
  revert a. induction l as [| b l IH]; intro a; [reflexivity |].
  change (last (b :: l) d1 = last (b :: l) d2). apply IH.
Qed.

Lemma last_cons_In {A : Type} (a : A) (l : list A) (d : A) :
  In (last (a :: l) d) (a :: l).
Proof.
  revert a. induction l as [| b l IH]; intro a; [left; reflexivity |].
  right. change (In (last (b :: l) d) (b :: l)). apply IH.
Qed.

(** X7.  The polyline stroked for a non-empty trace starts at the first
    point and ends at the last point at every zoom, and passes only through
    trace points.  At scale 0.2 and above, and in the export, it is the
    whole trace; below 0.2 its [j+1]-th vertex is the point of index
    [1 + 5 j] and it has at most [length / 5 + 3] vertices. *)
Theorem livePath_shape (k : number) (points : list Point.t) (d : Point.t) :
  points <> [] ->
  hd d (livePath k points) = hd d points /\
  last (livePath k points) d = last points d /\
  (forall p, In p (livePath k points) -> In p points) /\
  (0.2 <= k -> livePath k points = points) /\
  exportPath points = points /\
  (k < 0.2 ->
   (forall j, (1 + 5 * j < List.length points)%nat ->
              nth_error (livePath k points) (S j) =
              nth_error points (1 + 5 * j)) /\
   (5 * List.length (livePath k points) <= List.length points + 14)%nat).
Proof.
  intro Hne. destruct points as [| p0 rest]; [contradiction |].
  assert (Hall : strideLoop (List.length (p0 :: rest)) 1 1 (p0 :: rest) = rest).
  { rewrite strideLoop_all by lia. reflexivity. }
  assert (Hbig : 0.2 <= k -> livePath k (p0 :: rest) = p0 :: rest).
  { intro Hk. unfold livePath. rewrite lt_false by exact Hk.
    rewrite Hall. cbn [Nat.ltb Nat.leb]. rewrite app_nil_r. reflexivity. }
  split; [reflexivity |].
  split.
  { destruct (Rlt_dec k 0.2) as [Hk | Hk].
    - unfold livePath. rewrite lt_true by exact Hk.
      change ((1 <? 5)%nat) with true. cbv iota.
      change (p0 :: strideLoop (List.length (p0 :: rest)) 1 5 (p0 :: rest)
                 ++ [last (p0 :: rest) p0])
        with ((p0 :: strideLoop (List.length (p0 :: rest)) 1 5 (p0 :: rest))
                ++ [last (p0 :: rest) p0]).
      rewrite last_last. apply last_cons_default.
    - rewrite Hbig by lra. reflexivity. }
  split.
  { intros p Hp. unfold livePath in Hp.
    destruct Hp as [Hp | Hp]; [left; exact Hp |].
    apply in_app_or in Hp. destruct Hp as [Hp | Hp].
    - eapply strideLoop_In; exact Hp.
    - destruct (1 <? _)%nat; [| destruct Hp].
      destruct Hp as [Hp | []]. subst p. apply last_cons_In. }
  split; [exact Hbig |].
  split; [unfold exportPath; rewrite Hall; reflexivity |].
  intro Hk. unfold livePath. rewrite lt_true by exact Hk.
  change ((1 <? 5)%nat) with true. cbv iota.
  split.
  - intros j Hj. cbn [nth_error].
    rewrite nth_error_app1.
    + apply strideLoop_nth; [cbn [List.length] in *; lia | exact Hj].
    + apply nth_error_Some. rewrite strideLoop_nth; [| cbn [List.length] in *; lia | exact Hj].
      apply nth_error_Some. exact Hj.
  - cbn [List.length]. rewrite length_app. cbn [List.length].
    pose proof (strideLoop_length (S (List.length rest)) 1 5 (p0 :: rest)) as Hl.
    cbn [List.length] in Hl. lia.
Qed.

Lemma livePath_shape_witness :
  let p := {| Point.x := 1; Point.y := 2 |} in
  let q := {| Point.x := 3; Point.y := 4 |} in
  last (livePath 0.1 [p; q]) p = last [p; q] p.
Proof.
  intros p q.
  assert (Hne : [p; q] <> []) by discriminate.
  exact (proj1 (proj2 (livePath_shape 0.1 [p; q] p Hne))).
Defined.

(** ** Dragging *)

Lemma dragMoves_not_dragging (es : list PointerEvent) (st : Drag)
    (tr : Transform.t) :
  isDragging st = false -> dragMoves es (st, tr) = (st, tr).
Proof.
  intro H. induction es as [| e es IH]; [reflexivity |].
  unfold dragMoves in *. cbn [fold_left fst snd].
  unfold dragPointerMove at 2. rewrite H. exact IH.
Qed.

Lemma dragMoves_cons (e : PointerEvent) (es : list PointerEvent)
    (s : Drag * Transform.t) :
  dragMoves (e :: es) s = dragMoves es (dragPointerMove e (fst s) (snd s)).
Proof. reflexivity. Qed.

Lemma dragPointerMove_dragging (e e0 : PointerEvent) (st : Drag)
    (tr : Transform.t) :
  isDragging st = true ->
  lastPointer st = {| Point.x := clientX e0; Point.y := clientY e0 |} ->
  dragPointerMove e st tr =
  ({| isDragging := true;
      lastPointer := {| Point.x := clientX e; Point.y := clientY e |} |},
   {| Transform.x := Transform.x tr + (clientX e - clientX e0);
      Transform.y := Transform.y tr + (clientY e - clientY e0);
      Transform.k := Transform.k tr |}).
Proof.
  intros Hd Hl. unfold dragPointerMove. rewrite Hd, Hl. reflexivity.
Qed.

Lemma dragMoves_dragging (es : list PointerEvent) (st : Drag)
    (tr : Transform.t) (e0 : PointerEvent) :
  isDragging st = true ->
  lastPointer st = {| Point.x := clientX e0; Point.y := clientY e0 |} ->
  let final := last es e0 in
  dragMoves es (st, tr) =
  ({| isDragging := true;
      lastPointer := {| Point.x := clientX final; Point.y := clientY final |} |},
   {| Transform.x := Transform.x tr + (clientX final - clientX e0);
      Transform.y := Transform.y tr + (clientY final - clientY e0);
      Transform.k := Transform.k tr |}).
Proof.
  revert st tr e0. induction es as [| e es IH]; intros st tr e0 Hd Hl final.
  - subst final. cbn [last dragMoves fold_left].
    destruct st as [dg lp]. destruct tr as [x y k].
    cbn [isDragging lastPointer] in *. subst dg lp.
    cbn [Transform.x Transform.y Transform.k]. f_equal. f_equal; ring.
  - rewrite dragMoves_cons. cbn [fst snd].
    rewrite (dragPointerMove_dragging e e0 st tr Hd Hl).
    rewrite (IH {| isDragging := true;
                   lastPointer := {| Point.x := clientX e; Point.y := clientY e |} |}
               _ e eq_refl eq_refl).
    cbn [Transform.x Transform.y Transform.k].
    assert (Hlast : last es e = final).
    { subst final. destruct es as [| e' es']; [reflexivity |].
      change (last (e :: e' :: es') e0) with (last (e' :: es') e0).
      apply last_cons_default. }
    rewrite Hlast. f_equal. f_equal; ring.
Qed.

(** X8.  Dragging moves the view with the pointer: after a pointer-down at
    [e0], any run of pointer moves leaves the offset displaced by the
    vector from [e0] to the last move and the scale untouched, however
    the moves wandered in between; moves that come without a pointer-down,
    or after the pointer-up, change nothing. *)
Theorem drag_follows_pointer (e0 up : PointerEvent) (es later : list PointerEvent)
    (st : Drag) (tr : Transform.t) :
  let final := last es e0 in
  let dragged := dragMoves es (dragPointerDown e0 st, tr) in
  snd dragged =
    {| Transform.x := Transform.x tr + (clientX final - clientX e0);
       Transform.y := Transform.y tr + (clientY final - clientY e0);
       Transform.k := Transform.k tr |} /\
  snd (dragMoves later (dragPointerUp up (fst dragged), snd dragged)) =
    snd dragged /\
  dragMoves later (initialDrag, tr) = (initialDrag, tr).
Proof.
  intros final dragged.
  assert (Hd : dragged =
    ({| isDragging := true;
        lastPointer := {| Point.x := clientX final; Point.y := clientY final |} |},
     {| Transform.x := Transform.x tr + (clientX final - clientX e0);
        Transform.y := Transform.y tr + (clientY final - clientY e0);
        Transform.k := Transform.k tr |})).
  { subst dragged final. apply dragMoves_dragging; reflexivity. }
  split; [rewrite Hd; reflexivity |].
  split.
  - rewrite dragMoves_not_dragging; reflexivity.
  - apply dragMoves_not_dragging. reflexivity.
Qed.

(** ** The pointer map *)

Lemma pointerMoves_single (container : option Rect) (es : list PointerEvent)
    (id : Z) (p0 : Point.t) (dist : option number) (tr : Transform.t)
    (e0 : PointerEvent) :
  Forall (fun e => pointerId e = id) es ->
  p0 = {| Point.x := clientX e0; Point.y := clientY e0 |} ->
  let final := last es e0 in
  pointerMoves container es
    ({| pointers := [(id, p0)]; prevPinchDist := dist |}, tr) =
  ({| pointers := [(id, {| Point.x := clientX final; Point.y := clientY final |})];
      prevPinchDist := dist |},
   {| Transform.x := Transform.x tr + (clientX final - clientX e0);
      Transform.y := Transform.y tr + (clientY final - clientY e0);
      Transform.k := Transform.k tr |}).
Proof.
  revert p0 tr e0. induction es as [| e es IH]; intros p0 tr e0 Hall Hp final.
  - subst final p0. cbn [last pointerMoves fold_left].
    destruct tr as [x y k]. cbn [Transform.x Transform.y Transform.k].
    f_equal. f_equal; ring.
  - inversion Hall as [| e' es' Hid Hrest]; subst e' es'.
    change (pointerMoves container (e :: es)
              ({| pointers := [(id, p0)]; prevPinchDist := dist |}, tr))
      with (pointerMoves container es
              (handlePointerMove container e
                 {| pointers := [(id, p0)]; prevPinchDist := dist |} tr)).
    assert (Hstep :
      handlePointerMove container e
        {| pointers := [(id, p0)]; prevPinchDist := dist |} tr =
      ({| pointers := [(id, {| Point.x := clientX e; Point.y := clientY e |})];
          prevPinchDist := dist |},
       {| Transform.x := Transform.x tr + (clientX e - clientX e0);
          Transform.y := Transform.y tr + (clientY e - clientY e0);
          Transform.k := Transform.k tr |})).
    { unfold handlePointerMove, PointerMap.get. cbn [pointers find fst snd].
      rewrite Hid, Z.eqb_refl. cbn [option_map snd List.length prevPinchDist].
      unfold PointerMap.set. rewrite Z.eqb_refl. subst p0.
      cbn [Point.x Point.y]. reflexivity. }
    rewrite Hstep.
    rewrite (IH _ _ e Hrest eq_refl).
    cbn [Transform.x Transform.y Transform.k].
    assert (Hlast : last es e = final).
    { subst final. destruct es as [| e' es']; [reflexivity |].
      change (last (e :: e' :: es') e0) with (last (e' :: es') e0).
      apply last_cons_default. }
    rewrite Hlast. f_equal. f_equal; ring.
Qed.

Lemma PointerMap_delete_set (id : Z) (v : Point.t) (m : list (Z * Point.t)) :
  PointerMap.get id m = None ->
  PointerMap.delete id (PointerMap.set id v m) = m.
Proof.
  unfold PointerMap.get, PointerMap.delete.
  induction m as [| [i w] m IH]; intro H.
  - cbn [PointerMap.set filter fst]. rewrite Z.eqb_refl. reflexivity.
  - cbn [find fst] in H. cbn [PointerMap.set].
    destruct (Z.eqb i id) eqn:He; [discriminate |].
    cbn [filter fst]. rewrite He. cbn [negb]. rewrite IH by exact H.
    reflexivity.
Qed.

(** X9.  With one pointer down the later revision pans exactly like a
    drag: a run of moves of that pointer displaces the offset by the
    vector from the pointer-down to the last move and keeps the scale; a
    move of a pointer that is not down changes nothing; and lifting a
    pointer that was put down restores the previous set of pointers. *)
Theorem single_pointer_pans (container : option Rect) (e0 : PointerEvent)
    (es : list PointerEvent) (tr : Transform.t) (g : Gesture) :
  Forall (fun e => pointerId e = pointerId e0) es ->
  let start := handlePointerDown e0 {| pointers := []; prevPinchDist := None |} in
  let final := last es e0 in
  snd (pointerMoves container es (start, tr)) =
    {| Transform.x := Transform.x tr + (clientX final - clientX e0);
       Transform.y := Transform.y tr + (clientY final - clientY e0);
       Transform.k := Transform.k tr |} /\
  (PointerMap.get (pointerId e0) (pointers g) = None ->
   handlePointerMove container e0 g tr = (g, tr) /\
   pointers (handlePointerUp e0 (handlePointerDown e0 g)) = pointers g).
Proof.
  intros Hall start final. split.
  - subst start. unfold handlePointerDown. cbn [pointers PointerMap.set].
    subst final. rewrite (pointerMoves_single container es (pointerId e0)
                            _ None tr e0 Hall eq_refl).
    reflexivity.
  - intro Hnone. split.
    + unfold handlePointerMove. rewrite Hnone. reflexivity.
    + unfold handlePointerUp, handlePointerDown. cbn [pointers].
      apply PointerMap_delete_set. exact Hnone.
Qed.

Lemma single_pointer_pans_witness :
  let e0 := {| pointerId := 7; clientX := 10; clientY := 20 |} in
  let e1 := {| pointerId := 7; clientX := 15; clientY := 18 |} in
  let tr := {| Transform.x := 0; Transform.y := 0; Transform.k := 1 |} in
  snd (pointerMoves None [e1]
         (handlePointerDown e0 {| pointers := []; prevPinchDist := None |}, tr)) =
  {| Transform.x := 0 + (15 - 10); Transform.y := 0 + (18 - 20);
     Transform.k := 1 |}.
Proof.
  intros e0 e1 tr.
  assert (Hall : Forall (fun e => pointerId e = pointerId e0) [e1])
    by (constructor; [reflexivity | constructor]).
  exact (proj1 (single_pointer_pans None e0 [e1] tr
                  {| pointers := []; prevPinchDist := None |} Hall)).
Defined.

(** ** Pinching *)

Lemma slow_pinch_run (container : option Rect) (es : list PointerEvent)
    (a b : Z) (pa pb : Point.t) (d0 : number) (tr : Transform.t) :
  a <> b -> Forall (fun e => pointerId e = a \/ pointerId e = b) es ->
  slowPinch a pa pb d0 es ->
  snd (pointerMoves container es
         ({| pointers := [(a, pa); (b, pb)]; prevPinchDist := Some d0 |}, tr)) = tr.
Proof.
  intro Hab. revert pa pb d0.
  induction es as [| e es IH]; intros pa pb d0 Hall Hslow.
  - reflexivity.
  - inversion Hall as [| e' es' Hid Hrest]; subst e' es'.
    cbn [slowPinch] in Hslow. destruct Hslow as [Hs Hslow].
    change (pointerMoves container (e :: es)
              ({| pointers := [(a, pa); (b, pb)]; prevPinchDist := Some d0 |}, tr))
      with (pointerMoves container es
              (handlePointerMove container e
                 {| pointers := [(a, pa); (b, pb)]; prevPinchDist := Some d0 |} tr)).
    rewrite (two_pointer_move container e a b pa pb (Some d0) tr Hab Hid).
    rewrite lt_false by exact Hs.
    destruct (Z.eqb (pointerId e) a); apply IH; assumption.
Qed.

(** X10.  Pinch dead zones.  With two pointers down, a move of either of
    them measures the distance to the other.  The first such move after a
    pointer went down only records the distance and never zooms.  Later
    moves zoom by the ratio of the new to the recorded distance only when
    that ratio differs from 1 by more than 0.005, and record the new
    distance in either case; so a pinch in which the two pointers move in
    any order, each move changing the distance by at most half a percent,
    never changes the view, however far the pointers travel in total.
    The recorded distance [d0] is positive, as the distance of two
    pointers that are apart is. *)
Theorem pinch_dead_zones (container : option Rect) (a b : Z) (pa pb : Point.t)
    (tr : Transform.t) (e : PointerEvent) (es : list PointerEvent) (d0 : number) :
  a <> b -> pointerId e = a \/ pointerId e = b ->
  Forall (fun e => pointerId e = a \/ pointerId e = b) es ->
  0 < d0 ->
  let other := otherPointer a pa pb e in
  let dist := pinchDist other e in
  let here := {| Point.x := clientX e; Point.y := clientY e |} in
  let moved := if Z.eqb (pointerId e) a then [(a, here); (b, pb)]
               else [(a, pa); (b, here)] in
  let down := handlePointerDown
                {| pointerId := b; clientX := Point.x pb; clientY := Point.y pb |}
                {| pointers := [(a, pa)]; prevPinchDist := Some d0 |} in
  let pinching := {| pointers := [(a, pa); (b, pb)]; prevPinchDist := Some d0 |} in
  handlePointerMove container e down tr =
    ({| pointers := moved; prevPinchDist := Some dist |}, tr) /\
  fst (handlePointerMove container e pinching tr) =
    {| pointers := moved; prevPinchDist := Some dist |} /\
  (0.005 < Rabs (dist / d0 - 1) ->
   snd (handlePointerMove container e pinching tr) =
   pinchUpdater container ((clientX e + Point.x other) / 2)
     ((clientY e + Point.y other) / 2) (dist / d0) tr) /\
  (Rabs (dist / d0 - 1) <= 0.005 ->
   snd (handlePointerMove container e pinching tr) = tr) /\
  (slowPinch a pa pb d0 es ->
   snd (pointerMoves container es (pinching, tr)) = tr).
Proof.
  intros Hab Hid Hall Hd0 other dist here moved down pinching.
  assert (Hba : Z.eqb a b = false) by (apply Z.eqb_neq; exact Hab).
  split.
  { subst down. unfold handlePointerDown. cbn [pointers PointerMap.set pointerId].
    rewrite Hba. cbn [clientX clientY].
    destruct pb as [bx by_]. cbn [Point.x Point.y].
    apply (two_pointer_move container e a b pa _ None tr Hab Hid). }
  subst pinching.
  rewrite (two_pointer_move container e a b pa pb (Some d0) tr Hab Hid).
  cbn [fst snd].
  split; [reflexivity |].
  split; [| split].
  - intro Hbig. fold other. fold dist. rewrite lt_true by exact Hbig. reflexivity.
  - intro Hsmall. fold other. fold dist. rewrite lt_false by exact Hsmall.
    reflexivity.
  - intro Hslow. apply slow_pinch_run; assumption.
Qed.

Lemma pinch_dead_zones_witness :
  let pa := {| Point.x := 0; Point.y := 0 |} in
  let pb := {| Point.x := 1000; Point.y := 0 |} in
  let second := {| pointerId := 2; clientX := 1003; clientY := 0 |} in
  let first := {| pointerId := 1; clientX := -2; clientY := 0 |} in
  let tr := {| Transform.x := 0; Transform.y := 0; Transform.k := 1 |} in
  snd (pointerMoves None [second; first]
         ({| pointers := [(1%Z, pa); (2%Z, pb)]; prevPinchDist := Some 1000 |}, tr))
  = tr.
Proof.
  intros pa pb second first tr.
  assert (Hab : (1 <> 2)%Z) by discriminate.
  assert (Hd0 : 0 < 1000) by lra.
  assert (Hall : Forall (fun e => pointerId e = 1%Z \/ pointerId e = 2%Z)
                   [second; first]).
  { constructor; [right; reflexivity |].
    constructor; [left; reflexivity | constructor]. }
  pose proof (pinch_dead_zones None 1 2 pa pb tr second [second; first] 1000 Hab
                (or_intror eq_refl) Hall Hd0) as H.
  cbv zeta in H. apply (proj2 (proj2 (proj2 (proj2 H)))).
  cbn [slowPinch]. change (Z.eqb (pointerId second) 1) with false.
  change (Z.eqb (pointerId first) 1) with true. cbv iota.
  change (otherPointer 1 pa pb second) with pa.
  change (otherPointer 1 pa {| Point.x := clientX second; Point.y := clientY second |} first)
    with {| Point.x := clientX second; Point.y := clientY second |}.
  assert (H1 : pinchDist pa second = 1003).
  { unfold pinchDist, JS.hypot. cbn [Point.x Point.y pa second clientX clientY].
    replace ((0 - 1003) * (0 - 1003) + (0 - 0) * (0 - 0)) with (1003 * 1003) by lra.
    apply sqrt_square. lra. }
  assert (H2 : pinchDist {| Point.x := clientX second; Point.y := clientY second |}
                 first = 1005).
  { unfold pinchDist, JS.hypot. cbn [Point.x Point.y first second clientX clientY].
    replace ((1003 - -2) * (1003 - -2) + (0 - 0) * (0 - 0)) with (1005 * 1005) by lra.
    apply sqrt_square. lra. }
  rewrite H1, H2.
  repeat split; unfold Rabs; destruct (Rcase_abs _); lra.
Defined.

(** ** Wheel zoom *)

Lemma clamp_id (v : number) : kMin <= v <= kMax -> Rmax 0.1 (Rmin 20 v) = v.
Proof.
  unfold kMin, kMax. intros [Hl Hu].
  rewrite Rmin_right by exact Hu. apply Rmax_right. exact Hl.
Qed.

Lemma transform_eq (a b : Transform.t) :
  Transform.x a = Transform.x b -> Transform.y a = Transform.y b ->
  Transform.k a = Transform.k b -> a = b.
Proof. destruct a, b. cbn. intros -> -> ->. reflexivity. Qed.

Lemma wheelUpdater_compose (rect : Rect) (mouseX mouseY s1 s2 : number)
    (tr : Transform.t) :
  Transform.k tr <> 0 -> kMin <= Transform.k tr * s1 <= kMax ->
  wheelUpdater rect mouseX mouseY s2 (wheelUpdater rect mouseX mouseY s1 tr) =
  wheelUpdater rect mouseX mouseY (s1 * s2) tr.
Proof.
  intros Hk Hb.
  assert (Hk1 : Transform.k tr * s1 <> 0) by (unfold kMin in Hb; lra).
  assert (Hs1 : s1 <> 0) by (intros ->; apply Hk1; ring).
  apply transform_eq; unfold wheelUpdater;
    cbn [Transform.x Transform.y Transform.k];
    rewrite (clamp_id _ Hb);
    replace (Transform.k tr * s1 * s2) with (Transform.k tr * (s1 * s2)) by ring.
  - field. auto.
  - field. auto.
  - reflexivity.
Qed.

Lemma wheelUpdater_one (rect : Rect) (mouseX mouseY : number) (tr : Transform.t) :
  inBounds tr -> wheelUpdater rect mouseX mouseY 1 tr = tr.
Proof.
  intro Hb. unfold inBounds in Hb.
  assert (Hk : Transform.k tr <> 0) by (unfold kMin in Hb; lra).
  apply transform_eq; unfold wheelUpdater;
    cbn [Transform.x Transform.y Transform.k];
    rewrite Rmult_1_r, (clamp_id _ Hb).
  - field. exact Hk.
  - field. exact Hk.
  - reflexivity.
Qed.

Lemma handleWheel_updater (rect : Rect) (e : WheelEvent) (tr : Transform.t) :
  handleWheel (Some rect) e tr =
  wheelUpdater rect (w_clientX e - left rect) (w_clientY e - top rect)
    (exp (- deltaY e * 0.001)) tr.
Proof. reflexivity. Qed.

(** X11.  Wheel events at one mouse position add up: as long as the first
    event is not clamped, turning the wheel by [a] and then by [b] gives
    the view of a single turn by [a + b]; in particular a turn followed by
    the opposite turn restores the view, and a turn by zero changes
    nothing. *)
Theorem wheel_turns_add_up (rect : Rect) (e1 e2 : WheelEvent) (tr : Transform.t) :
  inBounds tr ->
  w_clientX e2 = w_clientX e1 -> w_clientY e2 = w_clientY e1 ->
  kMin <= Transform.k tr * exp (- deltaY e1 * 0.001) <= kMax ->
  let both := {| w_clientX := w_clientX e1; w_clientY := w_clientY e1;
                 deltaY := deltaY e1 + deltaY e2 |} in
  handleWheel (Some rect) e2 (handleWheel (Some rect) e1 tr) =
    handleWheel (Some rect) both tr /\
  (deltaY e2 = - deltaY e1 ->
   handleWheel (Some rect) e2 (handleWheel (Some rect) e1 tr) = tr) /\
  (deltaY e1 = 0 -> handleWheel (Some rect) e1 tr = tr).
Proof.
  intros Hb Hx Hy H1 both.
  assert (Hk : Transform.k tr <> 0)
    by (unfold inBounds, kMin in Hb; lra).
  assert (Hsum : handleWheel (Some rect) e2 (handleWheel (Some rect) e1 tr) =
                 handleWheel (Some rect) both tr).
  { rewrite !handleWheel_updater. rewrite Hx, Hy.
    rewrite wheelUpdater_compose by assumption.
    subst both. cbn [w_clientX w_clientY deltaY].
    rewrite <- exp_plus. do 2 f_equal. ring. }
  split; [exact Hsum |].
  split.
  - intro Hopp. rewrite Hsum, handleWheel_updater.
    subst both. cbn [w_clientX w_clientY deltaY]. rewrite Hopp.
    replace (- (deltaY e1 + - deltaY e1) * 0.001) with 0 by ring.
    rewrite exp_0. apply wheelUpdater_one. exact Hb.
  - intro H0. rewrite handleWheel_updater, H0.
    replace (- 0 * 0.001) with 0 by ring.
    rewrite exp_0. apply wheelUpdater_one. exact Hb.
Qed.

Lemma wheel_turns_add_up_witness :
  let rect := {| left := 0; top := 0; width := 800; height := 600 |} in
  let e := {| w_clientX := 100; w_clientY := 50; deltaY := 0 |} in
  let tr := {| Transform.x := 3; Transform.y := 4; Transform.k := 1 |} in
  handleWheel (Some rect) e tr = tr.
Proof.
  intros rect e tr.
  assert (Hb : inBounds tr)
    by (unfold inBounds, kMin, kMax; cbn [Transform.k tr]; split; lra).
  assert (H1 : kMin <= Transform.k tr * exp (- deltaY e * 0.001) <= kMax).
  { cbn [deltaY e Transform.k tr]. replace (- 0 * 0.001) with 0 by ring.
    rewrite exp_0. unfold kMin, kMax. split; lra. }
  exact (proj2 (proj2 (wheel_turns_add_up rect e e tr Hb eq_refl eq_refl H1))
           eq_refl).
Defined.

(** X12.  Direction of the wheel: on a view within the bounds, scrolling
    up (negative [deltaY]) never decreases the scale and scrolling down
    never increases it, and the scale changes strictly unless it is held
    at a bound. *)
Theorem wheel_direction (rect : Rect) (e : WheelEvent) (tr : Transform.t) :
  inBounds tr ->
  let k := Transform.k tr in
  let k' := Transform.k (handleWheel (Some rect) e tr) in
  (deltaY e < 0 -> k <= k' /\ (k < kMax -> k < k')) /\
  (0 < deltaY e -> k' <= k /\ (kMin < k -> k' < k)).
Proof.
  intros Hb k k'. unfold inBounds in Hb. fold k in Hb.
  assert (Hk' : k' = Rmax 0.1 (Rmin 20 (k * exp (- deltaY e * 0.001))))
    by reflexivity.
  unfold kMin, kMax in *.
  split; intro Hd.
  - assert (Hs : 1 < exp (- deltaY e * 0.001)).
    { rewrite <- exp_0. apply exp_increasing. lra. }
    assert (Hks : k < k * exp (- deltaY e * 0.001)) by nra.
    rewrite Hk'. unfold Rmax, Rmin.
    destruct (Rle_dec 20 _); destruct (Rle_dec 0.1 _); split; intros; lra.
  - assert (Hs : exp (- deltaY e * 0.001) < 1).
    { rewrite <- exp_0. apply exp_increasing. lra. }
    pose proof (exp_pos (- deltaY e * 0.001)) as Hp.
    assert (Hks : k * exp (- deltaY e * 0.001) < k) by nra.
    rewrite Hk'. unfold Rmax, Rmin.
    destruct (Rle_dec 20 _); destruct (Rle_dec 0.1 _); split; intros; lra.
Qed.

Lemma wheel_direction_witness :
  let rect := {| left := 0; top := 0; width := 800; height := 600 |} in
  let e := {| w_clientX := 100; w_clientY := 50; deltaY := -100 |} in
  let tr := {| Transform.x := 0; Transform.y := 0; Transform.k := 1 |} in
  1 < Transform.k (handleWheel (Some rect) e tr).
Proof.
  intros rect e tr.
  assert (Hb : inBounds tr)
    by (unfold inBounds, kMin, kMax; cbn [Transform.k tr]; split; lra).
  assert (Hd : deltaY e < 0) by (cbn [deltaY e]; lra).
  assert (Hk : Transform.k tr < kMax) by (unfold kMax; cbn [Transform.k tr]; lra).
  exact (proj2 (proj1 (wheel_direction rect e tr Hb) Hd) Hk).
Defined.

(** ** Bounded zoom buttons *)

Lemma viewRun_bounds_buttons (ops : list ViewOp) (s : Gesture * Transform.t) :
  inBounds (snd s) ->
  inBounds (snd (viewRun (handleZoomIn, handleZoomOut) ops s)).
Proof.
  revert s. induction ops as [| op ops IH]; intros s H.
  - exact H.
  - cbn [viewRun fold_left]. apply IH.
    apply viewStep_bounds; cbn [fst snd];
      auto using handleZoomIn_bounds, handleZoomOut_bounds.
Qed.

(** X13.  With the button handlers [handleZoomIn] and [handleZoomOut] of
    the longer App revision the scale stays between [kMin] and [kMax]
    after every operation of every sequence of wheel, pointer, button and
    reset operations that starts within the bounds; a press of Zoom In at
    [kMax] and a press of Zoom Out at [kMin] leave the scale where it
    is. *)
Theorem bounded_buttons_keep_scale (ops : list ViewOp)
    (s : Gesture * Transform.t) (n : nat) :
  inBounds (snd s) ->
  inBounds (snd (viewRun (handleZoomIn, handleZoomOut) (firstn n ops) s)) /\
  (Transform.k (snd s) = kMax ->
   Transform.k (handleZoomIn (snd s)) = kMax) /\
  (Transform.k (snd s) = kMin ->
   Transform.k (handleZoomOut (snd s)) = kMin).
Proof.
  intro H. split; [apply viewRun_bounds_buttons; exact H |].
  unfold handleZoomIn, handleZoomOut, kMin, kMax. cbn [Transform.k].
  split; intros ->.
  - apply Rmin_left. lra.
  - apply Rmax_left. lra.
Qed.

Lemma bounded_buttons_keep_scale_witness :
  inBounds (snd (viewRun (handleZoomIn, handleZoomOut)
                   (firstn 2 [OpZoomIn; OpZoomOut; OpReset defaultConfig 800 600])
                   ({| pointers := []; prevPinchDist := None |},
                    {| Transform.x := 0; Transform.y := 0; Transform.k := 1 |}))).
Proof.
  assert (H : inBounds (snd ({| pointers := []; prevPinchDist := None |},
                             {| Transform.x := 0; Transform.y := 0;
                                Transform.k := 1 |})))
    by (unfold inBounds, kMin, kMax; cbn [snd Transform.k]; split; lra).
  exact (proj1 (bounded_buttons_keep_scale
                  [OpZoomIn; OpZoomOut; OpReset defaultConfig 800 600]
                  _ 2 H)).
Defined.

(** ** Fitting the view *)

Lemma Rmax3_bounds (a b c : number) :
  a <= Rmax (Rmax a b) c /\ b <= Rmax (Rmax a b) c /\ c <= Rmax (Rmax a b) c.
Proof.
  pose proof (Rmax_l (Rmax a b) c). pose proof (Rmax_r (Rmax a b) c).
  pose proof (Rmax_l a b). pose proof (Rmax_r a b).
  repeat split; lra.
Qed.

(** X14.  The scale of the reset view lies between 0.1 and 5.  For a
    positive stator radius, unless the scale is held at its minimum 0.1,
    the trace extent [|R - r| + d], the stator extent and, when the gears
    are shown, the rotor sweep all fit in 90% of half the smaller window
    dimension; and when the scale is strictly between 0.1 and 5 the
    largest of them fills it exactly. *)
Theorem calculateOptimalScale_fits (cfg : SpiroConfig) (w h : number) :
  0 < outerRadius cfg ->
  let R := outerRadius cfg in
  let r := innerRadius cfg in
  let d := penOffset cfg in
  let traceExtent := Rabs (R - r) + d in
  let gearExtent :=
    if showGears cfg then Rabs (R - r) + r * Rmax 1 (JS.or (rotorAspect cfg) 1)
    else 0 in
  let statorExtent := R * Rmax 1 (JS.or (statorAspect cfg) 1) in
  let k := calculateOptimalScale cfg w h in
  let room := Rmin w h / 2 * 0.9 in
  0.1 <= k <= 5 /\
  (0.1 < k ->
   traceExtent * k <= room /\ gearExtent * k <= room /\
   statorExtent * k <= room) /\
  (0.1 < k < 5 ->
   Rmax (Rmax traceExtent gearExtent) statorExtent * k = room).
Proof.
  intros HR R r d traceExtent gearExtent statorExtent k room.
  set (maxExtent := Rmax (Rmax traceExtent gearExtent) statorExtent).
  assert (Hk : k = Rmax 0.1 (Rmin 5 (room / JS.or maxExtent 1))) by reflexivity.
  destruct (Rmax3_bounds traceExtent gearExtent statorExtent)
    as (Ht & Hg & Hs). fold maxExtent in Ht, Hg, Hs.
  assert (Hst : 0 < statorExtent).
  { subst statorExtent. apply Rmult_lt_0_compat; [exact HR |].
    eapply Rlt_le_trans; [| apply Rmax_l]. lra. }
  assert (Hm : 0 < maxExtent) by lra.
  rewrite or_nonzero in Hk by lra.
  split.
  { rewrite Hk. split; [apply Rmax_l |].
    apply Rmax_lub; [lra | apply Rmin_l]. }
  assert (Hq : 0.1 < k -> k <= room / maxExtent).
  { intro H1. rewrite Hk in *. unfold Rmax in *.
    destruct (Rle_dec 0.1 (Rmin 5 (room / maxExtent))); [| lra].
    apply Rmin_r. }
  split.
  - intro H1. specialize (Hq H1).
    assert (Hmk : maxExtent * k <= room).
    { apply Rmult_le_compat_l with (r := maxExtent) in Hq; [| lra].
      replace (maxExtent * (room / maxExtent)) with room in Hq by (field; lra).
      exact Hq. }
    assert (Hk0 : 0 <= k) by lra.
    repeat split.
    + apply Rle_trans with (maxExtent * k); [| exact Hmk].
      apply Rmult_le_compat_r; assumption.
    + apply Rle_trans with (maxExtent * k); [| exact Hmk].
      apply Rmult_le_compat_r; assumption.
    + apply Rle_trans with (maxExtent * k); [| exact Hmk].
      apply Rmult_le_compat_r; assumption.
  - intros [H1 H5].
    assert (Heq : k = room / maxExtent).
    { rewrite Hk in *. unfold Rmax, Rmin in *.
      destruct (Rle_dec 5 (room / maxExtent));
        destruct (Rle_dec 0.1 _); lra. }
    rewrite Heq. field. lra.
Qed.

Lemma calculateOptimalScale_fits_witness :
  0.1 <= calculateOptimalScale defaultConfig 800 600 <= 5.
Proof.
  assert (HR : 0 < outerRadius defaultConfig) by (cbn [outerRadius defaultConfig]; lra).
  exact (proj1 (calculateOptimalScale_fits defaultConfig 800 600 HR)).
Defined.

(** X15.  The responsive line width lies between 0.1 and 30.  For a scale
    [k] between 0.1 and 5, as the reset view computes it, the width the
    line has on screen, [lineWidth * k], is the target width
    [max(1.1, minDim / 450)] capped at [30 k]; it is never below 1.1 and
    never above the target. *)
Theorem calculateResponsiveLineWidth_on_screen (k width height : number) :
  0.1 <= k <= 5 ->
  let target := Rmax 1.1 (Rmin width height / 450) in
  let lw := calculateResponsiveLineWidth k width height in
  0.1 <= lw <= 30 /\
  lw * k = Rmin target (30 * k) /\
  1.1 <= lw * k <= target.
Proof.
  intros [Hl Hu] target lw.
  assert (Hlw : lw = Rmax 0.1 (Rmin 30 (target / JS.or k 1))) by reflexivity.
  rewrite or_nonzero in Hlw by lra.
  assert (Ht : 1.1 <= target) by apply Rmax_l.
  assert (Hq : 0.1 <= target / k).
  { apply Rmult_le_reg_r with (r := k); [lra |].
    replace (target / k * k) with target by (field; lra). nra. }
  assert (Hlw' : lw = Rmin 30 (target / k)).
  { rewrite Hlw. apply Rmax_right. apply Rmin_glb; lra. }
  split.
  { rewrite Hlw'. split; [apply Rmin_glb; lra | apply Rmin_l]. }
  assert (Hmul : lw * k = Rmin target (30 * k)).
  { rewrite Hlw'. unfold Rmin.
    destruct (Rle_dec 30 (target / k)) as [H30 | H30];
      destruct (Rle_dec target (30 * k)) as [Ht30 | Ht30].
    - assert (30 * k <= target).
      { apply Rmult_le_compat_r with (r := k) in H30; [| lra].
        replace (target / k * k) with target in H30 by (field; lra). exact H30. }
      lra.
    - reflexivity.
    - field. lra.
    - exfalso. apply H30. apply Rmult_le_reg_r with (r := k); [lra |].
      replace (target / k * k) with target by (field; lra). lra. }
  split; [exact Hmul |].
  rewrite Hmul. split.
  - apply Rmin_glb; lra.
  - apply Rmin_l.
Qed.

Lemma calculateResponsiveLineWidth_on_screen_witness :
  0.1 <= calculateResponsiveLineWidth 1 800 600 <= 30.
Proof.
  assert (Hk : 0.1 <= 1 <= 5) by (split; lra).
  exact (proj1 (calculateResponsiveLineWidth_on_screen 1 800 600 Hk)).
Defined.

(** ** The ratio search: ties and exact ratios *)

Lemma searchBody_cases (val : number) (st : Best) (d : Z) :
  let err := ratioError val (JS.round (val * IZR d)) d in
  (err < minError st /\
   searchBody val st d =
     {| bestN := JS.round (val * IZR d); bestD := d; minError := err |}) \/
  (minError st <= err /\ searchBody val st d = st).
Proof.
  intro err. unfold searchBody, JS.lt.
  fold (ratioError val (JS.round (val * IZR d)) d). fold err.
  destruct (Rlt_dec err (minError st)); [left | right]; split;
    try reflexivity; lra.
Qed.

Lemma searchFrom_strict (val : number) (ds : list Z) :
  forall (st : Best) (done : Z -> Prop),
    (forall d, done d -> (d < bestD st)%Z ->
               minError st < ratioError val (JS.round (val * IZR d)) d) ->
    (forall d, done d ->
               minError st <= ratioError val (JS.round (val * IZR d)) d) ->
    (forall d', In d' ds -> (bestD st < d')%Z) ->
    StronglySorted Z.lt ds ->
    forall d, done d \/ In d ds ->
      (d < bestD (searchFrom val ds st))%Z ->
      minError (searchFrom val ds st) <
      ratioError val (JS.round (val * IZR d)) d.
Proof.
  induction ds as [| d0 ds IH]; intros st done H1 H2 H4 Hs d Hd Hlt.
  - destruct Hd as [Hd | []]. apply H1; assumption.
  - rewrite searchFrom_cons in *.
    inversion Hs as [| x l Hs' Hall]; subst x l.
    rewrite Forall_forall in Hall.
    assert (Hd' : (done d \/ d = d0) \/ In d ds).
    { destruct Hd as [Hd | [Hd | Hd]]; auto. }
    destruct (searchBody_cases val st d0) as [[Herr Heq] | [Herr Heq]];
      cbv zeta in Herr.
    + apply (IH _ (fun d => done d \/ d = d0)); try assumption.
      * rewrite Heq. cbn [bestD minError]. intros e [He | He] Hlt'.
        -- specialize (H2 e He). lra.
        -- lia.
      * rewrite Heq. cbn [bestD minError]. intros e [He | He].
        -- specialize (H2 e He). lra.
        -- subst e. lra.
      * rewrite Heq. cbn [bestD]. intros d' Hin. apply Hall. exact Hin.
    + apply (IH _ (fun d => done d \/ d = d0)); try assumption.
      * rewrite Heq. intros e [He | He] Hlt'.
        -- apply H1; assumption.
        -- subst e. specialize (H4 d0 (or_introl eq_refl)). lia.
      * rewrite Heq. intros e [He | He].
        -- apply H2; exact He.
        -- subst e. exact Herr.
      * rewrite Heq. intros d' Hin.
        specialize (H4 d0 (or_introl eq_refl)). specialize (Hall d' Hin). lia.
Qed.

Lemma seq_Z_sorted (a n : nat) : StronglySorted Z.lt (map Z.of_nat (seq a n)).
Proof.
  revert a. induction n as [| n IH]; intro a; cbn [seq map].
  - constructor.
  - constructor; [apply IH |].
    apply Forall_forall. intros z Hz. apply in_map_iff in Hz.
    destruct Hz as (i & <- & Hi). apply in_seq in Hi. lia.
Qed.

Lemma ratioSearch_unfold (val : number) :
  ratioSearch val =
  searchFrom val (map Z.of_nat (seq 2 999)) (searchBody val initialBest 1).
Proof.
  unfold ratioSearch. rewrite denominators_head, searchFrom_cons. reflexivity.
Qed.

Lemma first_iteration_best (val : number) :
  bestD (searchBody val initialBest 1) = 1%Z /\
  minError (searchBody val initialBest 1) <=
    ratioError val (JS.round (val * IZR 1)) 1.
Proof.
  destruct (searchBody_cases val initialBest 1) as [[_ Heq] | [Hge Heq]];
    rewrite Heq; cbn [bestD minError initialBest].
  - split; [reflexivity | lra].
  - split; [reflexivity | exact Hge].
Qed.

(** Every denominator before the returned one is strictly worse. *)
Lemma ratioSearch_first (val : number) (d : Z) :
  (1 <= d < bestD (ratioSearch val))%Z ->
  minError (ratioSearch val) < ratioError val (JS.round (val * IZR d)) d.
Proof.
  intros [Hd1 Hd2].
  pose proof (ratioSearch_consistent val) as (Hr & _).
  rewrite ratioSearch_unfold in *.
  destruct (first_iteration_best val) as [Hst1 Hle1].
  generalize dependent (searchBody val initialBest 1). intros st1 Hd2 Hr Hst1 Hle1.
  apply (searchFrom_strict val _ st1 (fun e => e = 1%Z)).
  - intros e -> Hlt. lia.
  - intros e ->. exact Hle1.
  - intros d' Hin. rewrite Hst1. apply in_map_iff in Hin.
    destruct Hin as (i & <- & Hi). apply in_seq in Hi. lia.
  - apply seq_Z_sorted.
  - destruct (Z.eq_dec d 1) as [-> | Hne]; [left; reflexivity | right].
    apply in_map_iff. exists (Z.to_nat d). split; [lia |].
    apply in_seq. lia.
  - exact Hd2.
Qed.

Lemma ratioError_nonneg (val : number) (n d : Z) : 0 <= ratioError val n d.
Proof. unfold ratioError. apply Rabs_pos. Qed.

Lemma round_IZR (p : Z) : JS.round (IZR p) = p.
Proof.
  unfold JS.round. apply Zfloor_eq. lra.
Qed.

Lemma least_minimiser_lowest_terms (val : number) (n d : Z) :
  (1 <= d <= 1000)%Z ->
  (forall n' d' : Z, (1 <= d' < d)%Z ->
      ratioError val n d < ratioError val n' d') ->
  (forall p q : Z, (1 <= q <= 1000)%Z ->
      ratioError val n d <= ratioError val p q) ->
  Z.gcd n d = 1%Z /\
  (forall p q : Z, (1 <= q <= 1000)%Z -> val = IZR p / IZR q ->
      IZR n / IZR d = val /\ (Z.gcd p q = 1%Z -> n = p /\ d = q)).
Proof.
  intros Hd Hfirst Hmin.
  assert (Hdpos : 0 < IZR d) by (apply IZR_lt; lia).
  split.
  { destruct (Z.eq_dec (Z.gcd n d) 1) as [Hg | Hg]; [exact Hg | exfalso].
    pose proof (Z.gcd_nonneg n d) as Hg0.
    assert (Hgd : (Z.gcd n d | d)%Z) by apply Z.gcd_divide_r.
    assert (Hgn : (Z.gcd n d | n)%Z) by apply Z.gcd_divide_l.
    destruct Hgd as [d' Hd'eq]. destruct Hgn as [n' Hn'eq].
    set (g := Z.gcd n d) in *. clearbody g.
    assert (Hgpos : (1 < g)%Z).
    { assert (g <> 0)%Z by (intro H0; rewrite H0 in Hd'eq; lia). lia. }
    assert (Hd'pos : (1 <= d')%Z) by nia.
    assert (Hd'lt : (d' < d)%Z) by nia.
    pose proof (Hfirst n' d' (conj Hd'pos Hd'lt)) as Hlt.
    assert (Hsame : ratioError val n' d' = ratioError val n d).
    { unfold ratioError. do 2 f_equal.
      rewrite Hn'eq, Hd'eq, !mult_IZR.
      assert (0 < IZR d')%R by (apply IZR_lt; lia).
      assert (0 < IZR g)%R by (apply IZR_lt; lia).
      field. split; lra. }
    lra. }
  intros p q Hq Hval.
  assert (Hqpos : 0 < IZR q) by (apply IZR_lt; lia).
  assert (H0 : ratioError val p q = 0).
  { unfold ratioError. rewrite Hval.
    replace (IZR p / IZR q - IZR p / IZR q) with 0 by ring. apply Rabs_R0. }
  assert (Hzero : ratioError val n d = 0).
  { pose proof (Hmin p q Hq) as Hm.
    pose proof (ratioError_nonneg val n d). lra. }
  assert (Hfrac : IZR n / IZR d = val).
  { unfold ratioError in Hzero.
    destruct (Req_dec (val - IZR n / IZR d) 0) as [Hz | Hz]; [lra |].
    apply Rabs_no_R0 in Hz. contradiction. }
  split; [exact Hfrac |].
  intro Hgcd.
  assert (Hcross : (n * q = p * d)%Z).
  { apply eq_IZR. rewrite !mult_IZR.
    rewrite Hval in Hfrac.
    apply Rmult_eq_reg_r with (r := / (IZR d * IZR q)).
    - replace (IZR n * IZR q * / (IZR d * IZR q)) with (IZR n / IZR d)
        by (field; split; lra).
      replace (IZR p * IZR d * / (IZR d * IZR q)) with (IZR p / IZR q)
        by (field; split; lra).
      exact Hfrac.
    - apply Rinv_neq_0_compat. nra. }
  assert (Hqd : (q | d)%Z).
  { apply Z.gauss with (m := p).
    - exists n. lia.
    - rewrite Z.gcd_comm. exact Hgcd. }
  destruct Hqd as [c Hc].
  assert (Hcpos : (1 <= c)%Z) by nia.
  destruct (Z.eq_dec c 1) as [-> | Hc1].
  - assert (d = q) by lia. subst q. split; [nia | reflexivity].
  - exfalso.
    assert (Hlt : (1 <= q < d)%Z) by nia.
    pose proof (Hfirst p q Hlt) as Hstrict. lra.
Qed.

Lemma ratioSearch_strictly_first (val : number) (n' d' : Z) :
  (1 <= d' < bestD (ratioSearch val))%Z ->
  ratioError val (bestN (ratioSearch val)) (bestD (ratioSearch val)) <
  ratioError val n' d'.
Proof.
  intro Hd'.
  destruct (ratioSearch_consistent val) as (_ & _ & He). rewrite <- He.
  eapply Rlt_le_trans; [apply ratioSearch_first; exact Hd' |].
  apply round_best_numerator. lia.
Qed.

Lemma ratioSearch_exact_fraction (val : number) (p q : Z) :
  (1 <= q <= 1000)%Z -> val = IZR p / IZR q -> Z.gcd p q = 1%Z ->
  bestN (ratioSearch val) = p /\ bestD (ratioSearch val) = q.
Proof.
  intros Hq Hval Hgcd.
  refine (proj2 (proj2 (least_minimiser_lowest_terms val _ _ _ _ _) p q Hq Hval) Hgcd).
  - apply (ratioSearch_consistent val).
  - apply ratioSearch_strictly_first.
  - apply ratioSearch_minimal.
Qed.

(** X16.  The fraction the search returns is in lowest terms and has the
    smallest denominator among the best approximations: every smaller
    denominator gives a strictly larger error.  If the ratio is exactly
    [p / q] with [1 <= q <= 1000], the returned fraction equals it, and
    when [p / q] is in lowest terms the returned pair is [(p, q)]. *)
Theorem ratioSearch_lowest_terms (val : number) :
  (forall n' d' : Z, (1 <= d' < bestD (ratioSearch val))%Z ->
      ratioError val (bestN (ratioSearch val)) (bestD (ratioSearch val)) <
      ratioError val n' d') /\
  Z.gcd (bestN (ratioSearch val)) (bestD (ratioSearch val)) = 1%Z /\
  (forall p q : Z, (1 <= q <= 1000)%Z -> val = IZR p / IZR q ->
      IZR (bestN (ratioSearch val)) / IZR (bestD (ratioSearch val)) = val /\
      (Z.gcd p q = 1%Z ->
       bestN (ratioSearch val) = p /\ bestD (ratioSearch val) = q)).
Proof.
  split; [apply ratioSearch_strictly_first |].
  apply least_minimiser_lowest_terms.
  - apply (ratioSearch_consistent val).
  - apply ratioSearch_strictly_first.
  - apply ratioSearch_minimal.
Qed.

Lemma ratioSearch_lowest_terms_witness :
  bestN (ratioSearch (IZR 26 / IZR 75)) = 26%Z /\
  bestD (ratioSearch (IZR 26 / IZR 75)) = 75%Z.
Proof.
  assert (Hq : (1 <= 75 <= 1000)%Z) by lia.
  exact (proj2 (proj2 (proj2 (ratioSearch_lowest_terms (IZR 26 / IZR 75)))
                  26%Z 75%Z Hq eq_refl) eq_refl).
Defined.

(** ** Circumference *)

Lemma ellipse_h_range (radius aspect : number) :
  0 < radius -> 0 < aspect ->
  0 <= (radius - radius * aspect) ^ 2 / (radius + radius * aspect) ^ 2 < 1.
Proof.
  intros Hr Ha.
  assert (Hra : 0 < radius * aspect) by (apply Rmult_lt_0_compat; assumption).
  assert (Hden : 0 < (radius + radius * aspect) ^ 2) by nra.
  split.
  - apply Rmult_le_pos; [apply pow2_ge_0 | left; apply Rinv_0_lt_compat; exact Hden].
  - apply Rmult_lt_reg_r with (r := (radius + radius * aspect) ^ 2); [exact Hden |].
    replace ((radius - radius * aspect) ^ 2 / (radius + radius * aspect) ^ 2 *
             (radius + radius * aspect) ^ 2)
      with ((radius - radius * aspect) ^ 2) by (field; lra).
    nra.
Qed.

Lemma circumference_lower (radius aspect : number) :
  0 < radius -> 0 < aspect ->
  PI * (radius + radius * aspect) <= calculateEllipseCircumference radius aspect.
Proof.
  intros Hr Ha. pose proof PI_RGT_0 as Hpi.
  assert (Hra : 0 < radius * aspect) by (apply Rmult_lt_0_compat; assumption).
  destruct (Req_dec aspect 1) as [-> | Hne].
  - rewrite circumference_circle. lra.
  - rewrite circumference_formula by exact Hne.
    pose proof (ellipse_h_range radius aspect Hr Ha) as [Hh0 Hh1].
    set (h := (radius - radius * aspect) ^ 2 / (radius + radius * aspect) ^ 2) in *.
    pose proof (sqrt_pos (4 - 3 * h)) as Hs.
    assert (Hq : 0 <= 3 * h / (10 + sqrt (4 - 3 * h))).
    { apply Rmult_le_pos; [lra | left; apply Rinv_0_lt_compat; lra]. }
    assert (Hp : 0 < PI * (radius + radius * aspect))
      by (apply Rmult_lt_0_compat; lra).
    nra.
Qed.

Lemma circumference_upper (radius aspect : number) :
  0 < radius -> 0 < aspect ->
  calculateEllipseCircumference radius aspect <=
  PI * (radius + radius * aspect) * (13 / 10).
Proof.
  intros Hr Ha. pose proof PI_RGT_0 as Hpi.
  assert (Hra : 0 < radius * aspect) by (apply Rmult_lt_0_compat; assumption).
  assert (Hp : 0 < PI * (radius + radius * aspect))
    by (apply Rmult_lt_0_compat; lra).
  destruct (Req_dec aspect 1) as [-> | Hne].
  - rewrite circumference_circle. lra.
  - rewrite circumference_formula by exact Hne.
    pose proof (ellipse_h_range radius aspect Hr Ha) as [Hh0 Hh1].
    set (h := (radius - radius * aspect) ^ 2 / (radius + radius * aspect) ^ 2) in *.
    pose proof (sqrt_pos (4 - 3 * h)) as Hs.
    assert (Hq : 3 * h / (10 + sqrt (4 - 3 * h)) <= 3 / 10).
    { apply Rmult_le_reg_r with (r := 10 + sqrt (4 - 3 * h)); [lra |].
      unfold Rdiv at 1. rewrite Rmult_assoc, Rinv_l by lra. nra. }
    apply Rmult_le_compat_l; lra.
Qed.

Lemma circumference_pos (radius aspect : number) :
  0 < radius -> 0 < aspect -> 0 < calculateEllipseCircumference radius aspect.
Proof.
  intros Hr Ha. pose proof PI_RGT_0 as Hpi.
  assert (Hra : 0 < radius * aspect) by (apply Rmult_lt_0_compat; assumption).
  eapply Rlt_le_trans; [| apply circumference_lower; assumption].
  apply Rmult_lt_0_compat; lra.
Qed.

Lemma circumference_scale (s radius aspect : number) :
  0 < s -> 0 < radius -> 0 < aspect ->
  calculateEllipseCircumference (s * radius) aspect =
  s * calculateEllipseCircumference radius aspect.
Proof.
  intros Hs Hr Ha.
  destruct (Req_dec aspect 1) as [-> | Hne].
  - rewrite !circumference_circle. ring.
  - rewrite !circumference_formula by exact Hne.
    assert (Hra : 0 < radius * aspect) by (apply Rmult_lt_0_compat; assumption).
    replace ((s * radius - s * radius * aspect) ^ 2 /
             (s * radius + s * radius * aspect) ^ 2)
      with ((radius - radius * aspect) ^ 2 / (radius + radius * aspect) ^ 2)
      by (field; repeat split; nra).
    ring.
Qed.

(** X17.  The circumference of an ellipse with positive radius and aspect
    is at least [pi (a + b)] for its semi-axes [a] and [b], hence
    positive; it scales with the radius; it does not depend on which
    semi-axis is taken as the radius; and the shortcut for [aspect === 1]
    agrees with Ramanujan's formula there. *)
Theorem calculateEllipseCircumference_laws (radius aspect s : number) :
  0 < radius -> 0 < aspect -> 0 < s ->
  let C := calculateEllipseCircumference in
  0 < PI * (radius + radius * aspect) <= C radius aspect /\
  C (s * radius) aspect = s * C radius aspect /\
  C (radius * aspect) (/ aspect) = C radius aspect /\
  C radius 1 =
    PI * (radius + radius * 1) *
    (1 + 3 * ((radius - radius * 1) ^ 2 / (radius + radius * 1) ^ 2) /
         (10 + sqrt (4 - 3 * ((radius - radius * 1) ^ 2 /
                              (radius + radius * 1) ^ 2)))).
Proof.
  intros Hr Ha Hs C. subst C. pose proof PI_RGT_0 as Hpi.
  assert (Hra : 0 < radius * aspect) by (apply Rmult_lt_0_compat; assumption).
  split.
  { split; [apply Rmult_lt_0_compat; lra | apply circumference_lower; assumption]. }
  split; [apply circumference_scale; assumption |].
  split.
  - destruct (Req_dec aspect 1) as [-> | Hne].
    + rewrite Rinv_1, Rmult_1_r. reflexivity.
    + assert (Hinv : / aspect <> 1).
      { intro H. apply Hne. rewrite <- (Rinv_inv aspect), H. apply Rinv_1. }
      rewrite !circumference_formula by assumption.
      replace (radius * aspect * / aspect) with radius by (field; lra).
      replace ((radius * aspect - radius) ^ 2) with ((radius - radius * aspect) ^ 2)
        by ring.
      replace (radius * aspect + radius) with (radius + radius * aspect) by ring.
      reflexivity.
  - rewrite circumference_circle.
    replace ((radius - radius * 1) ^ 2 / (radius + radius * 1) ^ 2) with 0
      by (field; lra).
    replace (4 - 3 * 0) with (2 * 2) by ring.
    rewrite sqrt_square by lra. field.
Qed.

Lemma calculateEllipseCircumference_laws_witness :
  calculateEllipseCircumference (2 * 52) 0.6 =
  2 * calculateEllipseCircumference 52 0.6.
Proof.
  assert (H1 : 0 < 52) by lra. assert (H2 : 0 < 0.6) by lra.
  assert (H3 : 0 < 2) by lra.
  exact (proj1 (proj2 (calculateEllipseCircumference_laws 52 0.6 2 H1 H2 H3))).
Defined.

(** ** Ratio hints of the controls *)

(** X18.  Setting the rotor radius to fit a ratio.  [applyRatioValues]
    does nothing for a non-positive numerator or denominator; otherwise
    it stores the hint and a rotor radius between 10 and 400 and leaves
    the rest of the geometry alone.  For a positive stator radius and
    positive aspects, when the fitted radius is not clamped the ratio of
    the circumferences of the new config is exactly [num / den], so that
    for a fraction in lowest terms with [den <= 1000] the search of the
    export, run on that ratio, finds the very pair that was entered. *)
Theorem applyRatioValues_fits_ratio (config : SpiroConfig) (num den : number) :
  0 < outerRadius config -> 0 < statorAspect config -> 0 < rotorAspect config ->
  let fitted :=
    calculateEllipseCircumference (outerRadius config) (statorAspect config)
    * (num / den) / calculateEllipseCircumference 1 (rotorAspect config) in
  (num <= 0 \/ den <= 0 -> applyRatioValues config num den = None) /\
  (0 < num -> 0 < den ->
   exists config',
     applyRatioValues config num den = Some config' /\
     10 <= innerRadius config' <= 400 /\
     innerRadius config' = Rmax 10 (Rmin 400 fitted) /\
     outerRadius config' = outerRadius config /\
     statorAspect config' = statorAspect config /\
     rotorAspect config' = rotorAspect config /\
     penOffset config' = penOffset config /\
     ratioText config' = (num, den) /\
     (10 <= fitted <= 400 ->
      circumferenceRatio config' = num / den /\
      (forall p q : Z, num = IZR p -> den = IZR q ->
         (q <= 1000)%Z -> Z.gcd p q = 1%Z ->
         bestN (ratioSearch (circumferenceRatio config')) = p /\
         bestD (ratioSearch (circumferenceRatio config')) = q))).
Proof.
  intros HR Hs Ha fitted. split.
  { intros [H | H]; unfold applyRatioValues.
    - destruct (Rle_dec num 0); [reflexivity | contradiction].
    - destruct (Rle_dec num 0); [reflexivity |].
      destruct (Rle_dec den 0); [reflexivity | contradiction]. }
  intros Hnum Hden.
  destruct (applyRatioValues config num den) as [config' |] eqn:Happ.
  2:{ unfold applyRatioValues in Happ.
      destruct (Rle_dec num 0); [lra |].
      destruct (Rle_dec den 0); [lra | discriminate]. }
  exists config'. split; [reflexivity |].
  destruct (applyRatioValues_present config config' num den Happ) as [_ Htext].
  unfold applyRatioValues in Happ.
  destruct (Rle_dec num 0); [lra |].
  destruct (Rle_dec den 0); [lra |].
  injection Happ as <-. cbn [innerRadius outerRadius statorAspect rotorAspect penOffset].
  fold fitted.
  split.
  { split; [apply Rmax_l |]. apply Rmax_lub; [lra | apply Rmin_l]. }
  do 5 (split; [reflexivity |]).
  split; [exact Htext |].
  intros [Hlo Hhi].
  assert (Hclamp : Rmax 10 (Rmin 400 fitted) = fitted).
  { rewrite Rmin_right by exact Hhi. apply Rmax_right. exact Hlo. }
  pose proof (circumference_pos (outerRadius config) (statorAspect config) HR Hs)
    as HoutC.
  pose proof (circumference_pos 1 (rotorAspect config) Rlt_0_1 Ha) as HunitC.
  assert (Hratio :
    circumferenceRatio
      {| outerRadius := outerRadius config;
         innerRadius := Rmax 10 (Rmin 400 fitted);
         penOffset := penOffset config; penColor := penColor config;
         speed := speed config; opacity := opacity config;
         lineWidth := lineWidth config; showGears := showGears config;
         statorAspect := statorAspect config;
         rotorAspect := rotorAspect config;
         numerator := Some num; denominator := Some den |} = num / den).
  { unfold circumferenceRatio.
    cbn [innerRadius outerRadius statorAspect rotorAspect].
    rewrite Hclamp.
    assert (Hfit : 0 < fitted) by lra.
    replace fitted with (fitted * 1) at 1 by ring.
    rewrite circumference_scale by (try assumption; lra).
    subst fitted.
    set (outC := calculateEllipseCircumference (outerRadius config)
                   (statorAspect config)) in *.
    set (unitC := calculateEllipseCircumference 1 (rotorAspect config)) in *.
    field. repeat split; lra. }
  split; [exact Hratio |].
  intros p q Hp Hq Hq1000 Hgcd. rewrite Hratio.
  assert (Hqpos : (1 <= q)%Z).
  { assert (0 < IZR q) by lra. apply lt_IZR in H. lia. }
  assert (Hval : num / den = IZR p / IZR q) by (rewrite Hp, Hq; reflexivity).
  exact (ratioSearch_exact_fraction (num / den) p q
           (conj Hqpos Hq1000) Hval Hgcd).
Qed.

Lemma applyRatioValues_fits_ratio_witness :
  exists config',
    applyRatioValues ellipticConfig 2 3 = Some config' /\
    10 <= innerRadius config' <= 400 /\
    ratioText config' = (2, 3) /\
    circumferenceRatio config' = 2 / 3 /\
    bestN (ratioSearch (circumferenceRatio config')) = 2%Z /\
    bestD (ratioSearch (circumferenceRatio config')) = 3%Z.
Proof.
  assert (H1 : 0 < outerRadius ellipticConfig)
    by (cbn [outerRadius ellipticConfig]; lra).
  assert (H2 : 0 < statorAspect ellipticConfig)
    by (cbn [statorAspect ellipticConfig]; lra).
  assert (H3 : 0 < rotorAspect ellipticConfig)
    by (cbn [rotorAspect ellipticConfig]; lra).
  assert (Hn : 0 < 2) by lra.
  assert (Hd : 0 < 3) by lra.
  destruct (proj2 (applyRatioValues_fits_ratio ellipticConfig 2 3 H1 H2 H3)
              Hn Hd)
    as (config' & Heq & Hr & _ & _ & _ & _ & _ & Htext & Hmain).
  exists config'.
  split; [exact Heq |]. split; [exact Hr |]. split; [exact Htext |].
  assert (Hfit : 10 <=
                 calculateEllipseCircumference (outerRadius ellipticConfig)
                   (statorAspect ellipticConfig) * (2 / 3) /
                 calculateEllipseCircumference 1 (rotorAspect ellipticConfig)
                 <= 400).
  { cbn [outerRadius statorAspect rotorAspect ellipticConfig].
    rewrite circumference_circle.
    assert (Ha : 0 < 150) by lra. assert (Hb : 0 < 0.6) by lra.
    pose proof (circumference_lower 150 0.6 Ha Hb) as Hlo.
    pose proof (circumference_upper 150 0.6 Ha Hb) as Hhi.
    pose proof PI_RGT_0 as Hpi.
    set (C := calculateEllipseCircumference 150 0.6) in *.
    replace (C * (2 / 3) / (2 * PI * 1)) with (C / (3 * PI)) by (field; lra).
    split.
    - apply Rmult_le_reg_r with (r := 3 * PI); [lra |].
      unfold Rdiv. rewrite Rmult_assoc, Rinv_l by lra. lra.
    - apply Rmult_le_reg_r with (r := 3 * PI); [lra |].
      unfold Rdiv. rewrite Rmult_assoc, Rinv_l by lra. lra. }
  destruct (Hmain Hfit) as [Hratio Hsearch].
  split; [exact Hratio |].
  apply (Hsearch 2%Z 3%Z); [reflexivity | reflexivity | lia | reflexivity].
Defined.

(** X19.  Editing a radius invalidates the ratio hint: after
    [updateConfig] on the stator or rotor radius the hint is absent, so
    the annotated export prints the searched fraction rather than a stale
    hint.  Any other edit, the hint fields themselves apart, keeps the
    hint, and with it the printed ratio; and no edit touches a field other
    than its own and the hint. *)
Theorem updateConfig_hint (u : ConfigUpdate) (prev : SpiroConfig) :
  let next := updateConfig u prev in
  (editsRadius u = true ->
   numerator next = None /\ denominator next = None /\
   hintPresent next = false /\
   ratioText next =
     (IZR (bestN (ratioSearch (circumferenceRatio next))),
      IZR (bestD (ratioSearch (circumferenceRatio next))))) /\
  (editsRadius u = false -> editsHint u = false ->
   numerator next = numerator prev /\ denominator next = denominator prev /\
   hintPresent next = hintPresent prev /\
   (hintPresent prev = true -> ratioText next = ratioText prev)) /\
  ((forall v, u <> SetPenOffset v) -> penOffset next = penOffset prev) /\
  ((forall v, u <> SetOuterRadius v) -> outerRadius next = outerRadius prev) /\
  ((forall v, u <> SetInnerRadius v) -> innerRadius next = innerRadius prev) /\
  ((forall v, u <> SetStatorAspect v) -> statorAspect next = statorAspect prev) /\
  ((forall v, u <> SetRotorAspect v) -> rotorAspect next = rotorAspect prev).
Proof.
  intro next. split; [| split].
  - intro Hr. assert (Hn : numerator next = None /\ denominator next = None)
      by (destruct u; try discriminate; split; reflexivity).
    destruct Hn as [Hn Hd].
    assert (Hp : hintPresent next = false)
      by (unfold hintPresent; rewrite Hn; reflexivity).
    repeat split; try assumption. apply ratioText_search. exact Hp.
  - intros Hr Hh.
    assert (Hn : numerator next = numerator prev /\
                 denominator next = denominator prev)
      by (destruct u; try discriminate; split; reflexivity).
    destruct Hn as [Hn Hd].
    assert (Hp : hintPresent next = hintPresent prev)
      by (unfold hintPresent; rewrite Hn, Hd; reflexivity).
    repeat split; try assumption.
    intro Hprev.
    destruct (hintPresent_values prev Hprev) as (n & d & Hpn & Hpd & _).
    rewrite (ratioText_hint prev n d Hpn Hpd Hprev).
    apply ratioText_hint; [congruence | congruence | congruence].
  - repeat split; intros Hne; destruct u; try reflexivity;
      exfalso; eapply Hne; reflexivity.
Qed.

Lemma updateConfig_hint_witness :
  hintPresent (updateConfig (SetInnerRadius 60) defaultConfig) = false /\
  ratioText (updateConfig (SetSpeed 3) defaultConfig) = ratioText defaultConfig.
Proof.
  split.
  - exact (proj1 (proj2 (proj2
             (proj1 (updateConfig_hint (SetInnerRadius 60) defaultConfig)
                eq_refl)))).
  - apply (proj1 (proj2 (updateConfig_hint (SetSpeed 3) defaultConfig))
             eq_refl eq_refl).
    unfold hintPresent, JS.truthy. cbn [numerator denominator defaultConfig].
    destruct (Req_dec_T 2 0); [lra |]. destruct (Req_dec_T 3 0); [lra |].
    reflexivity.
Defined.

(** ** Random values *)

Lemma Zfloor_range (x : number) (n : Z) :
  0 <= x < IZR n -> (0 <= Zfloor x < n)%Z.
Proof.
  intros [H0 Hn]. pose proof (Zfloor_bound x) as [Hl Hu].
  split.
  - apply (Zfloor_lub 0 x). exact H0.
  - apply lt_IZR. lra.
Qed.

(** X20.  For [rand] in [0, 1) and integers [min <= max], [getRandomInt]
    returns an integer between [min] and [max], both included; and every
    integer of that range is returned for some [rand] in [0, 1). *)
Theorem getRandomInt_range (min max : Z) :
  (min <= max)%Z ->
  (forall rand, 0 <= rand < 1 ->
     exists z : Z, getRandomInt rand (IZR min) (IZR max) = IZR z /\
                   (min <= z <= max)%Z) /\
  (forall z : Z, (min <= z <= max)%Z ->
     exists rand, 0 <= rand < 1 /\
                  getRandomInt rand (IZR min) (IZR max) = IZR z).
Proof.
  intro Hmm.
  assert (Hn : 0 < IZR (max - min + 1)) by (apply IZR_lt; lia).
  assert (Hcount : IZR max - IZR min + 1 = IZR (max - min + 1))
    by (rewrite plus_IZR, minus_IZR; reflexivity).
  split.
  - intros rand [H0 H1]. unfold getRandomInt. rewrite Hcount.
    exists (Zfloor (rand * IZR (max - min + 1)) + min)%Z.
    split; [symmetry; apply plus_IZR |].
    assert (Hr : (0 <= Zfloor (rand * IZR (max - min + 1)) < max - min + 1)%Z).
    { apply Zfloor_range. split; [apply Rmult_le_pos; lra | nra]. }
    lia.
  - intros z Hz. exists (IZR (z - min) / IZR (max - min + 1)).
    assert (Hzm : 0 <= IZR (z - min)) by (apply IZR_le; lia).
    assert (Hzn : IZR (z - min) < IZR (max - min + 1)) by (apply IZR_lt; lia).
    split.
    + split.
      * apply Rmult_le_pos; [exact Hzm | left; apply Rinv_0_lt_compat; exact Hn].
      * apply Rmult_lt_reg_r with (r := IZR (max - min + 1)); [exact Hn |].
        replace (IZR (z - min) / IZR (max - min + 1) * IZR (max - min + 1))
          with (IZR (z - min)) by (field; lra).
        lra.
    + unfold getRandomInt. rewrite Hcount.
      replace (IZR (z - min) / IZR (max - min + 1) * IZR (max - min + 1))
        with (IZR (z - min)) by (field; lra).
      rewrite ZfloorZ. rewrite <- (plus_IZR (z - min) min). f_equal. lia.
Qed.

Lemma getRandomInt_range_witness :
  exists z : Z, getRandomInt 0.5 (IZR 2) (IZR 100) = IZR z /\ (2 <= z <= 100)%Z.
Proof.
  assert (Hmm : (2 <= 100)%Z) by lia.
  apply (proj1 (getRandomInt_range 2 100 Hmm)). split; lra.
Defined.

(** ** Random configurations *)

Lemma toFixed2_close (v : number) : Rabs (toFixed2 v - v) <= 0.005.
Proof.
  unfold toFixed2. pose proof (round_bound (v * 100)) as [Hl Hu].
  apply Rabs_le. split; lra.
Qed.

Lemma toFixed2_range (v : number) (lo hi : Z) :
  IZR lo <= v * 100 <= IZR hi -> IZR lo / 100 <= toFixed2 v <= IZR hi / 100.
Proof.
  intros [Hl Hu]. unfold toFixed2.
  pose proof (round_bound (v * 100)) as [Hrl Hru].
  assert (H1 : (lo - 1 < JS.round (v * 100))%Z)
    by (apply lt_IZR; rewrite minus_IZR; lra).
  assert (H2 : (JS.round (v * 100) < hi + 1)%Z)
    by (apply lt_IZR; rewrite plus_IZR; lra).
  assert (H3 : IZR lo <= IZR (JS.round (v * 100))) by (apply IZR_le; lia).
  assert (H4 : IZR (JS.round (v * 100)) <= IZR hi) by (apply IZR_le; lia).
  split; lra.
Qed.

Lemma randomEccentricity_range (rand : number) :
  0 <= rand < 1 ->
  0.6 <= randomEccentricity rand <= 1.4 /\
  0.095 <= Rabs (randomEccentricity rand - 1).
Proof.
  intros [H0 H1]. unfold randomEccentricity, JS.lt.
  replace 1.0 with 1 by lra.
  destruct (Rlt_dec (Rabs (0.6 + rand * 0.8 - 1)) 0.1) as [Hnear | Hfar].
  - split; [lra |].
    unfold Rabs. destruct (Rcase_abs (0.6 - 1)); lra.
  - set (val := 0.6 + rand * 0.8) in *.
    assert (Hv : 0.6 <= val < 1.4) by (subst val; lra).
    split.
    + pose proof (toFixed2_range val 60 140) as Hr.
      replace (IZR 60 / 100) with 0.6 in Hr by lra.
      replace (IZR 140 / 100) with 1.4 in Hr by lra.
      apply Hr. split; lra.
    + pose proof (toFixed2_close val) as Hc.
      apply Rnot_lt_le in Hfar.
      unfold Rabs in *.
      destruct (Rcase_abs (toFixed2 val - val));
        destruct (Rcase_abs (val - 1));
        destruct (Rcase_abs (toFixed2 val - 1)); lra.
Qed.

Lemma pickRatio_range (draws : list (number * number)) (n d : Z) :
  Forall (fun p => 0 <= fst p < 1 /\ 0 <= snd p < 1) draws ->
  pickRatio draws = Some (n, d) ->
  (2 <= n <= 100)%Z /\ (2 <= d <= 100)%Z /\ n <> d.
Proof.
  induction draws as [| [a b] rest IH]; intros Hall Hp; [discriminate |].
  inversion Hall as [| p l [Ha Hb] Hrest]; subst p l. cbn [fst snd] in Ha, Hb.
  cbn [pickRatio] in Hp.
  destruct (Z.eqb (Zfloor (a * 99) + 2) (Zfloor (b * 99) + 2)) eqn:He.
  - apply IH; assumption.
  - injection Hp as <- <-.
    assert (Hfa : (0 <= Zfloor (a * 99) < 99)%Z) by (apply Zfloor_range; lra).
    assert (Hfb : (0 <= Zfloor (b * 99) < 99)%Z) by (apply Zfloor_range; lra).
    apply Z.eqb_neq in He. repeat split; lia.
Qed.

Lemma pickRatio_ends (draws : list (number * number)) :
  Exists (fun p => Zfloor (fst p * 99) <> Zfloor (snd p * 99)) draws ->
  pickRatio draws <> None.
Proof.
  induction draws as [| [a b] rest IH]; intro Hex.
  - inversion Hex.
  - cbn [pickRatio].
    destruct (Z.eqb (Zfloor (a * 99) + 2) (Zfloor (b * 99) + 2)) eqn:He;
      [| discriminate].
    apply IH. inversion Hex as [p l Hne | p l Hrest]; subst p l; [| exact Hrest].
    cbn [fst snd] in Hne. apply Z.eqb_eq in He. lia.
Qed.

Lemma availableColors_get (theme : Theme) (rColor : number) :
  0 <= rColor < 1 ->
  let forbidden := match theme with
                   | dark => "#000000"%string
                   | light => "#ffffff"%string
                   end in
  let available :=
    filter (fun c => negb (String.eqb c forbidden)) PRESET_COLORS in
  exists color,
    arrayGet available (Zfloor (rColor * INR (List.length available)))
      = Some color /\
    In color PRESET_COLORS /\ color <> forbidden.
Proof.
  intros [H0 H1] forbidden available.
  assert (Hlen : List.length available = 20%nat)
    by (subst available forbidden; destruct theme; reflexivity).
  rewrite Hlen.
  assert (Hidx : (0 <= Zfloor (rColor * INR 20) < 20)%Z).
  { apply Zfloor_range. rewrite INR_IZR_INZ. cbn [Z.of_nat Pos.of_succ_nat Pos.succ].
    split; [apply Rmult_le_pos; lra | nra]. }
  unfold arrayGet.
  destruct (Z.ltb_spec (Zfloor (rColor * INR 20)) 0) as [Hneg | _]; [lia |].
  destruct (nth_error available (Z.to_nat (Zfloor (rColor * INR 20))))
    as [color |] eqn:Hn.
  - exists color. split; [reflexivity |].
    apply nth_error_In in Hn. subst available.
    apply filter_In in Hn. destruct Hn as [Hin Hneq].
    split; [exact Hin |].
    intro Heq. rewrite Heq, String.eqb_refl in Hneq. discriminate.
  - apply nth_error_None in Hn. lia.
Qed.

(** X21.  Random configurations are valid and never circular.  For random
    values in [0, 1), [generateRandomConfig] returns a config as soon as
    one pair of draws gives different numbers, and every config it
    returns has a stator radius between 60 and 109, a rotor radius of at
    least 1, a non-negative pen offset, aspects between 0.6 and 1.4 that
    are at least 0.095 away from 1, so that the engine runs it in numeric
    mode, a hint [n / d] with [n] and [d] between 2 and 100 and different,
    which is what the export prints, and a preset pen color other than
    the background color of the theme. *)
Theorem generateRandomConfig_valid (theme : Theme)
    (draws : list (number * number))
    (rOuter rOffset rColor rStator rRotor : number) :
  Forall (fun p => 0 <= fst p < 1 /\ 0 <= snd p < 1) draws ->
  0 <= rOuter < 1 -> 0 <= rOffset < 1 -> 0 <= rColor < 1 ->
  0 <= rStator < 1 -> 0 <= rRotor < 1 ->
  let result :=
    generateRandomConfig theme draws rOuter rOffset rColor rStator rRotor in
  (Exists (fun p => Zfloor (fst p * 99) <> Zfloor (snd p * 99)) draws ->
   result <> None) /\
  (forall config, result = Some config ->
     60 <= outerRadius config <= 109 /\
     1 <= innerRadius config /\
     0 <= penOffset config /\
     0.6 <= statorAspect config <= 1.4 /\
     0.6 <= rotorAspect config <= 1.4 /\
     isCircular config = false /\
     (exists n d : Z,
        numerator config = Some (IZR n) /\ denominator config = Some (IZR d) /\
        (2 <= n <= 100)%Z /\ (2 <= d <= 100)%Z /\ n <> d /\
        ratioText config = (IZR n, IZR d)) /\
     In (penColor config) PRESET_COLORS /\
     penColor config <> match theme with
                        | dark => "#000000"%string
                        | light => "#ffffff"%string
                        end).
Proof.
  intros Hdraws HrO HrF HrC HrS HrR result.
  destruct (availableColors_get theme rColor HrC) as (color & Hget & Hin & Hneq).
  cbv zeta in Hget.
  split.
  - intro Hex. subst result. unfold generateRandomConfig.
    destruct (pickRatio draws) as [[n d] |] eqn:Hp.
    + rewrite Hget. discriminate.
    + exfalso. eapply pickRatio_ends; eassumption.
  - intros config Hres. subst result. unfold generateRandomConfig in Hres.
    destruct (pickRatio draws) as [[n d] |] eqn:Hp; [| discriminate].
    rewrite Hget in Hres. injection Hres as <-.
    destruct (pickRatio_range draws n d Hdraws Hp) as (Hn & Hd & Hnd).
    cbn [outerRadius innerRadius penOffset statorAspect rotorAspect
         numerator denominator penColor].
    destruct (randomEccentricity_range rStator HrS) as [HsR HsF].
    destruct (randomEccentricity_range rRotor HrR) as [HrRg HrFar].
    assert (Hout : (60 <= Zfloor (60 + rOuter * 50) <= 109)%Z).
    { pose proof (Zfloor_bound (60 + rOuter * 50)) as [Hl Hu].
      split.
      - apply (Zfloor_lub 60). lra.
      - assert (IZR (Zfloor (60 + rOuter * 50)) < 110) by lra.
        apply lt_IZR in H. lia. }
    assert (HoutR : 60 <= IZR (Zfloor (60 + rOuter * 50)) <= 109)
      by (split; apply IZR_le; lia).
    assert (HnR : 2 <= IZR n <= 100) by (split; apply IZR_le; lia).
    assert (HdR : 2 <= IZR d <= 100) by (split; apply IZR_le; lia).
    set (R := IZR (Zfloor (60 + rOuter * 50))) in *.
    assert (Hratio : 1 <= R * (IZR n / IZR d)).
    { apply Rmult_le_reg_r with (r := IZR d); [lra |].
      replace (R * (IZR n / IZR d) * IZR d) with (R * IZR n) by (field; lra).
      nra. }
    assert (Hinner : (1 <= Zfloor (R * (IZR n / IZR d)))%Z)
      by (apply (Zfloor_lub 1); exact Hratio).
    assert (HinnerR : 1 <= IZR (Zfloor (R * (IZR n / IZR d))))
      by (apply IZR_le; exact Hinner).
    set (r := IZR (Zfloor (R * (IZR n / IZR d)))) in *.
    assert (Hpen : 0 <= IZR (Zfloor (r * (0.4 + rOffset * 0.8)))).
    { apply IZR_le. apply (Zfloor_lub 0). apply Rmult_le_pos; lra. }
    split; [exact HoutR |]. split; [exact HinnerR |]. split; [exact Hpen |].
    split; [exact HsR |]. split; [exact HrRg |].
    split.
    { apply isCircular_false. left. cbn [statorAspect]. lra. }
    split.
    { exists n, d. do 5 (split; [first [reflexivity | assumption] |]).
      apply ratioText_hint; [reflexivity | reflexivity |].
      unfold hintPresent, JS.truthy. cbn [numerator denominator].
      destruct (Req_dec_T (IZR n) 0); [lra |].
      destruct (Req_dec_T (IZR d) 0); [lra |]. reflexivity. }
    split; assumption.
Qed.

Lemma generateRandomConfig_valid_witness :
  generateRandomConfig light [(0.1, 0.5)] 0.5 0.5 0.5 0.5 0.5 <> None.
Proof.
  assert (H : 0 <= 0.5 < 1) by (split; lra).
  assert (Hd : Forall (fun p : number * number =>
                         0 <= fst p < 1 /\ 0 <= snd p < 1) [(0.1, 0.5)]).
  { constructor; [cbn [fst snd]; split; split; lra | constructor]. }
  apply (proj1 (generateRandomConfig_valid light [(0.1, 0.5)]
                  0.5 0.5 0.5 0.5 0.5 Hd H H H H H)).
  constructor. cbn [fst snd].
  assert (H1 : Zfloor (0.1 * 99) = 9%Z) by (apply Zfloor_eq; split; lra).
  assert (H2 : Zfloor (0.5 * 99) = 49%Z) by (apply Zfloor_eq; split; lra).
  rewrite H1, H2. discriminate.
Defined.

(** ** Live and exported transforms *)


Lemma truncate_nonneg (a : number) : 0 <= a -> JS.truncate a = Zfloor a.
Proof.
  intro Ha. unfold JS.truncate. destruct (Rlt_dec a 0); [lra | reflexivity].
Qed.





(** ** Layout of the export *)

Lemma maxLineWidth_from (lineWidths : list number) (start : number) :
  start <= fold_left (fun maxWidth w => if JS.lt maxWidth w then w else maxWidth)
             lineWidths start /\
  forall w, In w lineWidths ->
    w <= fold_left (fun maxWidth w => if JS.lt maxWidth w then w else maxWidth)
           lineWidths start.
Proof.
  revert start. induction lineWidths as [| w0 ws IH]; intro start.
  - split; [cbn; lra | intros w []].
  - cbn [fold_left]. destruct (JS.lt start w0) eqn:E.
    + assert (Hlt : start < w0)
        by (unfold JS.lt in E; destruct (Rlt_dec start w0); [assumption | discriminate]).
      destruct (IH w0) as [H1 H2]. split; [lra |].
      intros w [<- | Hin]; [exact H1 | apply H2; exact Hin].
    + assert (Hge : w0 <= start)
        by (unfold JS.lt in E; destruct (Rlt_dec start w0); [discriminate | lra]).
      destruct (IH start) as [H1 H2]. split; [exact H1 |].
      intros w [<- | Hin]; [lra | apply H2; exact Hin].
Qed.

(** X23.  The panel of the annotated export is sized to its text: every
    line fits between the left and right padding of 12, each of the lines
    lies between the top and bottom padding, the panel keeps the margin
    of 20 from the left edge, and its bottom edge stays 30 above the top
    of the footer text, whose font is never smaller than 12. *)
Theorem statsBox_holds_its_text (width height : number) (lineWidths : list number) :
  let box := statsBox width height lineWidths in
  let footerTop := footerBaseline width height - footerFontSize width in
  boxX box = 20 /\
  (forall w, In w lineWidths ->
     statsLineX box + w <= boxX box + boxWidth box - 12) /\
  (forall i, (i < List.length lineWidths)%nat ->
     boxY box + 12 <= statsLineY box i /\
     statsLineY box i + 18 <= boxY box + boxHeight box - 12) /\
  boxY box + boxHeight box + 30 = footerTop /\
  12 <= footerFontSize width.
Proof.
  intros box footerTop. subst box footerTop.
  unfold statsBox, statsLineX, statsLineY, footerBaseline.
  cbn [boxX boxY boxWidth boxHeight].
  split; [reflexivity |].
  split.
  { intros w Hin.
    pose proof (proj2 (maxLineWidth_from lineWidths 0) w Hin) as Hw.
    fold (maxLineWidth lineWidths) in Hw. lra. }
  split.
  { intros i Hi.
    assert (H0 : 0 <= INR i) by apply pos_INR.
    assert (H1 : INR i + 1 <= INR (List.length lineWidths)).
    { rewrite <- S_INR. apply le_INR. lia. }
    split; lra. }
  split; [ring |].
  unfold footerFontSize. apply Rmax_l.
Qed.

Lemma unitRoundoff_small : 0 < unitRoundoff < / 1000000.
Proof.
  unfold unitRoundoff. split.
  - apply Rinv_0_lt_compat. apply pow_lt. lra.
  - apply Rinv_lt_contravar; [| lra].
    apply Rmult_lt_0_compat; [lra | apply pow_lt; lra].
Qed.

Lemma admissible_bounds (e : number) :
  admissible e -> - unitRoundoff <= e <= unitRoundoff.
Proof.
  unfold admissible, Rabs. destruct (Rcase_abs e); intro H; lra.
Qed.

Lemma admissible_zero : admissible 0.
Proof.
  unfold admissible. rewrite Rabs_R0. pose proof unitRoundoff_small. lra.
Qed.

(** The product [width * scaleFactor] for a source of at most 1500
    pixels, before the multiplication is rounded. *)
Lemma scaled_width_near_target (width e1 : number) :
  1 <= width <= 1500 -> - unitRoundoff <= e1 <= unitRoundoff ->
  3000 * (1 + e1) <= width * exportScaleFactorRounded width e1
    <= 3000 * (1 + unitRoundoff).
Proof.
  intros [Hw1 Hw2] He. pose proof unitRoundoff_small as Hu.
  unfold exportScaleFactorRounded, rounded.
  assert (Hq : width * (3000 / width * (1 + e1)) = 3000 * (1 + e1))
    by (field; lra).
  unfold Rmax. destruct (Rle_dec 2 (3000 / width * (1 + e1))) as [H | H].
  - rewrite Hq. split; [lra |].
    apply Rmult_le_compat_l; lra.
  - apply Rnot_le_lt in H.
    apply Rmult_lt_compat_l with (r := width) in H; [| lra].
    rewrite Hq in H. split; [lra |]. nra.
Qed.

(** X24.  The high-resolution export doubles a source canvas wider than
    1500 pixels (a doubling is exact in binary floating point, [e2 = 0])
    and aims at 3000 pixels for the others.  Since the canvas
    width is an integer attribute and [width * (3000 / width)] is
    computed in floating point, the canvas of a source of at most 1500
    pixels is 2999 or 3000 pixels wide: 3000 when the arithmetic is
    exact, 2999 when the division of a source narrower than 1500 rounds
    down by the unit roundoff.  The scale itself is at least 2.  The
    footer badge is centered on the canvas and surrounds the footer text
    with the same space above and below; the panel of the annotated
    export ends above the badge as long as the footer font is smaller
    than 80, that is for a source canvas narrower than 5600 pixels. *)
Theorem hires_export_layout (w : Z) (height fTextWidth e1 e2 : number)
    (lineWidths : list number) :
  (1 <= w)%Z -> admissible e1 -> admissible e2 ->
  let width := IZR w in
  let s := exportScaleFactorRounded width e1 in
  let badge := footerBox width height fTextWidth in
  let panel := statsBox width height lineWidths in
  let F := footerFontSize width in
  2 <= s /\
  ((w <= 1500)%Z ->
   (hiResCanvasWidth width e1 e2 = 2999 \/
    hiResCanvasWidth width e1 e2 = 3000) /\
   hiResCanvasWidth width 0 0 = 3000 /\
   ((w < 1500)%Z -> hiResCanvasWidth width (- unitRoundoff) 0 = 2999)) /\
  ((1500 < w)%Z -> s = 2 /\ hiResCanvasWidth width e1 0 = 2 * width) /\
  boxX badge + boxWidth badge / 2 = width / 2 /\
  boxY badge + 0.375 * F = footerBaseline width height - F /\
  boxY badge + boxHeight badge = footerBaseline width height + 0.375 * F /\
  boxY badge - (boxY panel + boxHeight panel) = 30 - 0.375 * F /\
  (width < 5600 -> boxY panel + boxHeight panel < boxY badge).
Proof.
  intros Hw He1 He2 width s badge panel F.
  pose proof unitRoundoff_small as Hu.
  apply admissible_bounds in He1, He2.
  assert (Hw1 : 1 <= width) by (subst width; apply IZR_le; exact Hw).
  split; [subst s; unfold exportScaleFactorRounded; apply Rmax_l |].
  split.
  { intro H15.
    assert (Hw2 : width <= 1500) by (subst width; apply IZR_le; exact H15).
    assert (Hcase : forall a b : number,
              - unitRoundoff <= a <= unitRoundoff ->
              - unitRoundoff <= b <= unitRoundoff ->
              2999 < rounded (width * exportScaleFactorRounded width a) b < 3001).
    { intros a b Ha Hb.
      pose proof (scaled_width_near_target width a (conj Hw1 Hw2) Ha) as HA.
      unfold rounded.
      set (A := width * exportScaleFactorRounded width a) in *.
      split; nra. }
    assert (Htrunc : forall x : number, 2999 < x < 3001 ->
              (x < 3000 -> IZR (JS.truncate x) = 2999) /\
              (3000 <= x -> IZR (JS.truncate x) = 3000)).
    { intros x Hx. rewrite truncate_nonneg by lra. split; intro Hc.
      - rewrite (Zfloor_eq 2999 x); [reflexivity | split; lra].
      - rewrite (Zfloor_eq 3000 x); [reflexivity | split; lra]. }
    split; [| split].
    - unfold hiResCanvasWidth.
      destruct (Htrunc _ (Hcase e1 e2 He1 He2)) as [Hlo Hhi].
      destruct (Rlt_dec (rounded (width * exportScaleFactorRounded width e1) e2)
                  3000) as [Hc | Hc].
      + left. apply Hlo. exact Hc.
      + right. apply Hhi. lra.
    - unfold hiResCanvasWidth.
      assert (H0 : - unitRoundoff <= 0 <= unitRoundoff) by lra.
      apply (proj2 (Htrunc _ (Hcase 0 0 H0 H0))).
      pose proof (scaled_width_near_target width 0 (conj Hw1 Hw2) H0) as HA.
      unfold rounded. lra.
    - intro Hlt.
      assert (Hw3 : width <= 1499).
      { subst width. apply IZR_le. lia. }
      unfold hiResCanvasWidth.
      assert (Hm : - unitRoundoff <= - unitRoundoff <= unitRoundoff) by lra.
      assert (H0 : - unitRoundoff <= 0 <= unitRoundoff) by lra.
      apply (proj1 (Htrunc _ (Hcase (- unitRoundoff) 0 Hm H0))).
      unfold rounded, exportScaleFactorRounded, rounded.
      assert (Hq : width * (3000 / width * (1 + - unitRoundoff)) =
                   3000 * (1 - unitRoundoff)) by (field; lra).
      assert (Hbig : 2 <= 3000 / width * (1 + - unitRoundoff)).
      { apply Rmult_le_reg_l with (r := width); [lra |].
        rewrite Hq. nra. }
      rewrite Rmax_right by exact Hbig. rewrite Hq. nra. }
  split.
  { intro H15.
    assert (Hw2 : 1501 <= width).
    { subst width. apply IZR_le. lia. }
    assert (Hs : s = 2).
    { subst s. unfold exportScaleFactorRounded, rounded.
      apply Rmax_left.
      assert (Hq : width * (3000 / width * (1 + e1)) = 3000 * (1 + e1))
        by (field; lra).
      apply Rmult_le_reg_l with (r := width); [lra |].
      rewrite Hq. nra. }
    split; [exact Hs |].
    unfold hiResCanvasWidth. fold s. rewrite Hs. unfold rounded.
    replace (width * 2 * (1 + 0)) with (IZR (w * 2)).
    - rewrite truncate_nonneg by (apply IZR_le; lia).
      rewrite ZfloorZ, mult_IZR. subst width. ring.
    - rewrite mult_IZR. subst width. ring. }
  subst badge panel F.
  unfold footerBox, statsBox, footerBaseline, footerPaddingBottom.
  cbn [boxX boxY boxWidth boxHeight].
  split; [field |].
  split; [lra |].
  split; [lra |].
  split; [lra |].
  intro H56.
  assert (HF : footerFontSize width < 80).
  { unfold footerFontSize. apply Rmax_lub_lt; lra. }
  lra.
Qed.

Lemma hires_export_layout_witness :
  hiResCanvasWidth 91 0 0 = 3000 /\
  hiResCanvasWidth 91 (- unitRoundoff) 0 = 2999.
Proof.
  assert (Hw : (1 <= 91)%Z) by lia.
  assert (H15 : (91 <= 1500)%Z) by lia.
  assert (Hlt : (91 < 1500)%Z) by lia.
  destruct (proj1 (proj2 (hires_export_layout 91 600 100 0 0 []
                            Hw admissible_zero admissible_zero)) H15)
    as (_ & Hexact & Hdown).
  split; [exact Hexact | exact (Hdown Hlt)].
Defined.

Lemma statsBox_holds_its_text_witness :
  statsLineX (statsBox 800 600 [100; 250]) + 250 <=
  boxX (statsBox 800 600 [100; 250]) + boxWidth (statsBox 800 600 [100; 250]) - 12.
Proof.
  apply (proj1 (proj2 (statsBox_holds_its_text 800 600 [100; 250]))).
  right. left. reflexivity.
Defined.

(** ** The overlay and the trace *)

Lemma repeat_last {A : Type} (n : nat) (body : A -> A) (s : A) :
  JS.repeat (S n) body s = body (JS.repeat n body s).
Proof.
  revert s. induction n as [| n IH]; intro s; [reflexivity |].
  change (JS.repeat (S (S n)) body s) with (JS.repeat (S n) body (body s)).
  rewrite IH. reflexivity.
Qed.

Lemma subStep_overlay (config : SpiroConfig) (refs : Refs) (d : Point.t) :
  let refs' := subStep config refs in
  last (pointsRef refs') d =
    {| Point.x := px (overlayState config refs');
       Point.y := py (overlayState config refs') |} /\
  (isCircular config = false ->
   rotorRotationRef refs' = phi (overlayState config refs')).
Proof.
  intro refs'. subst refs'. rewrite subStep_points, last_last.
  destruct (isCircular config) eqn:Hc.
  - rewrite (stepState_exact config refs Hc).
    unfold overlayState, subStep. rewrite Hc.
    split; [reflexivity | discriminate].
  - rewrite (stepState_numeric config refs Hc).
    unfold overlayState, subStep. rewrite Hc.
    rewrite (stepState_numeric config refs Hc).
    split; [reflexivity | intros _; reflexivity].
Qed.

(** X25.  After a tick that makes at least one sub-step the gear overlay
    agrees with the trace and with the refs: the pen drawn by the overlay
    is the last point of the trace, and the rotation stored in
    [rotorRotationRef] is the rotation the overlay draws the rotor with. *)
Theorem overlay_pen_ends_trace (config : SpiroConfig) (refs : Refs) (d : Point.t) :
  (1 <= steps config)%nat ->
  let refs' := simulate config true refs in
  last (pointsRef refs') d =
    {| Point.x := px (overlayState config refs');
       Point.y := py (overlayState config refs') |} /\
  rotorRotationRef refs' = phi (overlayState config refs').
Proof.
  intros Hsteps refs'.
  destruct (steps config) as [| n] eqn:Hn; [lia |].
  assert (Hrun : JS.repeat (S n) (subStep config) refs =
                 subStep config (JS.repeat n (subStep config) refs))
    by apply repeat_last.
  destruct (subStep_overlay config (JS.repeat n (subStep config) refs) d)
    as [Hlast Hphi].
  cbv zeta in Hlast, Hphi. rewrite <- Hrun in Hlast, Hphi.
  subst refs'. unfold simulate. rewrite Hn.
  destruct (isCircular config) eqn:Hc.
  - unfold overlayState in *. rewrite Hc in *.
    cbn [pointsRef rotorRotationRef angleRef].
    split; [exact Hlast | reflexivity].
  - split; [exact Hlast | apply Hphi; reflexivity].
Qed.

Lemma overlay_pen_ends_trace_witness :
  rotorRotationRef (simulate defaultConfig true initialRefs) =
  phi (overlayState defaultConfig (simulate defaultConfig true initialRefs)).
Proof.
  assert (Hs : (1 <= steps defaultConfig)%nat).
  { unfold steps, JS.ceil. cbn [speed defaultConfig].
    assert (H : Zceil (1 * 5) = 5%Z) by (apply Zceil_eq; split; lra).
    rewrite H. cbn. lia. }
  exact (proj2 (overlay_pen_ends_trace defaultConfig initialRefs
                  {| Point.x := 0; Point.y := 0 |} Hs)).
Defined.

(** X26.  The gears of the annotated export are in the start position in
    either mode: for positive radii and aspects the contact point is
    [(R, 0)], the rotor center [(R - r, 0)] and the pen [(R - r + d, 0)],
    and the rotor is drawn unturned, with a rotation of cosine 1 and
    sine 0. *)
Theorem exportInitialState_start_position (config : SpiroConfig) :
  0 < outerRadius config -> 0 < innerRadius config ->
  0 < statorAspect config -> 0 < rotorAspect config ->
  let s := exportInitialState config in
  let R := outerRadius config in
  let r := innerRadius config in
  let d := penOffset config in
  (contactX s, contactY s) = (R, 0) /\
  (cx s, cy s) = (R - r, 0) /\
  (px s, py s) = (R - r + d, 0) /\
  cos (phi s) = 1 /\ sin (phi s) = 0.
Proof.
  intros HR Hr Hs Ha s R r d. subst s R r d.
  unfold exportInitialState, overlayState. cbn [angleRef rotorParamRef initialRefs].
  set (R := outerRadius config) in *. set (r := innerRadius config) in *.
  set (d := penOffset config) in *.
  destruct (isCircular config).
  - unfold calculateExactStep. cbn [px py cx cy phi contactX contactY].
    replace (0 * (1 - R / r)) with 0 by ring.
    rewrite cos_0, sin_0. repeat split; f_equal; ring.
  - set (sA := statorAspect config) in *. set (rA := rotorAspect config) in *.
    pose proof (phi_cos_sin 0 0 R r d sA rA) as Hphi. cbv zeta in Hphi.
    pose proof (getEllipseMetric_pos 0 R sA HR Hs) as HS.
    pose proof (getEllipseMetric_pos 0 r rA Hr Ha) as HT.
    assert (HSv : getEllipseMetric 0 R sA = R * sA).
    { unfold getEllipseMetric. rewrite sin_0, cos_0.
      replace (- R * 0 * (- R * 0) + R * sA * 1 * (R * sA * 1))
        with ((R * sA) * (R * sA)) by ring.
      apply sqrt_square. apply Rmult_le_pos; lra. }
    assert (HTv : getEllipseMetric 0 r rA = r * rA).
    { unfold getEllipseMetric. rewrite sin_0, cos_0.
      replace (- r * 0 * (- r * 0) + r * rA * 1 * (r * rA * 1))
        with ((r * rA) * (r * rA)) by ring.
      apply sqrt_square. apply Rmult_le_pos; lra. }
    rewrite HSv, HTv, sin_0, cos_0 in Hphi. destruct Hphi as [Hc Hsn].
    assert (Hprod : 0 < R * sA * (r * rA))
      by (repeat apply Rmult_lt_0_compat; assumption).
    set (g := getGeometry 0 0 R r d sA rA) in *.
    assert (Hcos : cos (g_phi g) = 1).
    { apply Rmult_eq_reg_r with (r := R * sA * (r * rA)); [| lra].
      rewrite Hc. ring. }
    assert (Hsin : sin (g_phi g) = 0).
    { apply Rmult_eq_reg_r with (r := R * sA * (r * rA)); [| lra].
      rewrite Hsn. ring. }
    cbn [px py cx cy phi contactX contactY].
    assert (Hcx : g_cx g = R * cos 0
                  - (r * cos 0 * cos (g_phi g) - r * rA * sin 0 * sin (g_phi g)))
      by reflexivity.
    assert (Hcy : g_cy g = R * sA * sin 0
                  - (r * cos 0 * sin (g_phi g) + r * rA * sin 0 * cos (g_phi g)))
      by reflexivity.
    assert (Hpx : g_px g = g_cx g + d * cos (g_phi g)) by reflexivity.
    assert (Hpy : g_py g = g_cy g + d * sin (g_phi g)) by reflexivity.
    assert (HcX : g_contactX g = R * cos 0) by reflexivity.
    assert (HcY : g_contactY g = R * sA * sin 0) by reflexivity.
    rewrite Hpx, Hpy, Hcx, Hcy, HcX, HcY, Hcos, Hsin, sin_0, cos_0.
    repeat split; f_equal; ring.
Qed.

Lemma exportInitialState_start_position_witness :
  (px (exportInitialState ellipticConfig), py (exportInitialState ellipticConfig))
  = (150 - 52 + 70, 0).
Proof.
  pose proof ellipticConfig_positive as (HR & Hr & Hs & Ha).
  exact (proj1 (proj2 (proj2
           (exportInitialState_start_position ellipticConfig HR Hr Hs Ha)))).
Defined.
